(** * pixie-cli: the OpenAPI generator of [pixie generate]

    A shallow embedding of the static analyzer found under
    [internal/cli/pixie/generate_cmd/openapi]: the route graph builder
    ([extract_endpoints.go]), the endpoint enhancer (the analyzer file), the
    type/schema resolver ([schema.go]) and the spec assembler
    ([generator.go]), with the queries of the business-layer registry and
    two helpers of the [openapi-spec] command, followed by the properties of
    the specification that are stated about them and by further properties
    of the code.

    Go strings are byte strings and are modelled by [string]; Go maps are
    [gmap]s; a [*T] that may be nil is an [option T]. *)

From Stdlib Require Import Ascii String.
From stdpp Require Import gmap strings list.

Local Open Scope char_scope.
Local Open Scope stdpp_scope.

(** ** The part of Go's [strings] package the generator uses *)

Module GoStrings.

(** [s[n:]] *)
Fixpoint from (n : nat) (s : string) : string :=
  match n, s with
  | 0, _ => s
  | S n', String _ s' => from n' s'
  | S _, "" => ""
  end.

(** [s[:n]] *)
Fixpoint upto (n : nat) (s : string) : string :=
  match n, s with
  | 0, _ => ""
  | S n', String c s' => String c (upto n' s')
  | S _, "" => ""
  end.

(** [s[i:j]] *)
Definition slice (i j : nat) (s : string) : string := upto (j - i) (from i s).

Fixpoint HasPrefix (s prefix : string) : bool :=
  match prefix, s with
  | "", _ => true
  | String p prefix', String c s' =>
      if decide (p = c) then HasPrefix s' prefix' else false
  | String _ _, "" => false
  end.

Definition TrimPrefix (s prefix : string) : string :=
  if HasPrefix s prefix then from (String.length prefix) s else s.

Definition HasSuffix (s suffix : string) : bool :=
  bool_decide (String.length suffix ≤ String.length s) &&
  bool_decide (from (String.length s - String.length suffix) s = suffix).

Definition TrimSuffix (s suffix : string) : string :=
  if HasSuffix s suffix then upto (String.length s - String.length suffix) s
  else s.

(** [strings.Index]; [None] stands for Go's [-1]. *)
Fixpoint Index (s substr : string) : option nat :=
  if HasPrefix s substr then Some 0
  else match s with
       | "" => None
       | String _ s' => S <$> Index s' substr
       end.

Definition Contains (s substr : string) : bool :=
  bool_decide (is_Some (Index s substr)).

(** [strings.LastIndex]; [None] stands for Go's [-1]. *)
Fixpoint LastIndex (s substr : string) : option nat :=
  match s with
  | "" => if HasPrefix s substr then Some 0 else None
  | String _ s' =>
      match LastIndex s' substr with
      | Some i => Some (S i)
      | None => if HasPrefix s substr then Some 0 else None
      end
  end.

(** Splitting around a one-byte separator. *)
Fixpoint SplitByte (c : ascii) (s : string) : list string :=
  match s with
  | "" => [""]
  | String a s' =>
      if decide (a = c) then "" :: SplitByte c s'
      else match SplitByte c s' with
           | h :: t => String a h :: t
           | [] => [String a ""]
           end
  end.

Fixpoint splitAt (fuel : nat) (s sep : string) : list string :=
  match fuel with
  | 0 => [s]
  | S fuel' =>
      match Index s sep with
      | None => [s]
      | Some i => upto i s :: splitAt fuel' (from (i + String.length sep) s) sep
      end
  end.

Fixpoint explode (s : string) : list string :=
  match s with
  | "" => []
  | String c s' => String c "" :: explode s'
  end.

(** [strings.Split].  The empty separator splits after every byte (the
    generator never passes it); every call site passes a one-byte
    separator. *)
Definition Split (s sep : string) : list string :=
  match sep with
  | "" => explode s
  | String c "" => SplitByte c s
  | _ => splitAt (String.length s) s sep
  end.

Fixpoint Join (elems : list string) (sep : string) : string :=
  match elems with
  | [] => ""
  | [e] => e
  | e :: rest => e +:+ sep +:+ Join rest sep
  end.

Definition lowerByte (c : ascii) : ascii :=
  let n := nat_of_ascii c in
  if bool_decide (65 ≤ n ≤ 90) then ascii_of_nat (n + 32) else c.

Definition upperByte (c : ascii) : ascii :=
  let n := nat_of_ascii c in
  if bool_decide (97 ≤ n ≤ 122) then ascii_of_nat (n - 32) else c.

Fixpoint mapBytes (f : ascii → ascii) (s : string) : string :=
  match s with
  | "" => ""
  | String c s' => String (f c) (mapBytes f s')
  end.

(** [strings.ToLower] and [strings.ToUpper] on ASCII text. *)
Definition ToLower : string → string := mapBytes lowerByte.
Definition ToUpper : string → string := mapBytes upperByte.

Fixpoint trimLeft (p : ascii → bool) (s : string) : string :=
  match s with
  | "" => ""
  | String c s' => if p c then trimLeft p s' else s
  end.

Definition trimRight (p : ascii → bool) (s : string) : string :=
  String.rev (trimLeft p (String.rev s)).

Definition bytes (codes : list nat) : string :=
  foldr (λ n s, String (ascii_of_nat n) s) "" codes.

(** The white space of [unicode.IsSpace] in UTF-8: the six ASCII
    characters, U+0085, U+00A0, U+1680, U+2000 to U+200A, U+2028, U+2029,
    U+202F, U+205F and U+3000. *)
Definition whiteSpace : list string :=
  (bytes <$> [[9]; [10]; [11]; [12]; [13]; [32]; [194; 133]; [194; 160]; [225; 154; 128]])
  ++ ((λ n, bytes [226; 128; n]) <$> seq 128 11)
  ++ (bytes <$> [[226; 128; 168]; [226; 128; 169]; [226; 128; 175]; [226; 129; 159];
                 [227; 128; 128]]).

(** The loops of [strings.TrimLeftFunc] and [strings.TrimRightFunc] with
    [unicode.IsSpace]: the first (last) character is decoded and dropped while
    it is white space; a byte that starts no valid encoding is none.  Every
    round drops a byte at least, so [String.length s] rounds suffice. *)
Fixpoint trimSpaceLeft (fuel : nat) (s : string) : string :=
  match fuel with
  | 0 => s
  | S fuel' =>
      match List.find (HasPrefix s) whiteSpace with
      | Some space => trimSpaceLeft fuel' (from (String.length space) s)
      | None => s
      end
  end.

Fixpoint trimSpaceRight (fuel : nat) (s : string) : string :=
  match fuel with
  | 0 => s
  | S fuel' =>
      match List.find (HasSuffix s) whiteSpace with
      | Some space =>
          trimSpaceRight fuel' (upto (String.length s - String.length space) s)
      | None => s
      end
  end.

(** [strings.TrimSpace] *)
Definition TrimSpace (s : string) : string :=
  let s := trimSpaceLeft (String.length s) s in
  trimSpaceRight (String.length s) s.

Fixpoint memByte (c : ascii) (cutset : string) : bool :=
  match cutset with
  | "" => false
  | String d cutset' => if decide (c = d) then true else memByte c cutset'
  end.

(** [strings.Trim] *)
Definition Trim (s cutset : string) : string :=
  trimRight (λ c, memByte c cutset) (trimLeft (λ c, memByte c cutset) s).

(** [s[i]], when in range *)
Definition byteAt (s : string) (i : nat) : option ascii := String.get i s.

Definition last_or (l : list string) (d : string) : string := List.last l d.

End GoStrings.

Import GoStrings.

(** ** The part of Go's [strconv] package the generator uses *)

Module GoStrconv.

Definition dquote : ascii := "034"%char.
Definition bquote : ascii := "096"%char.
Definition bslash : ascii := "092"%char.
Definition newline : ascii := "010"%char.
Definition creturn : ascii := "013"%char.

Definition simpleEscape (c : ascii) : option ascii :=
  (match c with
   | "a" => Some "007" | "b" => Some "008" | "f" => Some "012"
   | "n" => Some "010" | "r" => Some "013" | "t" => Some "009"
   | "v" => Some "011" | "092" => Some "092" | "034" => Some "034"
   | _ => None
   end)%char.

Definition unhex (c : ascii) : option Z :=
  let n := nat_of_ascii c in
  if bool_decide (48 ≤ n ≤ 57) then Some (Z.of_nat (n - 48))
  else if bool_decide (97 ≤ n ≤ 102) then Some (Z.of_nat (n - 87))
  else if bool_decide (65 ≤ n ≤ 70) then Some (Z.of_nat (n - 55))
  else None.

Definition unoct (c : ascii) : option Z :=
  let n := nat_of_ascii c in
  if bool_decide (48 ≤ n ≤ 55) then Some (Z.of_nat (n - 48)) else None.

(** The value of the [n] digits that [s] starts with, in the base [base],
    and what follows them. *)
Fixpoint digitsValue (digit : ascii → option Z) (base : Z) (n : nat) (acc : Z)
    (s : string) : option (Z * string) :=
  match n with
  | 0 => Some (acc, s)
  | S n' =>
      match s with
      | "" => None
      | String c s' => d ← digit c; digitsValue digit base n' (base * acc + d)%Z s'
      end
  end.

Definition byteOf (v : Z) : ascii := ascii_of_nat (Z.to_nat v).

(** [utf8.ValidRune] and [utf8.AppendRune] *)
Definition validRune (v : Z) : bool :=
  bool_decide (0 ≤ v < 55296 ∨ 57343 < v ≤ 1114111)%Z.

Definition encodeRune (v : Z) : string :=
  let cont (x : Z) := byteOf (128 + x `mod` 64)%Z in
  if bool_decide (v < 128)%Z then String (byteOf v) ""
  else if bool_decide (v < 2048)%Z then
    String (byteOf (192 + v / 64)%Z) (String (cont v) "")
  else if bool_decide (v < 65536)%Z then
    String (byteOf (224 + v / 4096)%Z) (String (cont (v / 64)%Z) (String (cont v) ""))
  else
    String (byteOf (240 + v / 262144)%Z)
      (String (cont (v / 4096)%Z) (String (cont (v / 64)%Z) (String (cont v) ""))).

(** The body of an interpreted string literal, up to and including the
    closing quote; [fuel] bounds the number of characters read. *)
Fixpoint interpretedFrom (fuel : nat) (s : string) : option string :=
  match fuel, s with
  | 0, _ | _, "" => None
  | S fuel', String c s' =>
      if decide (c = dquote) then (if decide (s' = "") then Some "" else None)
      else if decide (c = newline) then None
      else if decide (c = bslash) then
        match s' with
        | "" => None
        | String e rest =>
            match simpleEscape e, unoct e with
            | Some c', _ => String c' <$> interpretedFrom fuel' rest
            | None, Some d =>
                '(v, rest) ← digitsValue unoct 8 2 d rest;
                if bool_decide (255 < v)%Z then None
                else String (byteOf v) <$> interpretedFrom fuel' rest
            | None, None =>
                if decide (e = "x"%char) then
                  '(v, rest) ← digitsValue unhex 16 2 0 rest;
                  String (byteOf v) <$> interpretedFrom fuel' rest
                else if decide (e = "u"%char ∨ e = "U"%char) then
                  '(v, rest) ← digitsValue unhex 16
                                  (if decide (e = "u"%char) then 4 else 8) 0 rest;
                  if validRune v
                  then String.append (encodeRune v) <$> interpretedFrom fuel' rest
                  else None
                else None
            end
        end
      else String c <$> interpretedFrom fuel' s'
  end.

Definition interpreted (s : string) : option string :=
  interpretedFrom (String.length s) s.

Fixpoint rawBody (s : string) : option string :=
  match s with
  | "" => None
  | String c s' =>
      if decide (c = bquote) then (if decide (s' = "") then Some "" else None)
      else if decide (c = creturn) then rawBody s'
      else String c <$> rawBody s'
  end.

(** [strconv.Unquote] on a string literal of a parsed file (whose text is
    valid UTF-8): an interpreted literal or a raw literal.  [None] is a
    non-nil error; it is also the answer to a character literal, which the
    generator never passes. *)
Definition Unquote (s : string) : option string :=
  match s with
  | String q body =>
      if decide (q = dquote) then interpreted body
      else if decide (q = bquote) then rawBody body
      else None
  | "" => None
  end.

(** The source text of the interpreted literal denoting [s], for [s] free
    of quotes and backslashes. *)
Definition quoted (s : string) : string :=
  String dquote (s +:+ String dquote "").

Definition digit (c : ascii) : option Z :=
  let n := nat_of_ascii c in
  if bool_decide (48 ≤ n ≤ 57) then Some (Z.of_nat (n - 48)) else None.

Fixpoint digits (acc : Z) (s : string) : option Z :=
  match s with
  | "" => Some acc
  | String c s' => d ← digit c; digits (10 * acc + d)%Z s'
  end.

(** [strconv.Atoi]: a decimal integer with an optional sign that fits a
    64-bit [int]; [None] is a non-nil error. *)
Definition Atoi (s : string) : option Z :=
  let '(neg, body) :=
    match s with
    | String c r =>
        if decide (c = "-"%char) then (true, r)
        else if decide (c = "+"%char) then (false, r)
        else (false, s)
    | "" => (false, s)
    end in
  match body with
  | "" => None
  | _ =>
      n ← digits 0 body;
      let v := if neg then (- n)%Z else n in
      if bool_decide (- 2 ^ 63 ≤ v < 2 ^ 63)%Z then Some v else None
  end.

End GoStrconv.

Import GoStrconv.

(** ** Syntax trees of [go/ast] *)

Scheme All for list.
Scheme All for option.
Scheme All for prod.

Inductive Token :=
  | STRING | INT | FLOAT | IMAG | CHAR   (* literal kinds *)
  | AND | OtherOp                        (* unary operators *)
  | DEFINE | ASSIGN                      (* [:=] and [=] *)
  | VAR | CONST | TYPE | IMPORT.         (* declaration keywords *)

Global Instance Token_eq_dec : EqDecision Token.
Proof. solve_decision. Defined.

(** One type of nodes; a type switch of the source is a [match].  Node kinds
    on which no function of the generator dispatches (blocks, [if], [return]
    and expression statements, binary and index expressions, files, ...) are
    [OtherNode] with their children in the order [ast.Walk] visits them.  A
    comment group is the list of its comments' texts.  Children on which no
    closure of the generator acts and which have no children of their own
    (the names of selectors, declarations and fields, tags, comments) are
    fields of their parent, not nodes; type parameters are left out. *)
Inductive Node : Type :=
  | Ident (Name : string)
  | BasicLit (Kind : Token) (Value : string)
  | SelectorExpr (X : Node) (Sel : string)
  | CallExpr (Fun : Node) (Args : list Node)
  | FuncLit (Type_ Body : Node)
  | UnaryExpr (Op : Token) (X : Node)
  | CompositeLit (Type_ : option Node) (Elts : list Node)
  | StarExpr (X : Node)
  | ArrayType (Len : option Node) (Elt : Node)
  | MapType (Key Value : Node)
  | StructType (Fields : list Field)
  | AssignStmt (Lhs : list Node) (Tok : Token) (Rhs : list Node)
  | DeclStmt (Decl : Node)
  | GenDecl (Tok : Token) (Doc : option (list string)) (Specs : list Node)
  | ValueSpec (Names : list string) (Type_ : option Node) (Values : list Node)
  | TypeSpec (Name : string) (Type_ : Node)
  | FuncDecl (Doc : option (list string)) (Recv : list Field) (Name : string)
             (Type_ : Node) (Body : option Node)
  | OtherNode (Kids : list Node)
with Field : Type :=
  | mkField (Names : list string) (Type_ : Node) (Tag : option string)
            (Doc : option (list string)).

Scheme Node_mut := Induction for Node Sort Prop
with Field_mut := Induction for Field Sort Prop.

Definition fieldType (f : Field) : Node := let '(mkField _ t _ _) := f in t.

(** [ast.Inspect]: [f] is called on a node and tells whether its children
    are visited; the state the closure captures is threaded through. *)
Section Inspect.
Context {S : Type} (f : Node → S → bool * S).

Fixpoint Inspect (n : Node) (s : S) {struct n} : S :=
  let '(descend, s) := f n s in
  if negb descend then s else
  let nodes := fix nodes (l : list Node) (s : S) : S :=
    match l with [] => s | k :: l' => nodes l' (Inspect k s) end in
  let fields := fix fields (l : list Field) (s : S) : S :=
    match l with
    | [] => s
    | mkField _ t _ _ :: l' => fields l' (Inspect t s)
    end in
  let opt := λ (o : option Node) (s : S),
    match o with Some k => Inspect k s | None => s end in
  match n with
  | Ident _ | BasicLit _ _ => s
  | SelectorExpr X _ => Inspect X s
  | CallExpr Fun Args => nodes Args (Inspect Fun s)
  | FuncLit Ty Body => Inspect Body (Inspect Ty s)
  | UnaryExpr _ X => Inspect X s
  | CompositeLit Ty Elts => nodes Elts (opt Ty s)
  | StarExpr X => Inspect X s
  | ArrayType Len Elt => Inspect Elt (opt Len s)
  | MapType K V => Inspect V (Inspect K s)
  | StructType Fields => fields Fields s
  | AssignStmt Lhs _ Rhs => nodes Rhs (nodes Lhs s)
  | DeclStmt D => Inspect D s
  | GenDecl _ _ Specs => nodes Specs s
  | ValueSpec _ Ty Values => nodes Values (opt Ty s)
  | TypeSpec _ Ty => Inspect Ty s
  | FuncDecl _ Recv _ Ty Body => opt Body (Inspect Ty (fields Recv s))
  | OtherNode Kids => nodes Kids s
  end.
End Inspect.

(** ** Route graph builder ([extract_endpoints.go]) *)

Module RouteGraph.

(** [EndpointInfo]: one extracted HTTP endpoint. *)
Record EndpointInfo := mkEndpointInfo {
  Path : string;
  Method : string;
  Handler : string;
  MSName : string;
  Middleware : list string
}.

(** [parseContext]: the state of the walk over one file (its file set and
    its verbosity flag only serve diagnostics). *)
Record parseContext := mkParseContext {
  groupPaths : gmap string string;
  groupMiddleware : gmap string (list string);
  variables : gmap string string;
  msName : string
}.

Definition newContext (ms : string) : parseContext :=
  mkParseContext ∅ ∅ ∅ ms.

Definition isHTTPMethod (method : string) : bool :=
  bool_decide (method ∈ ["Get"; "Post"; "Put"; "Delete"; "Patch"; "Head"; "Options"]).

Definition extractStringLiteral (expr : Node) : string :=
  match expr with
  | BasicLit STRING value => default "" (Unquote value)
  | _ => ""
  end.

Definition extractHandlerName (expr : Node) : string :=
  match expr with
  | Ident name => name
  | CallExpr (Ident name) _ => name
  | CallExpr (SelectorExpr _ sel) _ => sel
  | SelectorExpr _ sel => sel
  | FuncLit _ _ => "<inline>"
  | _ => ""
  end.

Fixpoint extractExpressionAsString (expr : Node) : string :=
  match expr with
  | Ident name => name
  | SelectorExpr X sel => extractExpressionAsString X +:+ "." +:+ sel
  | CallExpr Fun _ =>
      match Fun with
      | SelectorExpr _ _ => extractExpressionAsString Fun +:+ "()"
      | Ident name => name +:+ "()"
      | _ => "?"
      end
  | _ => "?"
  end.

Definition extractArgument (expr : Node) : string :=
  match expr with
  | BasicLit _ value => value
  | Ident name => name
  | SelectorExpr _ _ => extractExpressionAsString expr
  | _ => "?"
  end.

Definition extractEnhancedMiddlewareName (ctx : parseContext) (expr : Node) : string :=
  match expr with
  | Ident name =>
      match variables ctx !! name with
      | Some varDef => varDef
      | None => name
      end
  | CallExpr (Ident name) args =>
      match args with
      | [] => name +:+ "()"
      | _ => name +:+ "(" +:+ Join (extractArgument <$> args) ", " +:+ ")"
      end
  | CallExpr (SelectorExpr _ _ as sel) args =>
      match args with
      | [] => extractExpressionAsString sel +:+ "()"
      | _ => extractExpressionAsString sel +:+ "(" +:+ Join (extractArgument <$> args) ", " +:+ ")"
      end
  | SelectorExpr _ _ => extractExpressionAsString expr
  | _ => ""
  end.

(** The names of the middleware arguments [args], those without a name
    left out: the body of the two loops
    [if mw := ctx.extractEnhancedMiddlewareName(arg); mw != "" { append }]. *)
Fixpoint middlewareNames (ctx : parseContext) (args : list Node) : list string :=
  match args with
  | [] => []
  | arg :: rest =>
      let mw := extractEnhancedMiddlewareName ctx arg in
      if decide (mw = "") then middlewareNames ctx rest
      else mw :: middlewareNames ctx rest
  end.

(** [normalizePath]: a group path and an endpoint path combined. *)
Definition normalizePath (groupPath endpointPath : string) : string :=
  if decide (groupPath = "" ∧ endpointPath = "") then "/"
  else if decide (groupPath = "") then endpointPath
  else if decide (endpointPath = "") then groupPath
  else
    let groupPath := TrimSuffix groupPath "/" in
    let endpointPath :=
      if negb (HasPrefix endpointPath "/") then "/" +:+ endpointPath
      else endpointPath in
    if decide (groupPath = "" ∨ groupPath = "/") then endpointPath
    else groupPath +:+ endpointPath.

(** The [.Group()] branch of [handleAssignment]: [varName] is bound to the
    group path and to the group middleware. *)
Definition trackGroup (ctx : parseContext) (varName : string) (X : Node)
    (args : list Node) : parseContext :=
  match args with
  | [] => ctx
  | pathArg :: mwArgs =>
      let groupPath := extractStringLiteral pathArg in
      if decide (groupPath = "") then ctx
      else
        let '(groupPath, parentMiddleware) :=
          match X with
          | Ident name =>
              match groupPaths ctx !! name with
              | Some parentPath =>
                  (parentPath +:+ groupPath,
                   default [] (groupMiddleware ctx !! name))
              | None => (groupPath, [])
              end
          | _ => (groupPath, [])
          end in
        let groupMW := parentMiddleware ++ middlewareNames ctx mwArgs in
        mkParseContext (<[varName := groupPath]> (groupPaths ctx))
                       (<[varName := groupMW]> (groupMiddleware ctx))
                       (variables ctx) (msName ctx)
  end.

Definition setVariable (ctx : parseContext) (varName def : string) : parseContext :=
  mkParseContext (groupPaths ctx) (groupMiddleware ctx)
                 (<[varName := def]> (variables ctx)) (msName ctx).

(** [handleAssignment] on the statement [Lhs := Rhs] (or [Lhs = Rhs]). *)
Definition handleAssignment (ctx : parseContext) (Lhs Rhs : list Node) : parseContext :=
  match Lhs, Rhs with
  | [Ident varName], [CallExpr Fun args] =>
      let ctx :=
        match Fun with
        | SelectorExpr X sel =>
            if decide (sel = "Group") then trackGroup ctx varName X args else ctx
        | _ => ctx
        end in
      match Fun with
      | SelectorExpr X sel =>
          setVariable ctx varName (extractExpressionAsString X +:+ "." +:+ sel)
      | _ => ctx
      end
  | [Ident varName], [SelectorExpr _ _ as sel] =>
      setVariable ctx varName (extractExpressionAsString sel)
  | _, _ => ctx
  end.

(** The loop [for i := len(call.Args) - 1; i >= 1; i--] that stops at the
    first argument with a handler name: the rightmost such argument among
    [args], whose first element has index [i]. *)
Fixpoint findHandler (i : nat) (args : list Node) : option (nat * string) :=
  match args with
  | [] => None
  | arg :: rest =>
      match findHandler (S i) rest with
      | Some found => Some found
      | None =>
          if decide (extractHandlerName arg = "") then None
          else Some (i, extractHandlerName arg)
      end
  end.

(** [parseHTTPMethodCall] on the call [Fun(Args...)]; [None] is [nil]. *)
Definition parseHTTPMethodCall (ctx : parseContext) (Fun : Node) (Args : list Node)
    : option EndpointInfo :=
  match Fun with
  | SelectorExpr X method =>
      if negb (isHTTPMethod method) then None
      else
        match Args with
        | [] | [_] => None
        | pathArg :: rest =>
            let path := extractStringLiteral pathArg in
            let path := if decide (path = "") then "/" else path in
            let '(groupPath, groupMW) :=
              match X with
              | Ident name =>
                  (default "" (groupPaths ctx !! name),
                   default [] (groupMiddleware ctx !! name))
              | _ => ("", [])
              end in
            let fullPath := normalizePath groupPath path in
            match findHandler 1 rest with
            | None => None
            | Some (handlerIndex, handler) =>
                let middleware :=
                  groupMW ++ middlewareNames ctx (take (handlerIndex - 1) rest) in
                Some (mkEndpointInfo fullPath method handler (msName ctx) middleware)
            end
        end
  | _ => None
  end.

(** The closure [parseControllerFile] hands to [ast.Inspect]. *)
Definition visit (n : Node) (st : parseContext * list EndpointInfo)
    : bool * (parseContext * list EndpointInfo) :=
  match n with
  | AssignStmt Lhs _ Rhs => (true, (handleAssignment st.1 Lhs Rhs, st.2))
  | CallExpr Fun Args =>
      match parseHTTPMethodCall st.1 Fun Args with
      | Some endpoint => (true, (st.1, st.2 ++ [endpoint]))
      | None => (true, st)
      end
  | _ => (true, st)
  end.

(** [parseControllerFile] on the parsed file [node]. *)
Definition parseControllerFile (node : Node) (ms : string) : list EndpointInfo :=
  (Inspect visit node (newContext ms, [])).2.

End RouteGraph.

Definition strLit (s : string) : Node := BasicLit STRING (quoted s).
Definition exprStmt (e : Node) : Node := OtherNode [e].
Definition groupCall (recv path : string) (mws : list Node) : Node :=
  CallExpr (SelectorExpr (Ident recv) "Group") (strLit path :: mws).
Definition define (x : string) (rhs : Node) : Node :=
  AssignStmt [Ident x] DEFINE [rhs].

(** ** JSON schemas and the type resolver ([schema.go]) *)

(** A value of an [Enum] list, which holds strings and integers. *)
Inductive EnumValue :=
  | EnumString (s : string)
  | EnumInt (n : Z).

(** [SchemaSpec].  [Properties] is the map from property names to schemas,
    kept as an association list with one entry per name; the fields
    [Minimum], [Maximum], [MinLength], [MaxLength] and [Pattern], which the
    generator never writes, are left out. *)
Inductive SchemaSpec : Type := mkSchemaSpec {
  Type_ : string;
  Format : string;
  Description : string;
  Ref : string;
  Properties : list (string * SchemaSpec);
  Required : list string;
  Items : option SchemaSpec;
  Enum : list EnumValue;
  AdditionalProperties : option SchemaSpec
}.

(** [SchemaSpec{}] *)
Definition emptySchema : SchemaSpec :=
  mkSchemaSpec "" "" "" "" [] [] None [] None.

Definition typed (ty : string) : SchemaSpec :=
  mkSchemaSpec ty "" "" "" [] [] None [] None.
Definition formatted (ty fmt : string) : SchemaSpec :=
  mkSchemaSpec ty fmt "" "" [] [] None [] None.
(** [SchemaSpec{Ref: "#/components/schemas/" + name}] *)
Definition refTo (name : string) : SchemaSpec :=
  mkSchemaSpec "" "" "" ("#/components/schemas/" +:+ name) [] [] None [] None.
Definition arrayOf (item : SchemaSpec) : SchemaSpec :=
  mkSchemaSpec "array" "" "" "" [] [] (Some item) [] None.
Definition mapOf (value : SchemaSpec) : SchemaSpec :=
  mkSchemaSpec "object" "" "" "" [] [] None [] (Some value).
(** [SchemaSpec{Type: "object", Properties: {name: s}}] *)
Definition objectWith (name : string) (s : SchemaSpec) : SchemaSpec :=
  mkSchemaSpec "object" "" "" "" [(name, s)] [] None [] None.

Definition withDescription (s : SchemaSpec) (d : string) : SchemaSpec :=
  mkSchemaSpec (Type_ s) (Format s) d (Ref s) (Properties s) (Required s)
               (Items s) (Enum s) (AdditionalProperties s).
Definition withEnum (s : SchemaSpec) (e : list EnumValue) : SchemaSpec :=
  mkSchemaSpec (Type_ s) (Format s) (Description s) (Ref s) (Properties s)
               (Required s) (Items s) e (AdditionalProperties s).

(** [m[k] = v] on a map kept as an association list *)
Fixpoint assocSet {A} (k : string) (v : A) (m : list (string * A)) : list (string * A) :=
  match m with
  | [] => [(k, v)]
  | (k', v') :: m' =>
      if decide (k' = k) then (k, v) :: m' else (k', v') :: assocSet k v m'
  end.

(** [cleanTypeName], shared by the resolver and the analyzer (whose copies
    are the same text); the recursion is on a proper substring, so
    [String.length typeName] unfoldings suffice. *)
Fixpoint cleanTypeNameFrom (fuel : nat) (typeName : string) : string :=
  let plain :=
    let parts := Split typeName "." in
    if decide (1 < length parts) then last_or parts "" else typeName in
  if Contains typeName "[" then
    match Index typeName "[", LastIndex typeName "]" with
    | Some start, Some end_ =>
        if decide (start < end_) then
          match fuel with
          | 0 => plain
          | S fuel' =>
              let innerType := slice (start + 1) end_ typeName in
              let innerType := TrimPrefix innerType "[]" in
              cleanTypeNameFrom fuel' innerType
          end
        else plain
    | _, _ => plain
    end
  else plain.

Definition cleanTypeName (typeName : string) : string :=
  cleanTypeNameFrom (String.length typeName) typeName.

(** [extractComments] *)
Fixpoint extractComments (commentGroup : list string) : list string :=
  match commentGroup with
  | [] => []
  | comment :: rest =>
      let text := TrimSpace (TrimPrefix comment "//") in
      let text := TrimSpace (TrimPrefix text "/*") in
      let text := TrimSpace (TrimSuffix text "*/") in
      if decide (text = "") then extractComments rest
      else text :: extractComments rest
  end.

(** ** [reflect.StructTag.Get] *)

Module GoReflect.

Fixpoint nameLen (tag : string) : nat :=
  match tag with
  | "" => 0
  | String c tag' =>
      let n := nat_of_ascii c in
      if bool_decide (32 < n ∧ c ≠ ":"%char ∧ c ≠ dquote ∧ n ≠ 127)
      then S (nameLen tag') else 0
  end.

(** The index of the closing quote of the quoted string that [tag] starts
    with, scanning from index [i] on [rest = tag[i:]]. *)
Fixpoint closingQuote (rest : string) (i : nat) : option nat :=
  match rest with
  | "" => None
  | String c rest' =>
      if decide (c = dquote) then Some i
      else if decide (c = bslash) then
        match rest' with
        | "" => None
        | String _ rest'' => closingQuote rest'' (i + 2)
        end
      else closingQuote rest' (i + 1)
  end.

Fixpoint lookupFrom (fuel : nat) (tag key : string) : option string :=
  match fuel with
  | 0 => None
  | S fuel' =>
      let tag := trimLeft (λ c, bool_decide (c = " "%char)) tag in
      if decide (tag = "") then None
      else
        let i := nameLen tag in
        if decide (i = 0 ∨ String.length tag ≤ i + 1
                   ∨ byteAt tag i ≠ Some ":"%char ∨ byteAt tag (i + 1) ≠ Some dquote)
        then None
        else
          let name := upto i tag in
          let tag := from (i + 1) tag in
          match closingQuote (from 1 tag) 1 with
          | None => None
          | Some j =>
              let qvalue := upto (j + 1) tag in
              let tag := from (j + 1) tag in
              if decide (key = name) then Unquote qvalue
              else lookupFrom fuel' tag key
          end
  end.

(** [tag.Get(key)]: the value of [key] in a conventional struct tag, [""]
    when there is none. *)
Definition Get (tag key : string) : string :=
  default "" (lookupFrom (String.length tag) tag key).

End GoReflect.

Module Resolver.

(** A Go file below the models directory: the directories between the models
    directory and the file (joined by [/], empty for a file at the top), its
    name, and its syntax tree when [parser.ParseFile] succeeds. *)
Record GoFile := mkGoFile {
  fileDir : string;
  fileName : string;
  fileAst : option Node
}.

(** [TypeResolver]: the schema table and the marks of the type names whose
    resolution has started.  ([projectRoot] and [modelsDir] locate the
    models directory, whose files are the parameter [fs] below.) *)
Record TypeResolver := mkTypeResolver {
  schemas : gmap string SchemaSpec;
  processed : gmap string bool
}.

Definition NewTypeResolver : TypeResolver := mkTypeResolver ∅ ∅.

(** [r.processed[typeName]] *)
Definition isProcessed (r : TypeResolver) (typeName : string) : bool :=
  default false (processed r !! typeName).

Definition markProcessed (r : TypeResolver) (typeName : string) : TypeResolver :=
  mkTypeResolver (schemas r) (<[typeName := true]> (processed r)).

Definition storeSchema (r : TypeResolver) (name : string) (s : SchemaSpec) : TypeResolver :=
  mkTypeResolver (<[name := s]> (schemas r)) (processed r).

Definition GetSchemas (r : TypeResolver) : gmap string SchemaSpec := schemas r.

Definition resolveBuiltInType (typeName : string) : SchemaSpec :=
  if bool_decide (typeName = "string") then typed "string"
  else if bool_decide (typeName ∈ ["int"; "int8"; "int16"; "int32"; "int64"])
  then formatted "integer" "int64"
  else if bool_decide (typeName ∈ ["uint"; "uint8"; "uint16"; "uint32"; "uint64"])
  then formatted "integer" "uint64"
  else if bool_decide (typeName = "float32") then formatted "number" "float"
  else if bool_decide (typeName = "float64") then formatted "number" "double"
  else if bool_decide (typeName = "bool") then typed "boolean"
  else if bool_decide (typeName = "object") then typed "object"
  else if bool_decide (typeName ∈ ["time.Time"; "Time"]) then formatted "string" "date-time"
  else if bool_decide (typeName ∈ ["uid.UID"; "UID"]) then formatted "string" "uuid"
  else emptySchema.

Definition mapUnderlyingTypeToOpenAPI (goType : string) : string :=
  if bool_decide (goType = "string") then "string"
  else if bool_decide (goType ∈ ["int"; "int8"; "int16"; "int32"; "int64"]) then "integer"
  else if bool_decide (goType ∈ ["uint"; "uint8"; "uint16"; "uint32"; "uint64"]) then "integer"
  else if bool_decide (goType ∈ ["float32"; "float64"]) then "number"
  else if bool_decide (goType = "bool") then "boolean"
  else "string".

Definition mapPackageNameToDir (pkgName : string) : string :=
  let parts := Split pkgName "_" in
  if decide (1 < length parts ∧ last_or parts "" = "models")
  then Join (take (length parts - 1) parts) "_"
  else pkgName.

(** [findGoFiles] on the directory [targetDir] below the models directory
    ([""] is the models directory itself): the files at any depth below it
    that are Go files and no test files, in the order of the walk. *)
Definition isBelow (targetDir : string) (f : GoFile) : bool :=
  bool_decide (targetDir = "" ∨ fileDir f = targetDir)
  || HasPrefix (fileDir f) (targetDir +:+ "/").

Fixpoint findGoFiles (fs : list GoFile) (targetDir : string) : list GoFile :=
  match fs with
  | [] => []
  | f :: fs' =>
      if isBelow targetDir f && HasSuffix (fileName f) ".go"
         && negb (HasSuffix (fileName f) "_test.go")
      then f :: findGoFiles fs' targetDir
      else findGoFiles fs' targetDir
  end.

(** The first type specification named [typeName] among [specs]. *)
Fixpoint findTypeSpec (typeName : string) (specs : list Node) : option Node :=
  match specs with
  | [] => None
  | TypeSpec name ty :: specs' =>
      if decide (name = typeName) then Some ty else findTypeSpec typeName specs'
  | _ :: specs' => findTypeSpec typeName specs'
  end.

(** The closure of [parseFileForType] that looks for the declaration: the
    state is [targetTypeSpec]'s type with [typeDoc]. *)
Definition findDecl (typeName : string) (n : Node)
    (target : option (Node * option (list string)))
    : bool * option (Node * option (list string)) :=
  match n with
  | GenDecl _ doc specs =>
      match findTypeSpec typeName specs with
      | Some ty => (false, Some (ty, doc))
      | None => (true, target)
      end
  | _ => (true, target)
  end.

(** The values of one constant specification of [tryExtractEnumValues]. *)
Fixpoint enumValuesOf (values : list Node) : list EnumValue :=
  match values with
  | [] => []
  | BasicLit STRING v :: rest =>
      match Unquote v with
      | Some unquoted => EnumString unquoted :: enumValuesOf rest
      | None => enumValuesOf rest
      end
  | BasicLit INT v :: rest =>
      match Atoi v with
      | Some intVal => EnumInt intVal :: enumValuesOf rest
      | None => enumValuesOf rest
      end
  | _ :: rest => enumValuesOf rest
  end.

Fixpoint enumValuesOfSpecs (typeName : string) (specs : list Node) : list EnumValue :=
  match specs with
  | [] => []
  | ValueSpec _ (Some (Ident name)) values :: rest =>
      if decide (name = typeName)
      then enumValuesOf values ++ enumValuesOfSpecs typeName rest
      else enumValuesOfSpecs typeName rest
  | _ :: rest => enumValuesOfSpecs typeName rest
  end.

Definition collectEnum (typeName : string) (n : Node) (enumValues : list EnumValue)
    : bool * list EnumValue :=
  match n with
  | GenDecl CONST _ specs => (true, enumValues ++ enumValuesOfSpecs typeName specs)
  | _ => (true, enumValues)
  end.

(** [tryExtractEnumValues]; the second result is [len(enumValues) > 0]. *)
Definition tryExtractEnumValues (fileNode : Node) (typeName : string)
    : list EnumValue * bool :=
  let enumValues := Inspect (collectEnum typeName) fileNode [] in
  (enumValues, bool_decide (0 < length enumValues)).

(** The two enum branches of [parseFileForType]. *)
Definition enumSchema (fileNode : Node) (typeName ty : string) : SchemaSpec :=
  let schema := withDescription (typed ty) ("Enum type: " +:+ typeName) in
  let '(values, ok) := tryExtractEnumValues fileNode typeName in
  if ok && bool_decide (0 < length values) then withEnum schema values else schema.

(** What [parseFileForType] returns: [(schema, true, nil)],
    [(SchemaSpec{}, false, nil)] or [(SchemaSpec{}, false, err)]. *)
Inductive ParseResult :=
  | Found (schema : SchemaSpec)
  | NotFound
  | Failed.

Section WithResolve.

(** The files of the models directory, and [ResolveType] as the functions
    below call it back. *)
Context (fs : list GoFile).
Context (resolve : string → TypeResolver → option (SchemaSpec * TypeResolver)).

(** The resolver is threaded through; [None] is reserved for a callback that
    does not return. *)
Fixpoint parseFieldType (fieldType : Node) (r : TypeResolver)
    : option (SchemaSpec * TypeResolver) :=
  match fieldType with
  | Ident name =>
      let builtInSchema := resolveBuiltInType name in
      if decide (Type_ builtInSchema ≠ "") then Some (builtInSchema, r)
      else resolve name r
  | SelectorExpr (Ident pkg) sel =>
      let typeName := pkg +:+ "." +:+ sel in
      let builtInSchema := resolveBuiltInType typeName in
      if decide (Type_ builtInSchema ≠ "") then Some (builtInSchema, r)
      else resolve typeName r
  | ArrayType _ elt =>
      '(itemSchema, r) ← parseFieldType elt r;
      Some (arrayOf itemSchema, r)
  | MapType _ value =>
      '(valueSchema, r) ← parseFieldType value r;
      Some (mapOf valueSchema, r)
  | StarExpr X => parseFieldType X r
  | _ => Some (typed "object", r)
  end.

(** [parseField] *)
Definition parseField (field : Field) (schema : SchemaSpec) (r : TypeResolver)
    : option (SchemaSpec * TypeResolver) :=
  let '(mkField _ ty tagLit doc) := field in
  let '(jsonName, omitempty, required) :=
    match tagLit with
    | None => ("", false, false)
    | Some tagValue =>
        let tag := Trim tagValue "`" in
        let jsonTag := GoReflect.Get tag "json" in
        let '(jsonName, omitempty) :=
          if decide (jsonTag = "") then ("", false)
          else
            let parts := Split jsonTag "," in
            (default "" (head parts), bool_decide ("omitempty" ∈ tail parts)) in
        (jsonName, omitempty, Contains (GoReflect.Get tag "validate") "required")
    end in
  if decide (jsonName = "" ∨ jsonName = "-") then Some (schema, r)
  else
    '(fieldSchema, r) ← parseFieldType ty r;
    let fieldSchema :=
      match doc with
      | None => fieldSchema
      | Some comments =>
          match extractComments comments with
          | [] => fieldSchema
          | texts => withDescription fieldSchema (Join texts " ")
          end
      end in
    Some (mkSchemaSpec (Type_ schema) (Format schema) (Description schema)
            (Ref schema) (assocSet jsonName fieldSchema (Properties schema))
            (if negb omitempty || required
             then Required schema ++ [jsonName] else Required schema)
            (Items schema) (Enum schema) (AdditionalProperties schema), r).

Fixpoint parseFields (fields : list Field) (schema : SchemaSpec) (r : TypeResolver)
    : option (SchemaSpec * TypeResolver) :=
  match fields with
  | [] => Some (schema, r)
  | field :: rest =>
      '(schema, r) ← parseField field schema r;
      parseFields rest schema r
  end.

(** [parseStruct] *)
Definition parseStruct (fields : list Field) (doc : option (list string))
    (r : TypeResolver) : option (SchemaSpec * TypeResolver) :=
  let schema := typed "object" in
  let schema :=
    match doc with
    | None => schema
    | Some comments =>
        match extractComments comments with
        | [] => schema
        | texts => withDescription schema (Join texts " ")
        end
    end in
  parseFields fields schema r.

(** [parseFileForType] *)
Definition parseFileForType (file : GoFile) (typeName : string) (r : TypeResolver)
    : option (ParseResult * TypeResolver) :=
  match fileAst file with
  | None => Some (Failed, r)
  | Some node =>
      match Inspect (findDecl typeName) node None with
      | None => Some (NotFound, r)
      | Some (StructType fields, typeDoc) =>
          '(schema, r) ← parseStruct fields typeDoc r;
          Some (Found schema, r)
      | Some (Ident underlyingType, _) =>
          if HasSuffix typeName "Enum"
          then Some (Found (enumSchema node typeName
                              (mapUnderlyingTypeToOpenAPI underlyingType)), r)
          else Some (Found (resolveBuiltInType underlyingType), r)
      | Some (SelectorExpr (Ident pkg) sel, _) =>
          let underlyingType := pkg +:+ "." +:+ sel in
          if HasSuffix typeName "Enum"
          then Some (Found (enumSchema node typeName "string"), r)
          else Some (Found (resolveBuiltInType underlyingType), r)
      | Some _ => Some (Failed, r)
      end
  end.

(** The loop of [findAndParseType] over the files; the inner [None] is the
    error [type ... not found]. *)
Fixpoint parseFiles (files : list GoFile) (structName : string) (r : TypeResolver)
    : option (option SchemaSpec * TypeResolver) :=
  match files with
  | [] => Some (None, r)
  | filePath :: rest =>
      '(res, r) ← parseFileForType filePath structName r;
      match res with
      | Found schema => Some (Some schema, r)
      | NotFound | Failed => parseFiles rest structName r
      end
  end.

(** [findAndParseType] *)
Definition findAndParseType (typeName : string) (r : TypeResolver)
    : option (option SchemaSpec * TypeResolver) :=
  let '(pkgName, structName) :=
    if Contains typeName "." then
      let parts := Split typeName "." in
      (default "" (parts !! 0), default "" (parts !! 1))
    else ("", typeName) in
  let targetDir :=
    if decide (pkgName ≠ "") then mapPackageNameToDir pkgName else "" in
  parseFiles (findGoFiles fs targetDir) structName r.

End WithResolve.

(** [ResolveType].  The error it returns is always [nil]; [fuel] bounds the
    depth of the calls of [ResolveType] from within itself, and [None]
    means that this depth was not enough. *)
Fixpoint ResolveType (fs : list GoFile) (fuel : nat) (typeName : string)
    (r : TypeResolver) : option (SchemaSpec * TypeResolver) :=
  match fuel with
  | 0 => None
  | S fuel' =>
      let schema := resolveBuiltInType typeName in
      if decide (Type_ schema ≠ "") then Some (schema, r)
      else
        let cleanName := cleanTypeName typeName in
        if isProcessed r typeName then Some (refTo cleanName, r)
        else
          let r := markProcessed r typeName in
          '(found, r) ← findAndParseType fs (ResolveType fs fuel') typeName r;
          match found with
          | None => Some (typed "object", r)
          | Some schema => Some (refTo cleanName, storeSchema r cleanName schema)
          end
  end.

End Resolver.

(** ** Business-layer registry ([business_layer.go]), as far as the
    enhancer queries it *)

Module BusinessLayer.

(** [BusinessLayerInfo]: [Methods] maps a method name to its
    [ReturnTypes]. *)
Record BusinessLayerInfo := mkBusinessLayerInfo {
  PackagePath : string;
  TypeName : string;
  Methods : gmap string (list string)
}.

(** [BusinessLayerRegistry]: [layers], by ["package.TypeName"]. *)
Definition BusinessLayerRegistry := gmap string BusinessLayerInfo.

Fixpoint firstNonError (returnTypes : list string) : string :=
  match returnTypes with
  | [] => ""
  | rt :: rest =>
      if bool_decide (rt ≠ "error") && negb (HasSuffix rt ".error") then rt
      else firstNonError rest
  end.

(** [GetMethodReturnType].  When the key is absent the source takes the
    first layer of that type name that ranging over the map yields, an order
    Go leaves open; here it is the order of [map_to_list]. *)
Definition GetMethodReturnType (r : BusinessLayerRegistry)
    (packageName typeName methodName : string) : string :=
  let info :=
    match r !! (packageName +:+ "." +:+ typeName) with
    | Some info => Some info
    | None =>
        head (List.filter (λ v, bool_decide (TypeName v = typeName))
                          ((map_to_list r).*2))
    end in
  match info with
  | None => ""
  | Some info =>
      match Methods info !! methodName with
      | None => ""
      | Some returnTypes => firstNonError returnTypes
      end
  end.

Definition LookupMethodByFieldType (r : BusinessLayerRegistry)
    (fieldType methodName : string) : string :=
  let fieldType := TrimPrefix fieldType "*" in
  match Split fieldType "." with
  | [packageName; typeName] => GetMethodReturnType r packageName typeName methodName
  | _ => ""
  end.

End BusinessLayer.

(** ** Endpoint enhancer (the analyzer) *)

Module Analyzer.

Record ParameterSpec := mkParameterSpec {
  paramName : string;
  paramIn : string;
  paramRequired : bool;
  paramDescription : string;
  paramSchema : SchemaSpec
}.

Record RequestBodySpec := mkRequestBodySpec {
  bodyDescription : string;
  bodyRequired : bool;
  bodyContentType : string;
  bodySchema : SchemaSpec
}.

Record ResponseSpec := mkResponseSpec {
  respDescription : string;
  respContentType : string;
  respSchema : SchemaSpec
}.

Record SecurityRequirement := mkSecurityRequirement {
  secName : string;
  secScopes : list string
}.

(** [EndpointSpec] ([ControllerFile], which is never written, is left
    out). *)
Record EndpointSpec := mkEndpointSpec {
  Path : string;
  Method : string;
  Handler : string;
  MSName : string;
  Middleware : list string;
  Summary : string;
  Description : string;
  Tags : list string;
  Parameters : list ParameterSpec;
  RequestBody : option RequestBodySpec;
  Responses : gmap string ResponseSpec;
  Security : list SecurityRequirement;
  HandlerFunction : option Node
}.

Definition withParameters (spec : EndpointSpec) (ps : list ParameterSpec) : EndpointSpec :=
  mkEndpointSpec (Path spec) (Method spec) (Handler spec) (MSName spec)
    (Middleware spec) (Summary spec) (Description spec) (Tags spec) ps
    (RequestBody spec) (Responses spec) (Security spec) (HandlerFunction spec).
Definition withRequestBody (spec : EndpointSpec) (b : option RequestBodySpec) : EndpointSpec :=
  mkEndpointSpec (Path spec) (Method spec) (Handler spec) (MSName spec)
    (Middleware spec) (Summary spec) (Description spec) (Tags spec)
    (Parameters spec) b (Responses spec) (Security spec) (HandlerFunction spec).
Definition withResponses (spec : EndpointSpec) (rs : gmap string ResponseSpec) : EndpointSpec :=
  mkEndpointSpec (Path spec) (Method spec) (Handler spec) (MSName spec)
    (Middleware spec) (Summary spec) (Description spec) (Tags spec)
    (Parameters spec) (RequestBody spec) rs (Security spec) (HandlerFunction spec).
Definition withDoc (spec : EndpointSpec) (summary description : string)
    (fn : option Node) : EndpointSpec :=
  mkEndpointSpec (Path spec) (Method spec) (Handler spec) (MSName spec)
    (Middleware spec) summary description (Tags spec)
    (Parameters spec) (RequestBody spec) (Responses spec) (Security spec) fn.

(** [analyzerContext], without what only serves diagnostics or parsing. *)
Record analyzerContext := mkAnalyzerContext {
  msName : string;
  functions : gmap string Node;
  imports : gmap string string;
  businessLayerRegistry : option BusinessLayer.BusinessLayerRegistry;
  controllerFields : gmap string string
}.

Definition knownPermissionConstants : gmap string string :=
  {[ "session_manager_models.SuperadminRoleFeature" := "superadmin" ]}.

(** *** Security requirements *)

Definition isQuote (c : option ascii) (q : ascii) : bool := bool_decide (c = Some q).

(** [cleanPermissionArg] *)
Definition cleanPermissionArg (arg : string) : string :=
  let arg := TrimSpace arg in
  let n := String.length arg in
  let arg :=
    if bool_decide (2 ≤ n)
       && ((isQuote (byteAt arg 0) dquote && isQuote (byteAt arg (n - 1)) dquote)
           || (isQuote (byteAt arg 0) "'"%char && isQuote (byteAt arg (n - 1)) "'"%char))
    then slice 1 (n - 1) arg
    else arg in
  match knownPermissionConstants !! arg with
  | Some resolved => resolved
  | None => arg
  end.

(** The loop of [extractPermissionsFromMiddleware] that looks for the
    closing parenthesis: [rest] is [mw[i:]], and the result is [end]. *)
Fixpoint closingParen (rest : string) (i parenDepth end_ : nat) : nat :=
  match rest with
  | "" => end_
  | String c rest' =>
      if decide (parenDepth = 0) then end_
      else if decide (c = "("%char) then closingParen rest' (S i) (S parenDepth) end_
      else if decide (c = ")"%char) then
        closingParen rest' (S i) (parenDepth - 1)
                     (if decide (parenDepth - 1 = 0) then i else end_)
      else closingParen rest' (S i) parenDepth end_
  end.

Fixpoint cleanedParts (parts : list string) : list string :=
  match parts with
  | [] => []
  | part :: rest =>
      let cleaned := cleanPermissionArg part in
      if decide (cleaned = "") then cleanedParts rest else cleaned :: cleanedParts rest
  end.

(** The permissions one pattern [(prefix, multiValue)] contributes. *)
Definition permissionsOfPattern (mw : string) (pattern : string * bool) : list string :=
  let '(prefix, multiValue) := pattern in
  match Index mw prefix with
  | None => []
  | Some idx =>
      let start := idx + String.length prefix in
      let end_ := closingParen (from start mw) start 1 start in
      if decide (start < end_) then
        let args := slice start end_ mw in
        if multiValue then cleanedParts (Split args ",")
        else cleanedParts [args]
      else []
  end.

Definition permissionPatterns : list (string * bool) :=
  [ ("hasPermission(", false); ("AllFeaturesOf(", true); ("AnyFeaturesOf(", true);
    ("RequirePermissions(", true); ("RequireAnyPermission(", true) ].

(** [extractPermissionsFromMiddleware] *)
Definition extractPermissionsFromMiddleware (mw : string) : list string :=
  concat (permissionsOfPattern mw <$> permissionPatterns).

(** The loop of [extractSecurity] over the chain; [None] is the early
    [return security] at a [NotAuthenticated] entry, otherwise the final
    [scopes] and [hasAuth]. *)
Fixpoint scanMiddleware (middleware : list string) (scopes : list string)
    (hasAuth : bool) : option (list string * bool) :=
  match middleware with
  | [] => Some (scopes, hasAuth)
  | mw :: rest =>
      if Contains mw "NotAuthenticated" then None
      else
        let hasAuth :=
          if Contains mw "Authenticated" || Contains mw "IsAuthenticated"
          then true else hasAuth in
        scanMiddleware rest (scopes ++ extractPermissionsFromMiddleware mw) hasAuth
  end.

(** [extractSecurity] *)
Definition extractSecurity (middleware : list string) : list SecurityRequirement :=
  match scanMiddleware middleware [] false with
  | None => []
  | Some (scopes, hasAuth) =>
      if hasAuth then
        if decide (0 < length scopes)
        then [mkSecurityRequirement "permissions" scopes]
        else [mkSecurityRequirement "bearerAuth" []]
      else []
  end.

(** *** Tags *)

(** The loop of [formatTagName] that splits at hyphens and underscores. *)
Fixpoint tagParts (segment current : string) : list string :=
  match segment with
  | "" => if decide (current = "") then [] else [current]
  | String c rest =>
      if decide (c = "-"%char ∨ c = "_"%char) then
        if decide (current = "") then tagParts rest ""
        else current :: tagParts rest ""
      else tagParts rest (current +:+ String c "")
  end.

Definition capitalize (part : string) : string :=
  match part with
  | "" => part
  | String first rest => String (upperByte first) (ToLower rest)
  end.

Definition formatTagName (segment : string) : string :=
  Join (capitalize <$> tagParts segment "") " ".

Definition extractPathPrefix (path : string) : string :=
  let trimmedPath := TrimPrefix path "/" in
  if decide (trimmedPath = "") then ""
  else
    let firstSegment :=
      match Index trimmedPath "/" with
      | None => trimmedPath
      | Some firstSlash => upto firstSlash trimmedPath
      end in
    if HasPrefix firstSegment ":" then ""
    else if decide (String.length firstSegment = 0) then ""
    else formatTagName firstSegment.

Definition assignTags (ac : analyzerContext) (path : string) : list string :=
  let tag := extractPathPrefix path in
  if decide (tag = "") then [msName ac] else [tag].

(** *** Types of expressions *)

Definition extractTypeName (typeExpr : Node) : string :=
  match typeExpr with
  | Ident name => name
  | SelectorExpr (Ident pkg) sel => pkg +:+ "." +:+ sel
  | SelectorExpr _ sel => sel
  | _ => ""
  end.

Definition typeOfLit (ty : option Node) : string :=
  match ty with
  | Some t => extractTypeName t
  | None => ""
  end.

Definition inferTypeFromExpr (expr : Node) : string :=
  match expr with
  | CompositeLit ty _ => typeOfLit ty
  | CallExpr (Ident name) _ => name
  | CallExpr (SelectorExpr _ sel) _ => sel
  | Ident name => name
  | _ => "object"
  end.

Definition extractReceiverType (funcDecl : Node) : string :=
  match funcDecl with
  | FuncDecl _ (mkField _ (StarExpr (Ident name)) _ _ :: _) _ _ _ => name
  | FuncDecl _ (mkField _ (Ident name) _ _ :: _) _ _ _ => name
  | _ => ""
  end.

Definition getControllerFieldType (ac : analyzerContext)
    (controllerType fieldName : string) : option string :=
  controllerFields ac !! (controllerType +:+ "." +:+ fieldName).

(** The registry lookup for a call [receiver.field.method(...)], shared by
    [inferTypeFromExprWithVars] and [inferResponseTypeFromCall]; [""] when
    the registry does not answer. *)
Definition businessLayerReturnType (ac : analyzerContext)
    (X : Node) (methodName receiverType : string) : string :=
  match X with
  | SelectorExpr _ fieldName =>
      match getControllerFieldType ac receiverType fieldName,
            businessLayerRegistry ac with
      | Some fieldType, Some registry =>
          BusinessLayer.LookupMethodByFieldType registry fieldType methodName
      | _, _ => ""
      end
  | _ => ""
  end.

Fixpoint inferTypeFromExprWithVars (ac : analyzerContext) (expr : Node)
    (varTypes : gmap string string) (receiverType : string) : string :=
  match expr with
  | CompositeLit ty _ => typeOfLit ty
  | CallExpr (SelectorExpr X methodName) _ =>
      let returnType := businessLayerReturnType ac X methodName receiverType in
      if decide (returnType ≠ "") then returnType else methodName
  | CallExpr (Ident name) _ => name
  | Ident name => default name (varTypes !! name)
  | UnaryExpr AND X => inferTypeFromExprWithVars ac X varTypes receiverType
  | _ => "object"
  end.

(** [tryFindResponseType] *)
Fixpoint tryFindResponseType (baseName : string) (suffixes : list string) : string :=
  match suffixes with
  | [] => baseName
  | suffix :: rest =>
      if decide (baseName +:+ suffix ≠ "") then baseName +:+ suffix
      else tryFindResponseType baseName rest
  end.

Definition inferResponseTypeFromCall (ac : analyzerContext) (Fun : Node)
    (receiverType : string) : string :=
  match Fun with
  | SelectorExpr X methodName =>
      let returnType := businessLayerReturnType ac X methodName receiverType in
      if decide (returnType ≠ "") then returnType
      else if HasPrefix methodName "Create" then
        tryFindResponseType (TrimPrefix methodName "Create") ["Response"; "View"; ""]
      else if HasPrefix methodName "Update" then
        tryFindResponseType (TrimPrefix methodName "Update") ["Response"; "View"; ""]
      else if HasPrefix methodName "Get" then
        tryFindResponseType (TrimPrefix methodName "Get") ["Response"; "View"; ""]
      else if HasPrefix methodName "List" then
        tryFindResponseType (TrimPrefix methodName "List") ["ListResponse"; "List"; "Response"]
      else tryFindResponseType methodName ["Response"; ""]
  | _ => ""
  end.

Definition extractTypeFromUnaryExpr (expr : Node) (varTypes : gmap string string) : string :=
  match expr with
  | UnaryExpr AND (CompositeLit ty _) => typeOfLit ty
  | UnaryExpr AND (Ident name) => default name (varTypes !! name)
  | _ => ""
  end.

Definition isIntegerLiteral (expr : Node) : bool :=
  match expr with
  | BasicLit INT _ => true
  | _ => false
  end.

Definition extractIntegerLiteral (expr : Node) : string :=
  match expr with
  | BasicLit INT value => value
  | _ => ""
  end.

Definition inferParamSchema (methodName : string) : SchemaSpec :=
  if decide (methodName = "ParamsUID") then formatted "string" "uuid"
  else if decide (methodName = "ParamsUint64") then formatted "integer" "uint64"
  else if decide (methodName = "ParamsInt") then formatted "integer" "int64"
  else typed "string".

Definition pathParameter (paramName : string) (schema : SchemaSpec) : ParameterSpec :=
  mkParameterSpec paramName "path" true ("Path parameter: " +:+ paramName) schema.

Definition errorSchema : SchemaSpec := objectWith "error" (typed "string").

(** *** The handler body *)

(** The [Response] case of [analyzeCallExpr]: the status code and the
    response recorded under it. *)
Definition analyzeResponse (ac : analyzerContext) (args : list Node)
    (varTypes : gmap string string) (receiverType : string) : string * ResponseSpec :=
  match args with
  | [] | [_] => ("204", mkResponseSpec "No content" "" emptySchema)
  | _ :: second :: more =>
      let '(statusCode, dataArg) :=
        if bool_decide (3 ≤ length args) && isIntegerLiteral second
        then (extractIntegerLiteral second, args !! 2)
        else if bool_decide (length args = 2) && isIntegerLiteral second
        then (extractIntegerLiteral second, None)
        else ("200", Some second) in
      match dataArg with
      | None =>
          (statusCode,
           mkResponseSpec "Successful response" "application/json"
             (withDescription (typed "string") ("Returns " +:+ quoted "Ok")))
      | Some (Ident "err") =>
          (statusCode, mkResponseSpec "Error response" "application/json" errorSchema)
      | Some dataArg =>
          let respType := inferTypeFromExprWithVars ac dataArg varTypes receiverType in
          let cleanedTypeName := cleanTypeName respType in
          if decide (cleanedTypeName ≠ "" ∧ cleanedTypeName ≠ "object")
          then (statusCode,
                mkResponseSpec "Successful response" "application/json"
                               (refTo cleanedTypeName))
          else (statusCode,
                mkResponseSpec "Successful response" "application/json"
                               (typed "object"))
      end
  end.

(** [analyzeCallExpr] on the call [Fun(args...)] *)
Definition analyzeCallExpr (ac : analyzerContext) (Fun : Node) (args : list Node)
    (spec : EndpointSpec) (varTypes : gmap string string) (receiverType : string)
    : EndpointSpec :=
  match Fun with
  | SelectorExpr _ methodName =>
      if bool_decide (methodName ∈ ["Params"; "ParamsUID"; "ParamsUint64"; "ParamsInt"]) then
        let argIndex := if decide (methodName ≠ "Params") then 1 else 0 in
        match args !! argIndex with
        | Some arg =>
            let paramName := RouteGraph.extractStringLiteral arg in
            if decide (paramName ≠ "")
            then withParameters spec
                   (Parameters spec ++ [pathParameter paramName (inferParamSchema methodName)])
            else spec
        | None => spec
        end
      else if decide (methodName = "DeserializeFromFn") then
        match args !! 1 with
        | Some arg =>
            let reqType := extractTypeFromUnaryExpr arg varTypes in
            if decide (reqType ≠ "")
            then withRequestBody spec
                   (Some (mkRequestBodySpec "Request body" true "application/json"
                            (refTo (cleanTypeName reqType))))
            else spec
        | None => spec
        end
      else if decide (methodName = "Response") then
        let '(statusCode, response) := analyzeResponse ac args varTypes receiverType in
        withResponses spec (<[statusCode := response]> (Responses spec))
      else if decide (methodName = "ParseQueryParameters") then
        withParameters spec
          (Parameters spec ++
             [mkParameterSpec "query" "query" false
                "Query parameters for filtering, sorting, and pagination"
                (typed "object")])
      else if decide (methodName = "APIError") then
        match Responses spec !! "400" with
        | Some _ => spec
        | None =>
            withResponses spec
              (<["400" := mkResponseSpec "Bad request or error response"
                            "application/json" errorSchema]> (Responses spec))
        end
      else spec
  | _ => spec
  end.

(** The names of a [var] specification, numbered from [i], against its type
    or its initial values. *)
Fixpoint declareNames (names : list string) (i : nat) (ty : option Node)
    (values : list Node) (varTypes : gmap string string) : gmap string string :=
  match names with
  | [] => varTypes
  | name :: rest =>
      let varTypes :=
        match ty with
        | Some t => <[name := extractTypeName t]> varTypes
        | None =>
            match values !! i with
            | Some v => <[name := inferTypeFromExpr v]> varTypes
            | None => varTypes
            end
        end in
      declareNames rest (S i) ty values varTypes
  end.

Fixpoint declareSpecs (specs : list Node) (varTypes : gmap string string)
    : gmap string string :=
  match specs with
  | [] => varTypes
  | ValueSpec names ty values :: rest =>
      declareSpecs rest (declareNames names 0 ty values varTypes)
  | _ :: rest => declareSpecs rest varTypes
  end.

(** The first left-hand side that is a name other than [err] and [_]. *)
Fixpoint firstResultName (lhs : list Node) : option string :=
  match lhs with
  | [] => None
  | Ident name :: rest =>
      if decide (name ≠ "err" ∧ name ≠ "_") then Some name else firstResultName rest
  | _ :: rest => firstResultName rest
  end.

(** [for i, lhs := range x.Lhs]: every name is given the type of the
    right-hand side of its index. *)
Fixpoint assignEach (lhs : list Node) (i : nat) (rhs : list Node)
    (varTypes : gmap string string) : gmap string string :=
  match lhs with
  | [] => varTypes
  | l :: rest =>
      let varTypes :=
        match l, rhs !! i with
        | Ident name, Some e => <[name := inferTypeFromExpr e]> varTypes
        | _, _ => varTypes
        end in
      assignEach rest (S i) rhs varTypes
  end.

(** The closure of the first pass of [analyzeFunctionBody]. *)
Definition collectVarTypes (ac : analyzerContext) (receiverType : string)
    (n : Node) (varTypes : gmap string string) : bool * gmap string string :=
  match n with
  | DeclStmt (GenDecl VAR _ specs) => (true, declareSpecs specs varTypes)
  | AssignStmt lhs DEFINE [CallExpr Fun args as call] =>
      let inferredType := inferResponseTypeFromCall ac Fun receiverType in
      match firstResultName lhs with
      | Some name =>
          (true, <[name := if decide (inferredType ≠ "") then inferredType
                           else inferTypeFromExpr call]> varTypes)
      | None => (true, varTypes)
      end
  | AssignStmt lhs DEFINE rhs => (true, assignEach lhs 0 rhs varTypes)
  | _ => (true, varTypes)
  end.

(** The closure of the second pass. *)
Definition analyzeCalls (ac : analyzerContext) (varTypes : gmap string string)
    (receiverType : string) (n : Node) (spec : EndpointSpec) : bool * EndpointSpec :=
  match n with
  | CallExpr Fun args => (true, analyzeCallExpr ac Fun args spec varTypes receiverType)
  | _ => (true, spec)
  end.

Definition analyzeFunctionBody (ac : analyzerContext) (body : Node)
    (spec : EndpointSpec) (receiverType : string) : EndpointSpec :=
  let varTypes := Inspect (collectVarTypes ac receiverType) body ∅ in
  Inspect (analyzeCalls ac varTypes receiverType) body spec.

(** [extractPathParameters] *)
Fixpoint pathParametersOf (parts : list string) : list ParameterSpec :=
  match parts with
  | [] => []
  | part :: rest =>
      if HasPrefix part ":"
      then pathParameter (TrimPrefix part ":") (typed "string") :: pathParametersOf rest
      else pathParametersOf rest
  end.

Definition extractPathParameters (path : string) : list ParameterSpec :=
  pathParametersOf (Split path "/").

(** The path parameters that the body analysis has not found already. *)
Fixpoint missingParameters (existing pathParams : list ParameterSpec) : list ParameterSpec :=
  match pathParams with
  | [] => []
  | p :: rest =>
      if bool_decide (paramName p ∈ paramName <$> existing)
      then missingParameters existing rest
      else p :: missingParameters existing rest
  end.

Definition defaultResponse : ResponseSpec :=
  mkResponseSpec "Successful response" "application/json" (typed "object").

(** [enhanceEndpoint] *)
Definition enhanceEndpoint (ac : analyzerContext) (basic : RouteGraph.EndpointInfo)
    : EndpointSpec :=
  let spec :=
    mkEndpointSpec (RouteGraph.Path basic) (ToUpper (RouteGraph.Method basic))
      (RouteGraph.Handler basic) (RouteGraph.MSName basic)
      (RouteGraph.Middleware basic) "" ""
      (assignTags ac (RouteGraph.Path basic)) [] None ∅
      (extractSecurity (RouteGraph.Middleware basic)) None in
  match functions ac !! RouteGraph.Handler basic with
  | None => spec
  | Some handlerFunc =>
      let receiverType := extractReceiverType handlerFunc in
      let '(doc, body) :=
        match handlerFunc with
        | FuncDecl doc _ _ _ body => (doc, body)
        | _ => (None, None)
        end in
      let spec :=
        match extractComments <$> doc with
        | Some (first :: more) =>
            withDoc spec first
              (match more with [] => "" | _ => Join more (String newline "") end)
              (Some handlerFunc)
        | _ => withDoc spec "" "" (Some handlerFunc)
        end in
      let spec :=
        match body with
        | Some body => analyzeFunctionBody ac body spec receiverType
        | None => spec
        end in
      let spec :=
        withParameters spec
          (Parameters spec ++
             missingParameters (Parameters spec) (extractPathParameters (Path spec))) in
      if decide (size (Responses spec) = 0)
      then withResponses spec (<["200" := defaultResponse]> (Responses spec))
      else spec
  end.

End Analyzer.

(** ** Spec assembler ([generator.go]) *)

Module Assembler.

Import Analyzer.

Record TagSpec := mkTagSpec {
  tagName : string;
  tagDescription : string
}.

(** [MediaTypeSpec]; the examples are never written. *)
Record MediaTypeSpec := mkMediaTypeSpec {
  mediaSchema : option SchemaSpec
}.

Record ResponseRef := mkResponseRef {
  refDescription : string;
  refContent : gmap string MediaTypeSpec
}.

Record RequestBodyRef := mkRequestBodyRef {
  reqDescription : string;
  reqRequired : bool;
  reqContent : gmap string MediaTypeSpec
}.

Record ParameterRef := mkParameterRef {
  prName : string;
  prIn : string;
  prDescription : string;
  prRequired : bool;
  prSchema : option SchemaSpec
}.

Record OperationSpec := mkOperationSpec {
  opTags : list string;
  opSummary : string;
  opDescription : string;
  OperationID : string;
  opParameters : list ParameterRef;
  opRequestBody : option RequestBodyRef;
  opResponses : gmap string ResponseRef;
  opSecurity : list (gmap string (list string))
}.

Record PathItemSpec := mkPathItemSpec {
  Get : option OperationSpec;
  Post : option OperationSpec;
  Put : option OperationSpec;
  Delete : option OperationSpec;
  Patch : option OperationSpec;
  Options : option OperationSpec;
  Head : option OperationSpec
}.

(** The authorization-code flow of [OAuthFlows], the only one written. *)
Record OAuthFlow := mkOAuthFlow {
  AuthorizationURL : string;
  TokenURL : string;
  Scopes : gmap string string
}.

Record SecuritySchemeSpec := mkSecuritySchemeSpec {
  schemeType : string;
  schemeDescription : string;
  Scheme : string;
  BearerFormat : string;
  Flows : option OAuthFlow
}.

(** [OpenAPISpec]; [Schemas] and [SecuritySchemes] are the two written
    fields of [Components]. *)
Record OpenAPISpec := mkOpenAPISpec {
  OpenAPI : string;
  Title : string;
  Version : string;
  InfoDescription : string;
  Servers : list string;
  Paths : gmap string PathItemSpec;
  Schemas : gmap string SchemaSpec;
  SecuritySchemes : gmap string SecuritySchemeSpec;
  DocTags : list TagSpec;
  collectedScopes : gset string
}.

Definition NewOpenAPISpec (title version description : string) (servers : list string)
    : OpenAPISpec :=
  mkOpenAPISpec "3.0.0" title version description servers ∅ ∅
    {[ "bearerAuth" :=
         mkSecuritySchemeSpec "http" "JWT Bearer token authentication" "bearer" "JWT" None ]}
    [] ∅.

Definition braces (part : string) : string :=
  if HasPrefix part ":" then "{" +:+ TrimPrefix part ":" +:+ "}" else part.

(** [OpenAPISpec.normalizePath]: [:param] becomes [{param}]. *)
Definition normalizePath (path : string) : string :=
  Join (braces <$> Split path "/") "/".

(** [wrapResponseSchema] *)
Definition wrapResponseSchema (schema : SchemaSpec) (statusCode : string) : SchemaSpec :=
  if HasPrefix statusCode "4" || HasPrefix statusCode "5" then schema
  else objectWith "data" schema.

Definition generateOperationID (endpoint : EndpointSpec) : string :=
  let method := ToLower (Method endpoint) in
  let handler := TrimPrefix (Handler endpoint) "*" in
  let handler := TrimSuffix handler "Controller" in
  method +:+ "_" +:+ handler.

Definition parameterRef (param : ParameterSpec) : ParameterRef :=
  mkParameterRef (paramName param) (paramIn param) (paramDescription param)
                 (paramRequired param) (Some (paramSchema param)).

(** The body of the loop of [createOperation] over the responses. *)
Definition responseRef (code : string) (response : ResponseSpec) : ResponseRef :=
  mkResponseRef (respDescription response)
    (if decide (respContentType response ≠ "")
     then {[ respContentType response :=
               mkMediaTypeSpec (Some (wrapResponseSchema (respSchema response) code)) ]}
     else ∅).

Definition badRequest : ResponseRef :=
  mkResponseRef "Bad Request"
    {[ "application/json" := mkMediaTypeSpec (Some (objectWith "error" (typed "string"))) ]}.

(** [createOperation] *)
Definition createOperation (endpoint : EndpointSpec) : OperationSpec :=
  let responses := map_imap (λ code response, Some (responseRef code response))
                            (Responses endpoint) in
  let responses :=
    match responses !! "400" with
    | Some _ => responses
    | None => <["400" := badRequest]> responses
    end in
  mkOperationSpec (Tags endpoint) (Summary endpoint) (Description endpoint)
    (generateOperationID endpoint)
    (parameterRef <$> Parameters endpoint)
    ((λ body, mkRequestBodyRef (bodyDescription body) (bodyRequired body)
                {[ bodyContentType body := mkMediaTypeSpec (Some (bodySchema body)) ]})
       <$> RequestBody endpoint)
    responses
    ((λ sec, {[ secName sec := secScopes sec ]}) <$> Security endpoint).

Definition generateTagDescription (tagName : string) : string :=
  tagName +:+ " related endpoints".

(** [addTag] *)
Fixpoint addTag (existing : list TagSpec) (tags : list string) : list TagSpec :=
  match tags with
  | [] => existing
  | newTag :: rest =>
      if bool_decide (newTag ∈ tagName <$> existing) then addTag existing rest
      else addTag (existing ++ [mkTagSpec newTag (generateTagDescription newTag)]) rest
  end.

Definition emptyPathItem : PathItemSpec :=
  mkPathItemSpec None None None None None None None.

Definition setOperation (pathItem : PathItemSpec) (method : string)
    (operation : OperationSpec) : PathItemSpec :=
  let '(mkPathItemSpec g po pu d pa o h) := pathItem in
  if decide (method = "get") then mkPathItemSpec (Some operation) po pu d pa o h
  else if decide (method = "post") then mkPathItemSpec g (Some operation) pu d pa o h
  else if decide (method = "put") then mkPathItemSpec g po (Some operation) d pa o h
  else if decide (method = "delete") then mkPathItemSpec g po pu (Some operation) pa o h
  else if decide (method = "patch") then mkPathItemSpec g po pu d (Some operation) o h
  else if decide (method = "options") then mkPathItemSpec g po pu d pa (Some operation) h
  else if decide (method = "head") then mkPathItemSpec g po pu d pa o (Some operation)
  else pathItem.

(** [AddEndpoint] *)
Definition AddEndpoint (s : OpenAPISpec) (endpoint : EndpointSpec) : OpenAPISpec :=
  let path := normalizePath (Path endpoint) in
  let pathItem := default emptyPathItem (Paths s !! path) in
  let operation := createOperation endpoint in
  let pathItem := setOperation pathItem (ToLower (Method endpoint)) operation in
  mkOpenAPISpec (OpenAPI s) (Title s) (Version s) (InfoDescription s) (Servers s)
    (<[path := pathItem]> (Paths s)) (Schemas s) (SecuritySchemes s)
    (addTag (DocTags s) (Tags endpoint))
    (collectedScopes s ∪ list_to_set (concat (secScopes <$> Security endpoint))).

(** [FinalizeSecuritySchemes] *)
Definition FinalizeSecuritySchemes (s : OpenAPISpec) (oauthAuthorize oauthToken : string)
    : OpenAPISpec :=
  if decide (size (collectedScopes s) = 0) then s
  else
    let scopes : gmap string string :=
      set_to_map (λ scope, (scope, "Permission: " +:+ scope)) (collectedScopes s) in
    mkOpenAPISpec (OpenAPI s) (Title s) (Version s) (InfoDescription s) (Servers s)
      (Paths s) (Schemas s)
      (<["permissions" :=
           mkSecuritySchemeSpec "oauth2"
             "OAuth2 with permission scopes extracted from middleware" "" ""
             (Some (mkOAuthFlow oauthAuthorize oauthToken scopes))]> (SecuritySchemes s))
      (DocTags s) (collectedScopes s).

(** [collectTypeRefFromSingleSchema] *)
Fixpoint collectTypeRefFromSingleSchema (schema : SchemaSpec) (typeRefs : gset string)
    : gset string :=
  let '(mkSchemaSpec _ _ _ ref properties _ items _ _) := schema in
  let typeRefs :=
    if decide (ref ≠ "") then {[ last_or (Split ref "/") "" ]} ∪ typeRefs
    else typeRefs in
  let typeRefs :=
    (fix props (l : list (string * SchemaSpec)) (typeRefs : gset string) :=
       match l with
       | [] => typeRefs
       | (_, propSchema) :: l' =>
           props l' (collectTypeRefFromSingleSchema propSchema typeRefs)
       end) properties typeRefs in
  match items with
  | Some item => collectTypeRefFromSingleSchema item typeRefs
  | None => typeRefs
  end.

(** [collectTypeRefsFromSchema] *)
Definition collectTypeRefsFromSchema (content : gmap string MediaTypeSpec)
    (typeRefs : gset string) : gset string :=
  map_fold (λ _ mediaType typeRefs,
              match mediaSchema mediaType with
              | Some schema => collectTypeRefFromSingleSchema schema typeRefs
              | None => typeRefs
              end) typeRefs content.

Definition collectFromOperation (op : option OperationSpec) (typeRefs : gset string)
    : gset string :=
  match op with
  | None => typeRefs
  | Some op =>
      let typeRefs :=
        match opRequestBody op with
        | Some body => collectTypeRefsFromSchema (reqContent body) typeRefs
        | None => typeRefs
        end in
      let typeRefs :=
        map_fold (λ _ response, collectTypeRefsFromSchema (refContent response))
                 typeRefs (opResponses op) in
      foldl (λ typeRefs param,
               match prSchema param with
               | Some schema => collectTypeRefFromSingleSchema schema typeRefs
               | None => typeRefs
               end) typeRefs (opParameters op)
  end.

(** [collectTypeReferences] *)
Definition collectTypeReferences (s : OpenAPISpec) : gset string :=
  map_fold (λ _ pathItem typeRefs,
              foldl (λ typeRefs op, collectFromOperation op typeRefs) typeRefs
                    [Get pathItem; Post pathItem; Put pathItem; Delete pathItem;
                     Patch pathItem; Options pathItem; Head pathItem])
           ∅ (Paths s).

(** The loop of [resolveAllSchemas] over the type names, whose results are
    dropped. *)
Fixpoint resolveEach (fs : list Resolver.GoFile) (fuel : nat) (typeNames : list string)
    (resolver : Resolver.TypeResolver) : option Resolver.TypeResolver :=
  match typeNames with
  | [] => Some resolver
  | typeName :: rest =>
      '(_, resolver) ← Resolver.ResolveType fs fuel typeName resolver;
      resolveEach fs fuel rest resolver
  end.

(** [resolveAllSchemas], the type names taken in the order [order] (ranging
    over the Go map [typeRefs] yields them in an order Go leaves open). *)
Definition resolveAllSchemasIn (fs : list Resolver.GoFile) (fuel : nat)
    (order : list string) (s : OpenAPISpec) (resolver : Resolver.TypeResolver)
    : option (OpenAPISpec * Resolver.TypeResolver) :=
  resolver ← resolveEach fs fuel order resolver;
  Some (mkOpenAPISpec (OpenAPI s) (Title s) (Version s) (InfoDescription s) (Servers s)
          (Paths s) (Resolver.GetSchemas resolver ∪ Schemas s) (SecuritySchemes s)
          (DocTags s) (collectedScopes s), resolver).

Definition resolveAllSchemas (fs : list Resolver.GoFile) (fuel : nat)
    (s : OpenAPISpec) (resolver : Resolver.TypeResolver)
    : option (OpenAPISpec * Resolver.TypeResolver) :=
  resolveAllSchemasIn fs fuel (elements (collectTypeReferences s)) s resolver.

(** The assembly of [generateOpenAPISpec]: the endpoints are added, the
    schemas resolved, the security schemes finalized. *)
Definition assemble (fs : list Resolver.GoFile) (fuel : nat)
    (endpoints : list EndpointSpec) (title version description : string)
    (servers : list string) (oauthAuthorize oauthToken : string) : option OpenAPISpec :=
  let spec := foldl AddEndpoint (NewOpenAPISpec title version description servers) endpoints in
  '(spec, _) ← resolveAllSchemas fs fuel spec Resolver.NewTypeResolver;
  Some (FinalizeSecuritySchemes spec oauthAuthorize oauthToken).

(** The type names referred to under [paths] that have no entry in
    [components.schemas]. *)
Definition danglingReferences (s : OpenAPISpec) : gset string :=
  collectTypeReferences s ∖ dom (Schemas s).

End Assembler.

(** ** Notions used in the statements *)

(** An argument that looks like a handler: a name, a method value, a call or
    a function literal. *)
Definition handlerLike (arg : Node) : bool :=
  match arg with
  | Ident _ | SelectorExpr _ _ | CallExpr _ _ | FuncLit _ _ => true
  | _ => false
  end.

Definition optNode (o : option Node) : list Node :=
  match o with Some k => [k] | None => [] end.

(** The children of a node, in the order [ast.Inspect] visits them. *)
Definition children (n : Node) : list Node :=
  match n with
  | Ident _ | BasicLit _ _ => []
  | SelectorExpr X _ => [X]
  | CallExpr Fun Args => Fun :: Args
  | FuncLit Ty Body => [Ty; Body]
  | UnaryExpr _ X => [X]
  | CompositeLit Ty Elts => optNode Ty ++ Elts
  | StarExpr X => [X]
  | ArrayType Len Elt => optNode Len ++ [Elt]
  | MapType K V => [K; V]
  | StructType Fields => fieldType <$> Fields
  | AssignStmt Lhs _ Rhs => Lhs ++ Rhs
  | DeclStmt D => [D]
  | GenDecl _ _ Specs => Specs
  | ValueSpec _ Ty Values => optNode Ty ++ Values
  | TypeSpec _ Ty => [Ty]
  | FuncDecl _ Recv _ Ty Body => (fieldType <$> Recv) ++ [Ty] ++ optNode Body
  | OtherNode Kids => Kids
  end.

(** The nodes of a syntax tree, the root first. *)
Fixpoint subnodes (n : Node) : list Node :=
  let nodes := fix nodes (l : list Node) : list Node :=
    match l with [] => [] | k :: l' => subnodes k ++ nodes l' end in
  let fields := fix fields (l : list Field) : list Node :=
    match l with [] => [] | mkField _ t _ _ :: l' => subnodes t ++ fields l' end in
  let opt := λ o : option Node, match o with Some k => subnodes k | None => [] end in
  n ::
  match n with
  | Ident _ | BasicLit _ _ => []
  | SelectorExpr X _ => subnodes X
  | CallExpr Fun Args => subnodes Fun ++ nodes Args
  | FuncLit Ty Body => subnodes Ty ++ subnodes Body
  | UnaryExpr _ X => subnodes X
  | CompositeLit Ty Elts => opt Ty ++ nodes Elts
  | StarExpr X => subnodes X
  | ArrayType Len Elt => opt Len ++ subnodes Elt
  | MapType K V => subnodes K ++ subnodes V
  | StructType Fields => fields Fields
  | AssignStmt Lhs _ Rhs => nodes Lhs ++ nodes Rhs
  | DeclStmt D => subnodes D
  | GenDecl _ _ Specs => nodes Specs
  | ValueSpec _ Ty Values => opt Ty ++ nodes Values
  | TypeSpec _ Ty => subnodes Ty
  | FuncDecl _ Recv _ Ty Body => fields Recv ++ subnodes Ty ++ opt Body
  | OtherNode Kids => nodes Kids
  end.



(** The type name a node stands for in a field type: an identifier, or an
    identifier qualified by a package. *)
Definition namesOf (n : Node) : list string :=
  match n with
  | Ident name => [name]
  | SelectorExpr (Ident pkg) sel => [pkg +:+ "." +:+ sel]
  | _ => []
  end.

(** The type names that occur in a syntax tree. *)
Definition namesIn (n : Node) : list string := concat (namesOf <$> subnodes n).

(** The type names that occur in the files of the models directory. *)
Fixpoint universe (fs : list Resolver.GoFile) : list string :=
  match fs with
  | [] => []
  | f :: fs' =>
      match Resolver.fileAst f with
      | Some node => namesIn node ++ universe fs'
      | None => universe fs'
      end
  end.

(** The schema of a field whose type is the type [T] itself, behind
    pointers and slices. *)
Fixpoint selfSchema (T : string) (fieldType : Node) : option SchemaSpec :=
  match fieldType with
  | Ident name => if decide (name = T) then Some (refTo (cleanTypeName T)) else None
  | StarExpr X => selfSchema T X
  | ArrayType _ Elt => arrayOf <$> selfSchema T Elt
  | _ => None
  end.

(** A models directory with one file, which declares the self-referential
    type of the comment in [ResolveType]. *)
Definition jsonTag (name : string) : option string :=
  Some ("`json:" +:+ quoted name +:+ "`").

Definition feedFile : Resolver.GoFile :=
  Resolver.mkGoFile "feeds" "feed.go"
    (Some (OtherNode
       [ GenDecl TYPE None
           [ TypeSpec "Feed"
               (StructType
                  [ mkField ["ID"] (Ident "string") (jsonTag "id") None;
                    mkField ["Parent"] (StarExpr (Ident "Feed"))
                            (jsonTag "parent,omitempty") None;
                    mkField ["Kids"] (ArrayType None (Ident "Feed")) (jsonTag "kids") None ]) ] ])).

(** The marks of a resolver only grow. *)
Definition grows (r r' : Resolver.TypeResolver) : Prop :=
  ∀ name, Resolver.isProcessed r name = true → Resolver.isProcessed r' name = true.

(** The names of [U] that are not marked yet. *)
Definition unprocessed (U : list string) (r : Resolver.TypeResolver) : gset string :=
  filter (λ name, Resolver.isProcessed r name = false) (list_to_set U : gset string).

(** What a call of a function of the resolver from the resolver [r]
    guarantees: it returns, and the marks have grown. *)
Definition returns {A} (call : option (A * Resolver.TypeResolver))
    (r : Resolver.TypeResolver) : Prop :=
  ∃ result r', call = Some (result, r') ∧ grows r r'.

(** The handler of [GET /orders/:id]:
    [order, err := c.orders.GetOrder(id)] and then
    [return http.Response(ctx, order)]. *)
Definition getOrderHandler : Node :=
  FuncDecl None [mkField ["c"] (StarExpr (Ident "ordersController")) None None]
    "GetOrder" (OtherNode [])
    (Some (OtherNode
       [ AssignStmt [Ident "order"; Ident "err"] DEFINE
           [CallExpr (SelectorExpr (SelectorExpr (Ident "c") "orders") "GetOrder")
                     [Ident "id"]];
         OtherNode [CallExpr (SelectorExpr (Ident "http") "Response")
                             [Ident "ctx"; Ident "order"]] ])).

(** ** Helpers of the [openapi-spec] command *)

Module SpecCommand.

(** [contains]: the microservice filter; the recursion is on [s[1:]]. *)
Fixpoint contains (s substr : string) : bool :=
  bool_decide (String.length substr ≤ String.length s) &&
  (bool_decide (s = substr) || bool_decide (String.length substr = 0) ||
   match s with
   | "" => false
   | String _ s' =>
       bool_decide (upto (String.length substr) s = substr) || contains s' substr
   end).

(** The loop [for i := 1; i < len(parts); i++ { result += sep + parts[i] }]. *)
Fixpoint joinFrom (result : string) (parts : list string) (sep : string) : string :=
  match parts with
  | [] => result
  | part :: rest => joinFrom (result +:+ (sep +:+ part)) rest sep
  end.

(** [joinParts] *)
Definition joinParts (parts : list string) (sep : string) : string :=
  match parts with
  | [] => ""
  | first :: rest => joinFrom first rest sep
  end.

End SpecCommand.

(** ** The fields of controller structs (the analyzer) *)

Module ControllerFields.

Import Analyzer.

(** [extractFullTypeName] *)
Fixpoint extractFullTypeName (ac : analyzerContext) (expr : Node) : string :=
  match expr with
  | Ident name => name
  | SelectorExpr (Ident pkgName) sel =>
      match imports ac !! pkgName with
      | Some importPath => last_or (Split importPath "/") "" +:+ "." +:+ sel
      | None => pkgName +:+ "." +:+ sel
      end
  | SelectorExpr _ sel => sel
  | StarExpr X =>
      let inner := extractFullTypeName ac X in
      if decide (inner ≠ "") then "*" +:+ inner else ""
  | ArrayType _ Elt =>
      let inner := extractFullTypeName ac Elt in
      if decide (inner ≠ "") then "[]" +:+ inner else ""
  | _ => ""
  end.

(** [ac.controllerFields[key] = fieldType] *)
Definition setControllerField (ac : analyzerContext) (key fieldType : string)
    : analyzerContext :=
  mkAnalyzerContext (msName ac) (functions ac) (imports ac) (businessLayerRegistry ac)
                    (<[key := fieldType]> (controllerFields ac)).

(** The body of the loop of [extractControllerFields] over the names of one
    field. *)
Definition recordField (controllerTypeName : string) (ty : Node)
    (ac : analyzerContext) (name : string) : analyzerContext :=
  let fieldType := extractFullTypeName ac ty in
  if decide (fieldType ≠ "")
  then setControllerField ac (controllerTypeName +:+ "." +:+ name) fieldType
  else ac.

(** [extractControllerFields] on the fields of the struct. *)
Definition extractControllerFields (ac : analyzerContext) (controllerTypeName : string)
    (fields : list Field) : analyzerContext :=
  foldl (λ ac field,
           let '(mkField names ty _ _) := field in
           foldl (recordField controllerTypeName ty) ac names)
        ac fields.

End ControllerFields.

(** ** Further notions used in the statements *)

(** The operation a path item has for a verb, in lower case. *)
Definition operationOf (verb : string) (item : Assembler.PathItemSpec)
    : option Assembler.OperationSpec :=
  if decide (verb = "get") then Assembler.Get item
  else if decide (verb = "post") then Assembler.Post item
  else if decide (verb = "put") then Assembler.Put item
  else if decide (verb = "delete") then Assembler.Delete item
  else if decide (verb = "patch") then Assembler.Patch item
  else if decide (verb = "options") then Assembler.Options item
  else if decide (verb = "head") then Assembler.Head item
  else None.

(** The operation a document has for a path and a verb. *)
Definition operationAt (s : Assembler.OpenAPISpec) (path verb : string)
    : option Assembler.OperationSpec :=
  Assembler.Paths s !! path ≫= operationOf verb.

(** The scopes that the [permissions] scheme of a document declares. *)
Definition declaredScopes (s : Assembler.OpenAPISpec) : gset string :=
  match Assembler.SecuritySchemes s !! "permissions" with
  | Some scheme =>
      match Assembler.Flows scheme with
      | Some flow => dom (Assembler.Scopes flow)
      | None => ∅
      end
  | None => ∅
  end.

(** The scopes that the security requirements of an endpoint name. *)
Definition requiredScopes (endpoint : Analyzer.EndpointSpec) : list string :=
  concat (Analyzer.secScopes <$> Analyzer.Security endpoint).

(** The references in the schema of a media type. *)
Definition mediaReferences (mediaType : Assembler.MediaTypeSpec) : gset string :=
  match Assembler.mediaSchema mediaType with
  | Some schema => Assembler.collectTypeRefFromSingleSchema schema ∅
  | None => ∅
  end.

(** The operations of a path item, in the order [collectTypeReferences]
    takes them. *)
Definition operations (pathItem : Assembler.PathItemSpec)
    : list (option Assembler.OperationSpec) :=
  [ Assembler.Get pathItem; Assembler.Post pathItem; Assembler.Put pathItem;
    Assembler.Delete pathItem; Assembler.Patch pathItem; Assembler.Options pathItem;
    Assembler.Head pathItem ].

(** The byte [c] does not occur in [s]. *)
Definition without (c : ascii) (s : string) : Prop := memByte c s = false.

(** The package that the name [pkgName] stands for in the files of a
    controller: the last segment of the path it is imported from, or the
    name itself when no import binds it. *)
Definition packageOf (ac : Analyzer.analyzerContext) (pkgName : string) : string :=
  match Analyzer.imports ac !! pkgName with
  | Some importPath => last_or (Split importPath "/") ""
  | None => pkgName
  end.

Definition fieldNames (f : Field) : list string := let '(mkField names _ _ _) := f in names.

(** The JSON name of a field: the first part of the value its tag has for
    [json], the empty string without a tag or without that key. *)
Definition jsonNameOf (field : Field) : string :=
  let '(mkField _ _ tagLit _) := field in
  match tagLit with
  | None => ""
  | Some tagValue =>
      let jsonTag := GoReflect.Get (Trim tagValue "`") "json" in
      if decide (jsonTag = "") then "" else default "" (head (Split jsonTag ","))
  end.

(** The type and the doc comment that a file declares for a type name:
    those of the first type specification of that name, when the file
    parses. *)
Definition declarationIn (file : Resolver.GoFile) (typeName : string)
    : option (Node * option (list string)) :=
  match Resolver.fileAst file with
  | Some node => Inspect (Resolver.findDecl typeName) node None
  | None => None
  end.

(** [part] is the schema itself, or lies in it at some depth of properties
    and items. *)
Inductive within (part : SchemaSpec) : SchemaSpec → Prop :=
  | within_here : within part part
  | within_property (schema : SchemaSpec) (name : string) (property : SchemaSpec) :
      (name, property) ∈ Properties schema → within part property → within part schema
  | within_items (schema item : SchemaSpec) :
      Items schema = Some item → within part item → within part schema.

(** The fields of the struct [Feed] of [feedFile]. *)
Definition feedFields : list Field :=
  [ mkField ["ID"] (Ident "string") (jsonTag "id") None;
    mkField ["Parent"] (StarExpr (Ident "Feed")) (jsonTag "parent,omitempty") None;
    mkField ["Kids"] (ArrayType None (Ident "Feed")) (jsonTag "kids") None ].

(** ** Properties *)

(** *** Strings *)

Lemma str_app_cons (c : ascii) (s t : string) : String c s +:+ t = String c (s +:+ t).
Proof. reflexivity. Qed.

Lemma str_app_empty_l (t : string) : "" +:+ t = t.
Proof. reflexivity. Qed.

Lemma str_length_app (s t : string) :
  String.length (s +:+ t) = String.length s + String.length t.
Proof.
  induction s as [|c s IH]; [done |].
  rewrite str_app_cons. simpl. by rewrite IH.
Qed.

Lemma str_from_app (s t : string) (k : nat) :
  from (String.length s + k) (s +:+ t) = from k t.
Proof. induction s as [|c s IH]; [done |]. rewrite str_app_cons. exact IH. Qed.

Lemma str_app_assoc (s t u : string) : (s +:+ t) +:+ u = s +:+ (t +:+ u).
Proof.
  induction s as [|c s IH]; [done |]. by rewrite !str_app_cons, IH.
Qed.

Lemma str_app_empty_r (s : string) : s +:+ "" = s.
Proof. induction s as [|c s IH]; [done |]. by rewrite str_app_cons, IH. Qed.

Lemma SplitByte_nonempty (c : ascii) (s : string) : SplitByte c s ≠ [].
Proof.
  induction s as [|a s IH]; simpl; [done |].
  case_decide; [done |]. by destruct (SplitByte c s).
Qed.

Lemma SplitByte_app (c : ascii) (s t : string) :
  SplitByte c (s +:+ String c t) = SplitByte c s ++ SplitByte c t.
Proof.
  induction s as [|a s IH].
  - rewrite str_app_empty_l. simpl. by rewrite decide_True.
  - rewrite str_app_cons. simpl. case_decide; [by rewrite IH |].
    rewrite IH. destruct (SplitByte c s) eqn:E; [|done].
    by destruct (SplitByte_nonempty c s).
Qed.

Lemma Join_app (l1 l2 : list string) (sep : string) :
  l1 ≠ [] → l2 ≠ [] → Join (l1 ++ l2) sep = Join l1 sep +:+ sep +:+ Join l2 sep.
Proof.
  intros H1 H2. induction l1 as [|e l1 IH]; [done |].
  destruct l1 as [|e' l1].
  - simpl. by destruct l2.
  - change (Join ((e :: e' :: l1) ++ l2) sep)
      with (e +:+ sep +:+ Join ((e' :: l1) ++ l2) sep).
    rewrite IH by done.
    change (Join (e :: e' :: l1) sep) with (e +:+ sep +:+ Join (e' :: l1) sep).
    by rewrite !str_app_assoc.
Qed.

(** *** Syntax trees *)

Lemma list_all_Forall {A} (P : A → Prop) (l : list A) : list_all A P l → Forall P l.
Proof. induction 1; by constructor. Qed.

(** Induction on a syntax tree from its children. *)
Lemma Node_children_ind (P : Node → Prop) :
  (∀ n, Forall P (children n) → P n) → ∀ n, P n.
Proof.
  intros step.
  induction n using Node_mut with (P0 := λ f, P (fieldType f)); try done;
    apply step; simpl;
    repeat match goal with
           | H : list_all _ _ _ |- _ => apply list_all_Forall in H
           | H : option_all _ _ ?o |- _ => destruct H
           end;
    rewrite ?Forall_app, ?Forall_fmap; repeat split; repeat constructor; done.
Qed.

Lemma subnodes_unfold (n : Node) :
  subnodes n = n :: concat (subnodes <$> children n).
Proof.
  assert (∀ l, (fix nodes (l : list Node) : list Node :=
                  match l with [] => [] | k :: l' => subnodes k ++ nodes l' end) l
               = concat (subnodes <$> l)) as Hnodes.
  { induction l as [|k l IH]; [done |]. cbn [fmap list_fmap concat]. by f_equal. }
  assert (∀ l, (fix fields (l : list Field) : list Node :=
                  match l with
                  | [] => []
                  | mkField _ t _ _ :: l' => subnodes t ++ fields l'
                  end) l
               = concat (subnodes <$> (fieldType <$> l))) as Hfields.
  { induction l as [|[? t ? ?] l IH]; [done |]. cbn [fmap list_fmap concat fieldType]. by f_equal. }
  destruct n as [| |X ?|Fun Args|Ty Body|? X|Ty Elts|X|Len Elt|K V|Fields|Lhs ? Rhs|D
                 |? ? Specs|? Ty Values|? Ty|? Recv ? Ty Body|Kids];
    cbn [subnodes children]; f_equal.
  - cbn. by rewrite app_nil_r.
  - cbn [fmap list_fmap concat]. f_equal. apply Hnodes.
  - cbn. by rewrite app_nil_r.
  - cbn. by rewrite app_nil_r.
  - rewrite fmap_app, concat_app. f_equal; [| apply Hnodes].
    destruct Ty; cbn; by rewrite ?app_nil_r.
  - cbn. by rewrite app_nil_r.
  - rewrite fmap_app, concat_app. f_equal.
    + destruct Len; cbn; by rewrite ?app_nil_r.
    + cbn. by rewrite app_nil_r.
  - cbn. by rewrite app_nil_r.
  - apply Hfields.
  - rewrite fmap_app, concat_app. f_equal; apply Hnodes.
  - cbn. by rewrite app_nil_r.
  - apply Hnodes.
  - rewrite fmap_app, concat_app. f_equal; [| apply Hnodes].
    destruct Ty; cbn; by rewrite ?app_nil_r.
  - cbn. by rewrite app_nil_r.
  - rewrite !fmap_app, !concat_app. f_equal; [apply Hfields |]. f_equal.
    + cbn. by rewrite app_nil_r.
    + destruct Body; cbn; by rewrite ?app_nil_r.
  - apply Hnodes.
Qed.

Lemma Inspect_unfold {S} (f : Node → S → bool * S) (n : Node) (s : S) :
  Inspect f n s =
    if (f n s).1 then foldl (λ s k, Inspect f k s) (f n s).2 (children n)
    else (f n s).2.
Proof.
  assert (∀ l s, (fix nodes (l : list Node) (s : S) : S :=
                    match l with [] => s | k :: l' => nodes l' (Inspect f k s) end) l s
                 = foldl (λ s k, Inspect f k s) s l) as Hnodes.
  { induction l as [|k l IH]; intros s'; [done |]. cbn [foldl]. apply IH. }
  assert (∀ l s, (fix fields (l : list Field) (s : S) : S :=
                    match l with
                    | [] => s
                    | mkField _ t _ _ :: l' => fields l' (Inspect f t s)
                    end) l s
                 = foldl (λ s k, Inspect f k s) s (fieldType <$> l)) as Hfields.
  { induction l as [|[? t ? ?] l IH]; intros s'; [done |].
    cbn [fmap list_fmap foldl fieldType]. apply IH. }
  destruct n as [| |X ?|Fun Args|Ty Body|? X|Ty Elts|X|Len Elt|K V|Fields|Lhs ? Rhs|D
                 |? ? Specs|? Ty Values|? Ty|? Recv ? Ty Body|Kids];
    cbn [Inspect children]; destruct (f _ s) as [[] s']; cbn [negb fst snd foldl];
    try done; rewrite ?foldl_app;
    try match goal with |- context [optNode ?o] => destruct o end;
    cbn [optNode foldl];
    first [ apply Hnodes | apply Hfields | done
          | (etrans; [apply Hnodes |]; f_equal; first [apply Hnodes | apply Hfields])
          | idtac ].
  all: do 2 f_equal; apply Hfields.
Qed.

(** What every call of the closure preserves, the walk preserves. *)
Lemma Inspect_preserves {S} (f : Node → S → bool * S) (I : S → Prop) :
  (∀ n s, I s → I (f n s).2) → ∀ n s, I s → I (Inspect f n s).
Proof.
  intros Hf. induction n as [n IH] using Node_children_ind. intros s Hs.
  rewrite Inspect_unfold. specialize (Hf n s Hs).
  destruct (f n s) as [[] s']; simpl in *; [| done].
  revert s' Hf. induction IH as [| k l Hk _ IHl]; intros s' Hs'; simpl; [done |].
  by apply IHl, Hk.
Qed.


Lemma namesIn_unfold (n : Node) :
  namesIn n = namesOf n ++ concat (namesIn <$> children n).
Proof.
  unfold namesIn at 1. rewrite subnodes_unfold. cbn [fmap list_fmap concat]. f_equal.
  induction (children n) as [|k l IH]; [done |].
  cbn [fmap list_fmap concat]. by rewrite fmap_app, concat_app, IH.
Qed.

(** *** Security derivation *)

Section Security.
Import Analyzer.

(** The loop returns early exactly when an entry names the marker. *)
Lemma scanMiddleware_anonymous (middleware : list string) :
  Exists (λ mw, Contains mw "NotAuthenticated" = true) middleware →
  ∀ scopes hasAuth, scanMiddleware middleware scopes hasAuth = None.
Proof.
  induction 1 as [mw rest Hmw | mw rest _ IH]; intros scopes hasAuth; simpl.
  - by rewrite Hmw.
  - destruct (Contains mw "NotAuthenticated"); [done | apply IH].
Qed.

(** Without the marker the loop runs to its end, with every scope of the
    chain and with the authentication flag raised by any entry. *)
Lemma scanMiddleware_complete (middleware : list string) :
  Forall (λ mw, Contains mw "NotAuthenticated" = false) middleware →
  ∀ scopes hasAuth,
    scanMiddleware middleware scopes hasAuth =
      Some (scopes ++ concat (extractPermissionsFromMiddleware <$> middleware),
            hasAuth || existsb (λ mw, Contains mw "Authenticated"
                                      || Contains mw "IsAuthenticated") middleware).
Proof.
  induction 1 as [| mw rest Hmw _ IH]; intros scopes hasAuth; simpl.
  - by rewrite app_nil_r, orb_false_r.
  - rewrite Hmw, IH, <- (assoc_L (++)). do 2 f_equal.
    destruct (Contains mw "Authenticated" || Contains mw "IsAuthenticated");
      simpl; [by rewrite orb_true_r | done].
Qed.

Lemma concat_nonempty {A} (ls : list (list A)) :
  Exists (λ l, l ≠ []) ls → 0 < length (concat ls).
Proof.
  induction 1 as [l rest Hl | l rest _ IH]; simpl; rewrite length_app.
  - destruct l; [done | simpl; lia].
  - lia.
Qed.

Lemma concat_empty {A} (ls : list (list A)) :
  Forall (λ l, l = []) ls → concat ls = [].
Proof. induction 1 as [| l rest -> _ IH]; [done | exact IH]. Qed.

(** C5 (anonymous short-circuit): a middleware chain with an entry that
    names the [NotAuthenticated] marker has no security requirement,
    whatever authentication or permission middleware the chain holds
    elsewhere. *)
Theorem anonymous_short_circuit (middleware : list string) :
  Exists (λ mw, Contains mw "NotAuthenticated" = true) middleware →
  extractSecurity middleware = [].
Proof.
  intros H. unfold extractSecurity.
  by rewrite (scanMiddleware_anonymous middleware H).
Qed.

Lemma anonymous_short_circuit_witness :
  extractSecurity
    [ "c.gates.IsAuthenticated.Authenticated()"; "hasPermission(orders:write)";
      "c.gates.NotAuthenticated()" ] = [].
Proof.
  apply anonymous_short_circuit.
  apply Exists_cons_tl, Exists_cons_tl, Exists_cons_hd. reflexivity.
Defined.

(** C6 as stated fails: a chain with an authentication marker and a
    [NotAuthenticated] entry has an authentication marker and no permission
    call, and yet its security list is empty, not one [bearerAuth]
    requirement. *)
Lemma scope_escalation_counterexample :
  let middleware := ["c.gates.IsAuthenticated.Authenticated()"; "c.gates.NotAuthenticated()"] in
  Exists (λ mw, Contains mw "Authenticated" = true) middleware ∧
  Forall (λ mw, extractPermissionsFromMiddleware mw = []) middleware ∧
  extractSecurity middleware ≠ [mkSecurityRequirement "bearerAuth" []].
Proof.
  simpl. split; [| split].
  - apply Exists_cons_hd. reflexivity.
  - repeat constructor.
  - vm_compute. discriminate.
Qed.

(** C6, amended (scope escalation): for a middleware chain without a
    [NotAuthenticated] entry and with an authentication marker, the security
    list is exactly one [permissions] requirement with the scopes of the
    chain when a permission-bearing call contributes a scope, and exactly
    one [bearerAuth] requirement without scopes when no entry contributes
    one. *)
Theorem scope_escalation (middleware : list string) :
  Forall (λ mw, Contains mw "NotAuthenticated" = false) middleware →
  Exists (λ mw, Contains mw "Authenticated" = true) middleware →
  (Exists (λ mw, extractPermissionsFromMiddleware mw ≠ []) middleware →
   extractSecurity middleware =
     [mkSecurityRequirement "permissions"
        (concat (extractPermissionsFromMiddleware <$> middleware))]) ∧
  (Forall (λ mw, extractPermissionsFromMiddleware mw = []) middleware →
   extractSecurity middleware = [mkSecurityRequirement "bearerAuth" []]).
Proof.
  intros Hanon Hauth. unfold extractSecurity.
  rewrite (scanMiddleware_complete middleware Hanon). simpl.
  assert (existsb (λ mw, Contains mw "Authenticated" || Contains mw "IsAuthenticated")
                  middleware = true) as ->.
  { apply existsb_exists. apply Exists_exists in Hauth as (mw & Hin & Hmw).
    exists mw. split; [by apply list_elem_of_In | by rewrite Hmw]. }
  split.
  - intros Hperm. rewrite decide_True; [done |].
    apply concat_nonempty, Exists_fmap. exact Hperm.
  - intros Hnone. rewrite concat_empty by (by apply Forall_fmap).
    by rewrite decide_False by (simpl; lia).
Qed.

Lemma scope_escalation_witness :
  extractSecurity ["c.gates.IsAuthenticated.Authenticated()"; "hasPermission(orders:write)"]
    = [mkSecurityRequirement "permissions" ["orders:write"]]
  ∧ extractSecurity ["c.gates.IsAuthenticated.Authenticated()"]
    = [mkSecurityRequirement "bearerAuth" []].
Proof.
  split.
  - apply (scope_escalation
             ["c.gates.IsAuthenticated.Authenticated()"; "hasPermission(orders:write)"]).
    + repeat constructor.
    + apply Exists_cons_hd. reflexivity.
    + apply Exists_cons_tl, Exists_cons_hd. vm_compute. discriminate.
  - apply (scope_escalation ["c.gates.IsAuthenticated.Authenticated()"]).
    + repeat constructor.
    + apply Exists_cons_hd. reflexivity.
    + repeat constructor.
Defined.

End Security.

(** *** Response wrapping *)

Section Wrapping.
Import Analyzer Assembler.

(** Every recorded response is served under its own status code. *)
Lemma createOperation_response (endpoint : EndpointSpec) (code : string)
    (response : ResponseSpec) :
  Responses endpoint !! code = Some response →
  opResponses (createOperation endpoint) !! code = Some (responseRef code response).
Proof.
  intros Hcode. unfold createOperation. simpl.
  set (served := map_imap _ (Responses endpoint)).
  assert (served !! code = Some (responseRef code response)) as Hserved.
  { unfold served. by rewrite map_lookup_imap, Hcode. }
  destruct (served !! "400") eqn:H400; [done |].
  rewrite lookup_insert_ne; [done |]. intros <-. congruence.
Qed.

(** C9 (response wrapping): a recorded response that has a content type is
    served, under its status code, with its schema [X] inside an object
    whose single property is [data] when the code is a 2xx code, and with
    [X] itself when the code is a 4xx or a 5xx code. *)
Theorem response_wrapping (endpoint : EndpointSpec) (code : string)
    (response : ResponseSpec) :
  Responses endpoint !! code = Some response →
  respContentType response ≠ "" →
  let served := opResponses (createOperation endpoint) !! code in
  let content (schema : SchemaSpec) :=
    Some (mkResponseRef (respDescription response)
            {[ respContentType response := mkMediaTypeSpec (Some schema) ]}) in
  (HasPrefix code "2" = true →
   served = content (mkSchemaSpec "object" "" "" "" [("data", respSchema response)]
                                  [] None [] None)) ∧
  (HasPrefix code "4" = true ∨ HasPrefix code "5" = true →
   served = content (respSchema response)).
Proof.
  intros Hcode Htype served content. unfold served.
  rewrite (createOperation_response _ _ _ Hcode).
  unfold responseRef, content, wrapResponseSchema. rewrite decide_True by done.
  split.
  - intros H2. destruct code as [|c code]; [done |].
    simpl in *. repeat case_decide; subst; done.
  - intros [-> | ->]; [done | by rewrite orb_true_r].
Qed.

Lemma response_wrapping_witness :
  let endpoint :=
    mkEndpointSpec "/orders" "POST" "CreateOrder" "ms_orders" [] "" "" ["Orders"] [] None
      {[ "200" := mkResponseSpec "Successful response" "application/json" (refTo "Order") ]}
      [] None in
  opResponses (createOperation endpoint) !! "200" =
    Some (mkResponseRef "Successful response"
            {[ "application/json" :=
                 mkMediaTypeSpec (Some (objectWith "data" (refTo "Order"))) ]}).
Proof.
  intros endpoint.
  refine (proj1 (response_wrapping endpoint "200"
                   (mkResponseSpec "Successful response" "application/json" (refTo "Order"))
                   _ _) _).
  - reflexivity.
  - discriminate.
  - reflexivity.
Defined.

(** A response without a content type, such as the [204] of a bare
    [Response(ctx)], is served without any schema. *)
Lemma response_without_content (endpoint : EndpointSpec) (code : string)
    (response : ResponseSpec) :
  Responses endpoint !! code = Some response →
  respContentType response = "" →
  opResponses (createOperation endpoint) !! code =
    Some (mkResponseRef (respDescription response) ∅).
Proof.
  intros Hcode Htype. rewrite (createOperation_response _ _ _ Hcode).
  unfold responseRef. by rewrite decide_False by (by intros []).
Qed.

End Wrapping.

(** *** Calls without a handler *)

Section NoHandler.
Import RouteGraph.

Lemma findHandler_none (args : list Node) :
  Forall (λ arg, handlerLike arg = false) args →
  ∀ i, findHandler i args = None.
Proof.
  induction 1 as [| arg rest Harg _ IH]; intros i; simpl; [done |].
  rewrite IH. destruct arg; try done.
Qed.

(** C10: a call of an HTTP-verb method with fewer than two arguments, or
    with no argument after the path that is a name, a method value, a call
    or a function literal, yields no endpoint: the walk records nothing for
    it and leaves its context as it is. *)
Theorem no_handler_no_endpoint (ctx : parseContext) (Fun : Node) (Args : list Node)
    (endpoints : list EndpointInfo) :
  length Args < 2 ∨ Forall (λ arg, handlerLike arg = false) (tail Args) →
  parseHTTPMethodCall ctx Fun Args = None ∧
  visit (CallExpr Fun Args) (ctx, endpoints) = (true, (ctx, endpoints)).
Proof.
  intros H.
  assert (parseHTTPMethodCall ctx Fun Args = None) as Hnone.
  { unfold parseHTTPMethodCall. destruct Fun; try done.
    destruct (isHTTPMethod Sel); [simpl | done].
    destruct Args as [| pathArg [| arg rest]]; [done | done |].
    destruct H as [H | H]; [simpl in H; lia |].
    rewrite (findHandler_none _ H). by repeat case_match. }
  split; [done |]. unfold visit. simpl. by rewrite Hnone.
Qed.

Lemma no_handler_no_endpoint_witness :
  parseHTTPMethodCall (newContext "ms_orders") (SelectorExpr (Ident "app") "Get")
                      [strLit "/health"; strLit "ok"] = None.
Proof.
  refine (proj1 (no_handler_no_endpoint (newContext "ms_orders")
                   (SelectorExpr (Ident "app") "Get") [strLit "/health"; strLit "ok"] [] _)).
  right. repeat constructor.
Defined.

End NoHandler.

(** *** Endpoints whose handler is not found *)

Section MissingHandler.
Import Analyzer Assembler.

(** What [enhanceEndpoint] returns at its early [return spec]. *)
Lemma enhanceEndpoint_handler_not_found (ac : analyzerContext)
    (basic : RouteGraph.EndpointInfo) :
  functions ac !! RouteGraph.Handler basic = None →
  enhanceEndpoint ac basic =
    mkEndpointSpec (RouteGraph.Path basic) (ToUpper (RouteGraph.Method basic))
      (RouteGraph.Handler basic) (RouteGraph.MSName basic)
      (RouteGraph.Middleware basic) "" ""
      (assignTags ac (RouteGraph.Path basic)) [] None ∅
      (extractSecurity (RouteGraph.Middleware basic)) None.
Proof. intros H. unfold enhanceEndpoint. by rewrite H. Qed.

(** C2 on the code: for the endpoint [GET /orders/:id] whose handler
    [GetOrder] is in no file of the directory, the spec that is returned has
    no response at all, so that the operation built from it has the injected
    [400] response and no [200] response. *)
Theorem missing_handler_has_no_default_response :
  let ac := mkAnalyzerContext "ms_orders" ∅ ∅ None ∅ in
  let basic :=
    RouteGraph.mkEndpointInfo "/orders/:id" "Get" "GetOrder" "ms_orders"
      ["c.gates.IsAuthenticated.Authenticated()"] in
  let spec := enhanceEndpoint ac basic in
  (Path spec, Method spec, Tags spec, Security spec) =
    ("/orders/:id", "GET", ["Orders"], [mkSecurityRequirement "bearerAuth" []]) ∧
  Responses spec = ∅ ∧
  (map_to_list (opResponses (createOperation spec))).*1 = ["400"].
Proof. vm_compute. done. Qed.

End MissingHandler.

(** *** Group paths *)

Section GroupPaths.
Import RouteGraph.


Lemma normalizePath_empty : normalizePath "" "" = "/".
Proof. reflexivity. Qed.

(** C4 on the code: for [a := app.Group("/v1/")], [b := a.Group("/users")]
    and [b.Get("/:id", GetUser)] the path of the nested group is the plain
    concatenation of the two group paths, with both slashes. *)
Theorem nested_group_path_not_normalized :
  parseControllerFile
    (OtherNode
       [ define "a" (groupCall "app" "/v1/" []);
         define "b" (groupCall "a" "/users" []);
         exprStmt (CallExpr (SelectorExpr (Ident "b") "Get")
                            [strLit "/:id"; Ident "GetUser"]) ])
    "ms_users"
  = [ mkEndpointInfo "/v1//users/:id" "Get" "GetUser" "ms_users" [] ].
Proof. vm_compute. reflexivity. Qed.

(** The same groups on an endpoint path: there the slashes are merged. *)
Example endpoint_path_normalized :
  normalizePath "/v1/" "/users" = "/v1/users" ∧ normalizePath "/v1" "users" = "/v1/users".
Proof. vm_compute. done. Qed.

End GroupPaths.


(** *** Group inheritance *)

Section GroupInheritance.
Import RouteGraph.






Lemma findHandler_last (mws : list Node) (handler : Node) (i : nat) :
  extractHandlerName handler ≠ "" →
  findHandler i (mws ++ [handler]) = Some (i + length mws, extractHandlerName handler).
Proof.
  intros Hh. revert i. induction mws as [| mw mws IH]; intros i; simpl.
  - rewrite decide_False by done. do 2 f_equal. lia.
  - rewrite IH. do 2 f_equal. lia.
Qed.

(** A call [x.Method(path, mws..., handler)] of an HTTP-verb method whose
    last argument has a handler name. *)
Lemma parseHTTPMethodCall_handler_last (ctx : parseContext) (x method : string)
    (pathArg : Node) (mws : list Node) (handler : Node) :
  isHTTPMethod method = true →
  extractHandlerName handler ≠ "" →
  parseHTTPMethodCall ctx (SelectorExpr (Ident x) method) (pathArg :: mws ++ [handler]) =
    Some (mkEndpointInfo
            (normalizePath (default "" (groupPaths ctx !! x))
               (if decide (extractStringLiteral pathArg = "") then "/"
                else extractStringLiteral pathArg))
            method (extractHandlerName handler) (msName ctx)
            (default [] (groupMiddleware ctx !! x) ++ middlewareNames ctx mws)).
Proof.
  intros Hm Hh. unfold parseHTTPMethodCall. rewrite Hm. cbn [negb].
  destruct (mws ++ [handler]) as [| arg rest] eqn:Hargs; [by destruct mws |].
  rewrite <- Hargs, (findHandler_last mws handler 1 Hh).
  replace (1 + length mws - 1) with (length mws) by lia.
  by rewrite take_app_length.
Qed.









End GroupInheritance.

(** *** Termination of the resolver *)

Section Termination.
Import Resolver.

Lemma grows_refl (r : TypeResolver) : grows r r.
Proof. by intros name. Qed.

Lemma grows_trans (r1 r2 r3 : TypeResolver) : grows r1 r2 → grows r2 r3 → grows r1 r3.
Proof. intros H12 H23 name H. by apply H23, H12. Qed.

Lemma isProcessed_mark (r : TypeResolver) (name name' : string) :
  isProcessed (markProcessed r name) name' =
    if decide (name = name') then true else isProcessed r name'.
Proof.
  unfold isProcessed, markProcessed. simpl. rewrite lookup_insert.
  by case_decide.
Qed.

Lemma grows_mark (r : TypeResolver) (name : string) : grows r (markProcessed r name).
Proof. intros name' H. rewrite isProcessed_mark. by case_decide. Qed.

Lemma grows_store (r : TypeResolver) (name : string) (s : SchemaSpec) :
  grows r (storeSchema r name s).
Proof. by intros name'. Qed.

Lemma unprocessed_mono (U : list string) (r r' : TypeResolver) :
  grows r r' → unprocessed U r' ⊆ unprocessed U r.
Proof.
  intros Hg name. unfold unprocessed. rewrite !elem_of_filter.
  intros [Hn HU]. split; [| done].
  destruct (isProcessed r name) eqn:E; [| done]. by rewrite (Hg name E) in Hn.
Qed.

Lemma unprocessed_mark (U : list string) (r : TypeResolver) (name : string) :
  name ∈ U → isProcessed r name = false →
  size (unprocessed U (markProcessed r name)) < size (unprocessed U r).
Proof.
  intros HU Hn. apply subset_size. split.
  - apply unprocessed_mono, grows_mark.
  - intros Hsub. assert (name ∈ unprocessed U (markProcessed r name)) as Hin.
    { apply Hsub. unfold unprocessed. rewrite elem_of_filter, elem_of_list_to_set. done. }
    unfold unprocessed in Hin. rewrite elem_of_filter, isProcessed_mark in Hin.
    rewrite decide_True in Hin by done. by destruct Hin.
Qed.

Lemma unprocessed_none (U : list string) (r : TypeResolver) (name : string) :
  name ∈ U → size (unprocessed U r) = 0 → isProcessed r name = true.
Proof.
  intros HU Hsize. apply size_empty_inv in Hsize.
  destruct (isProcessed r name) eqn:E; [done |].
  assert (name ∈ unprocessed U r) as Hin.
  { unfold unprocessed. by rewrite elem_of_filter, elem_of_list_to_set. }
  apply Hsize in Hin. set_solver.
Qed.

Lemma elem_of_concat {A} (x : A) (ls : list (list A)) :
  x ∈ concat ls ↔ ∃ l, x ∈ l ∧ l ∈ ls.
Proof.
  induction ls as [| l ls IH]; simpl.
  - split; [by intros ?%elem_of_nil | by intros (? & _ & ?%elem_of_nil)].
  - rewrite elem_of_app, IH. split.
    + intros [H | (l' & H1 & H2)]; [exists l | exists l']; split; try done;
        [by left | by right].
    + intros (l' & H1 & [-> | H2]%elem_of_cons); [by left | right; by exists l'].
Qed.

(** The names in a child are names in its parent. *)
Lemma namesIn_child (n k : Node) : k ∈ children n → namesIn k ⊆ namesIn n.
Proof.
  intros Hk name Hname. rewrite namesIn_unfold. apply elem_of_app. right.
  apply elem_of_concat. exists (namesIn k). split; [done |].
  by apply list_elem_of_fmap_2.
Qed.

Lemma findTypeSpec_names (typeName : string) (specs : list Node) (ty : Node) :
  findTypeSpec typeName specs = Some ty →
  namesIn ty ⊆ concat (namesIn <$> specs).
Proof.
  induction specs as [| spec specs IH]; [done |]. intros Hfind name Hname.
  cbn [fmap list_fmap concat]. apply elem_of_app.
  destruct spec; simpl in Hfind; try (right; by apply IH).
  case_decide; [| right; by apply IH].
  simplify_eq. left. eapply namesIn_child; [| done]. simpl. by left.
Qed.

(** The declaration [parseFileForType] finds in a file is part of the
    file. *)
Lemma findDecl_names (typeName : string) (W : list string) (n : Node) :
  namesIn n ⊆ W →
  ∀ target,
    (∀ ty doc, target = Some (ty, doc) → namesIn ty ⊆ W) →
    ∀ ty doc, Inspect (findDecl typeName) n target = Some (ty, doc) → namesIn ty ⊆ W.
Proof.
  induction n as [n IH] using Node_children_ind. intros HW target Htarget.
  rewrite Inspect_unfold.
  assert (∀ l target,
            Forall (λ k, namesIn k ⊆ W →
                         ∀ target, (∀ ty doc, target = Some (ty, doc) → namesIn ty ⊆ W) →
                         ∀ ty doc, Inspect (findDecl typeName) k target = Some (ty, doc) →
                                   namesIn ty ⊆ W) l →
            Forall (λ k, namesIn k ⊆ W) l →
            (∀ ty doc, target = Some (ty, doc) → namesIn ty ⊆ W) →
            ∀ ty doc, foldl (λ s k, Inspect (findDecl typeName) k s) target l = Some (ty, doc) →
                      namesIn ty ⊆ W) as Hfold.
  { clear. induction l as [| k l IHl]; intros target HP HW Htarget ty doc; simpl.
    - apply Htarget.
    - inversion HP; inversion HW; subst. apply IHl; [done | done |].
      intros ty' doc' H'. by eapply (H1 H5 target Htarget). }
  assert (Forall (λ k, namesIn k ⊆ W) (children n)) as Hkids.
  { apply Forall_forall. intros k Hk. etrans; [by apply namesIn_child | done]. }
  destruct n as [| | | | | | | | | | | | |tok gdoc specs| | | |];
    cbn [findDecl fst snd]; try exact (Hfold _ _ IH Hkids Htarget).
  destruct (findTypeSpec typeName specs) as [ty'|] eqn:Hfind; cbn [fst snd].
  - intros ty doc [= <- <-]. etrans; [by eapply findTypeSpec_names |].
    etrans; [| exact HW]. rewrite namesIn_unfold. simpl. done.
  - exact (Hfold _ _ IH Hkids Htarget).
Qed.


Lemma universe_file (fs : list GoFile) (file : GoFile) (node : Node) :
  file ∈ fs → fileAst file = Some node → namesIn node ⊆ universe fs.
Proof.
  intros Hin Hast name Hname. induction Hin as [file fs' | file file' fs' _ IH]; simpl.
  - rewrite Hast. apply elem_of_app. by left.
  - destruct (fileAst file'); [apply elem_of_app; right |]; by apply IH.
Qed.

Lemma findGoFiles_subset (fs : list GoFile) (targetDir : string) :
  findGoFiles fs targetDir ⊆ fs.
Proof.
  induction fs as [| f fs IH]; simpl; [done |].
  destruct (_ && _); intros file Hfile.
  - apply elem_of_cons in Hfile as [-> | Hfile]; [by left | right; by apply IH].
  - right. by apply IH.
Qed.

Lemma returns_now {A} (result : A) (r : TypeResolver) : returns (Some (result, r)) r.
Proof. exists result, r. split; [done | apply grows_refl]. Qed.

Section Callback.

(** [resolve] returns on the names of the models directory, from every
    resolver that extends [r0]. *)
Context (fs : list GoFile).
Context (resolve : string → TypeResolver → option (SchemaSpec * TypeResolver)).
Context (r0 : TypeResolver).
Hypothesis resolve_returns :
  ∀ name r, name ∈ universe fs → grows r0 r → returns (resolve name r) r.

Lemma parseFieldType_returns (fieldType : Node) :
  namesIn fieldType ⊆ universe fs →
  ∀ r, grows r0 r → returns (parseFieldType resolve fieldType r) r.
Proof.
  induction fieldType as [t IH] using Node_children_ind. intros Hnames r Hr.
  assert (∀ k, k ∈ children t → ∀ r, grows r0 r →
               returns (parseFieldType resolve k r) r) as Hkid.
  { intros k Hk. rewrite Forall_forall in IH. apply (IH k Hk).
    etrans; [by apply namesIn_child | done]. }
  pose proof (λ s : SchemaSpec, returns_now s r) as Hdone.
  destruct t as [name| |X sel| | | | |X|Len Elt|K V| | | | | | | |]; cbn [parseFieldType];
    try apply Hdone.
  - case_decide; [apply Hdone |]. apply resolve_returns; [| done].
    apply Hnames. rewrite namesIn_unfold. simpl. by left.
  - destruct X; try apply Hdone.
    case_decide; [apply Hdone |]. apply resolve_returns; [| done].
    apply Hnames. rewrite namesIn_unfold. simpl. by left.
  - apply Hkid; [simpl; by left | done].
  - destruct (Hkid Elt) with (r := r) as (s & r' & -> & Hr');
      [simpl; apply elem_of_app; right; by left | done |].
    simpl. by exists (arrayOf s), r'.
  - destruct (Hkid V) with (r := r) as (s & r' & -> & Hr');
      [simpl; right; by left | done |].
    simpl. by exists (mapOf s), r'.
Qed.

Lemma parseField_returns (field : Field) (schema : SchemaSpec) :
  namesIn (fieldType field) ⊆ universe fs →
  ∀ r, grows r0 r → returns (parseField resolve field schema r) r.
Proof.
  intros Hnames r Hr. destruct field as [names ty tagLit doc]. unfold parseField.
  destruct (match tagLit with None => _ | Some _ => _ end) as [[jsonName omitempty] required].
  case_decide; [apply returns_now |].
  destruct (parseFieldType_returns ty Hnames r Hr) as (s & r' & -> & Hr').
  simpl. eexists _, r'. by split.
Qed.

Lemma parseFields_returns (fields : list Field) :
  Forall (λ field, namesIn (fieldType field) ⊆ universe fs) fields →
  ∀ schema r, grows r0 r → returns (parseFields resolve fields schema r) r.
Proof.
  induction 1 as [| field rest Hfield _ IH]; intros schema r Hr; simpl.
  - apply returns_now.
  - destruct (parseField_returns field schema Hfield r Hr) as (s & r' & -> & Hr').
    simpl. destruct (IH s r') as (s' & r'' & -> & Hr''); [by eapply grows_trans |].
    exists s', r''. split; [done | by eapply grows_trans].
Qed.

Lemma parseFileForType_returns (file : GoFile) (typeName : string) :
  file ∈ fs →
  ∀ r, grows r0 r → returns (parseFileForType resolve file typeName r) r.
Proof.
  intros Hfile r Hr. unfold parseFileForType.
  pose proof (λ res : ParseResult, returns_now res r) as Hdone.
  destruct (fileAst file) as [node|] eqn:Hast; [| apply Hdone].
  destruct (Inspect (findDecl typeName) node None) as [[ty doc]|] eqn:Hfind;
    [| apply Hdone].
  assert (namesIn ty ⊆ universe fs) as Hty.
  { eapply (findDecl_names typeName (universe fs) node); [| | exact Hfind].
    - by eapply universe_file.
    - by intros ? ? ?. }
  destruct ty as [| |X sel| | | | | | | |fields| | | | | | |]; try apply Hdone.
  - destruct (HasSuffix typeName "Enum"); apply Hdone.
  - destruct X; try apply Hdone. destruct (HasSuffix typeName "Enum"); apply Hdone.
  - unfold parseStruct.
    edestruct (parseFields_returns fields) as (s & r' & -> & Hr'); [| exact Hr |].
    + apply Forall_forall. intros field Hfield.
      etrans; [| exact Hty]. apply namesIn_child. simpl.
      by apply list_elem_of_fmap_2.
    + simpl. by exists (Found s), r'.
Qed.

Lemma parseFiles_returns (files : list GoFile) (structName : string) :
  files ⊆ fs →
  ∀ r, grows r0 r → returns (parseFiles resolve files structName r) r.
Proof.
  induction files as [| file rest IH]; intros Hsub r Hr; simpl.
  - apply returns_now.
  - destruct (parseFileForType_returns file structName) with (r := r)
      as (res & r' & -> & Hr'); [apply Hsub; by left | done |].
    simpl. destruct res; [by eexists _, r' | |];
      (destruct (IH ltac:(set_solver) r') as (s & r'' & -> & Hr'');
         [by eapply grows_trans |];
       exists s, r''; split; [done | by eapply grows_trans]).
Qed.

Lemma findAndParseType_returns (typeName : string) :
  ∀ r, grows r0 r → returns (findAndParseType fs resolve typeName r) r.
Proof.
  intros r Hr. unfold findAndParseType.
  destruct (if Contains typeName "." then _ else _) as [pkgName structName].
  apply parseFiles_returns; [apply findGoFiles_subset | done].
Qed.

End Callback.

Lemma ResolveType_S (fs : list GoFile) (fuel : nat) (typeName : string)
    (r : TypeResolver) :
  ResolveType fs (S fuel) typeName r =
    if decide (Type_ (resolveBuiltInType typeName) ≠ "")
    then Some (resolveBuiltInType typeName, r)
    else if isProcessed r typeName then Some (refTo (cleanTypeName typeName), r)
    else
      '(found, r) ← findAndParseType fs (ResolveType fs fuel) typeName
                                     (markProcessed r typeName);
      match found with
      | None => Some (typed "object", r)
      | Some schema =>
          Some (refTo (cleanTypeName typeName),
                storeSchema r (cleanTypeName typeName) schema)
      end.
Proof. reflexivity. Qed.

(** More fuel does not change what a call returns. *)
Section Fuel.

Context (fs : list GoFile).
Context (resolve1 resolve2 : string → TypeResolver → option (SchemaSpec * TypeResolver)).
Hypothesis resolve_le :
  ∀ name r result, resolve1 name r = Some result → resolve2 name r = Some result.

Lemma parseFieldType_le (fieldType : Node) :
  ∀ r result,
    parseFieldType resolve1 fieldType r = Some result →
    parseFieldType resolve2 fieldType r = Some result.
Proof.
  induction fieldType as [t IH] using Node_children_ind. intros r result.
  rewrite Forall_forall in IH.
  destruct t as [name| |X sel| | | | |X|Len Elt|K V| | | | | | | |]; cbn [parseFieldType];
    try done.
  - case_decide; [done | apply resolve_le].
  - destruct X; try done. case_decide; [done | apply resolve_le].
  - apply IH. simpl. by left.
  - destruct (parseFieldType resolve1 Elt r) as [[item r']|] eqn:H1; [| done].
    rewrite (IH Elt) with (result := (item, r')); [done | | done].
    simpl. apply elem_of_app. right. by left.
  - destruct (parseFieldType resolve1 V r) as [[value r']|] eqn:H1; [| done].
    rewrite (IH V) with (result := (value, r')); [done | | done].
    simpl. right. by left.
Qed.

Lemma parseField_le (field : Field) (schema : SchemaSpec) (r : TypeResolver)
    (result : SchemaSpec * TypeResolver) :
  parseField resolve1 field schema r = Some result →
  parseField resolve2 field schema r = Some result.
Proof.
  destruct field as [names ty tagLit doc]. unfold parseField.
  destruct (match tagLit with None => _ | Some _ => _ end) as [[jsonName omitempty] required].
  case_decide; [done |].
  destruct (parseFieldType resolve1 ty r) as [[s r']|] eqn:H1; [| done].
  by rewrite (parseFieldType_le ty r (s, r') H1).
Qed.

Lemma parseFields_le (fields : list Field) :
  ∀ schema r result,
    parseFields resolve1 fields schema r = Some result →
    parseFields resolve2 fields schema r = Some result.
Proof.
  induction fields as [| field rest IH]; intros schema r result; simpl; [done |].
  destruct (parseField resolve1 field schema r) as [[s r']|] eqn:H1; [| done].
  rewrite (parseField_le field schema r (s, r') H1). simpl. apply IH.
Qed.

Lemma parseFileForType_le (file : GoFile) (typeName : string) (r : TypeResolver)
    (result : ParseResult * TypeResolver) :
  parseFileForType resolve1 file typeName r = Some result →
  parseFileForType resolve2 file typeName r = Some result.
Proof.
  unfold parseFileForType, parseStruct.
  destruct (fileAst file) as [node|]; [| done].
  destruct (Inspect (findDecl typeName) node None) as [[ty doc]|]; [| done].
  destruct ty as [| | | | | | | | | |fields| | | | | | |]; try done.
  match goal with
  | |- context [parseFields resolve1 fields ?s r] =>
      destruct (parseFields resolve1 fields s r) as [[s' r']|] eqn:H1; [| done];
      by rewrite (parseFields_le fields s r (s', r') H1)
  end.
Qed.

Lemma parseFiles_le (files : list GoFile) (structName : string) :
  ∀ r result,
    parseFiles resolve1 files structName r = Some result →
    parseFiles resolve2 files structName r = Some result.
Proof.
  induction files as [| file rest IH]; intros r result; simpl; [done |].
  destruct (parseFileForType resolve1 file structName r) as [[res r']|] eqn:H1; [| done].
  rewrite (parseFileForType_le file structName r (res, r') H1). simpl.
  destruct res; [done | apply IH | apply IH].
Qed.

Lemma findAndParseType_le (typeName : string) (r : TypeResolver)
    (result : option SchemaSpec * TypeResolver) :
  findAndParseType fs resolve1 typeName r = Some result →
  findAndParseType fs resolve2 typeName r = Some result.
Proof.
  unfold findAndParseType.
  destruct (if Contains typeName "." then _ else _) as [pkgName structName].
  apply parseFiles_le.
Qed.

End Fuel.

Lemma ResolveType_fuel_S (fs : list GoFile) (fuel : nat) :
  ∀ typeName r result,
    ResolveType fs fuel typeName r = Some result →
    ResolveType fs (S fuel) typeName r = Some result.
Proof.
  induction fuel as [| fuel IH]; intros typeName r result; [done |].
  rewrite !ResolveType_S.
  case_decide; [done |]. destruct (isProcessed r typeName); [done |].
  destruct (findAndParseType fs (ResolveType fs fuel) typeName (markProcessed r typeName))
    as [[found r']|] eqn:H1; [| done].
  by rewrite (findAndParseType_le fs _ _ IH typeName _ (found, r') H1).
Qed.

Lemma ResolveType_fuel_le (fs : list GoFile) (fuel fuel' : nat) (typeName : string)
    (r : TypeResolver) (result : SchemaSpec * TypeResolver) :
  fuel ≤ fuel' →
  ResolveType fs fuel typeName r = Some result →
  ResolveType fs fuel' typeName r = Some result.
Proof.
  induction 1 as [| fuel' _ IH]; [done |].
  intros H. by apply ResolveType_fuel_S, IH.
Qed.


(** A call of [ResolveType] on a name of the models directory returns when
    the fuel exceeds the number of names that are not marked yet. *)
Lemma ResolveType_returns_inner (fs : list GoFile) (fuel : nat) :
  ∀ typeName r,
    typeName ∈ universe fs →
    size (unprocessed (universe fs) r) ≤ fuel →
    returns (ResolveType fs (S fuel) typeName r) r.
Proof.
  induction fuel as [| fuel IH]; intros typeName r Hname Hsize;
    rewrite ResolveType_S; (case_decide; [apply returns_now |]).
  - rewrite (unprocessed_none (universe fs) r typeName Hname) by lia.
    apply returns_now.
  - destruct (isProcessed r typeName) eqn:Hmark; [apply returns_now |].
    pose proof (unprocessed_mark (universe fs) r typeName Hname Hmark) as Hless.
    destruct (findAndParseType_returns fs (ResolveType fs (S fuel))
                (markProcessed r typeName)) with (typeName := typeName)
                (r := markProcessed r typeName) as ([s|] & r' & -> & Hr').
    + intros name r1 Hname1 Hr1. apply IH; [done |].
      pose proof (subseteq_size _ _ (unprocessed_mono (universe fs) _ _ Hr1)). lia.
    + apply grows_refl.
    + simpl. eexists _, _. split; [done |].
      eapply grows_trans; [apply grows_mark |].
      eapply grows_trans; [exact Hr' | apply grows_store].
    + simpl. eexists _, _. split; [done |].
      eapply grows_trans; [apply grows_mark | exact Hr'].
Qed.

(** A call of [ResolveType] on any name returns with that fuel and one
    more. *)
Lemma ResolveType_returns (fs : list GoFile) (typeName : string) (r : TypeResolver)
    (fuel : nat) :
  size (unprocessed (universe fs) r) ≤ fuel →
  returns (ResolveType fs (S (S fuel)) typeName r) r.
Proof.
  intros Hsize. rewrite ResolveType_S.
  case_decide; [apply returns_now |].
  destruct (isProcessed r typeName) eqn:Hmark; [apply returns_now |].
  destruct (findAndParseType_returns fs (ResolveType fs (S fuel))
              (markProcessed r typeName)) with (typeName := typeName)
              (r := markProcessed r typeName) as ([s|] & r' & -> & Hr').
  - intros name r1 Hname1 Hr1. apply ResolveType_returns_inner; [done |].
    pose proof (subseteq_size _ _ (unprocessed_mono (universe fs) _ _ Hr1)).
    pose proof (subseteq_size _ _ (unprocessed_mono (universe fs) _ _
                                     (grows_mark r typeName))). lia.
  - apply grows_refl.
  - simpl. eexists _, _. split; [done |].
    eapply grows_trans; [apply grows_mark |].
    eapply grows_trans; [exact Hr' | apply grows_store].
  - simpl. eexists _, _. split; [done |].
    eapply grows_trans; [apply grows_mark | exact Hr'].
Qed.

Lemma unprocessed_size (U : list string) (r : TypeResolver) :
  size (unprocessed U r) ≤ length U.
Proof.
  transitivity (size (list_to_set U : gset string)).
  - apply subseteq_size. intros name. unfold unprocessed. rewrite elem_of_filter.
    by intros [_ ?].
  - induction U as [| name U IH]; simpl.
    + done.
    + rewrite size_union_alt, size_singleton.
      assert (size (list_to_set U ∖ {[name]} : gset string)
              ≤ size (list_to_set U : gset string)); [| lia].
      apply subseteq_size. intros x. rewrite elem_of_difference. by intros [? _].
Qed.

(** While a type is marked, a field of that type, behind pointers and
    slices, is a reference to the schema of the type, and resolving it
    leaves the resolver as it is. *)
Lemma parseFieldType_self (fs : list GoFile) (fuel : nat) (T : string)
    (fieldType : Node) (schema : SchemaSpec) (r : TypeResolver) :
  Type_ (resolveBuiltInType T) = "" →
  isProcessed r T = true →
  selfSchema T fieldType = Some schema →
  parseFieldType (ResolveType fs (S fuel)) fieldType r = Some (schema, r).
Proof.
  intros Hbuiltin Hmark. revert schema.
  induction fieldType as [t IH] using Node_children_ind. intros schema Hself.
  rewrite Forall_forall in IH.
  destruct t as [name| | | | | | |X|Len Elt| | | | | | | | |]; try done;
    cbn [selfSchema parseFieldType] in *.
  - case_decide; [subst name | done]. injection Hself as <-.
    rewrite decide_False by (by rewrite Hbuiltin; intros []).
    rewrite ResolveType_S, decide_False by (by rewrite Hbuiltin; intros []).
    by rewrite Hmark.
  - apply IH; [simpl; by left | done].
  - destruct (selfSchema T Elt) as [item|] eqn:Hitem; [| done].
    injection Hself as <-.
    rewrite (IH Elt) with (schema := item); [done | | done].
    simpl. apply elem_of_app. right. by left.
Qed.

Lemma parseFiles_undeclared
    (resolve : string → TypeResolver → option (SchemaSpec * TypeResolver))
    (before rest : list GoFile) (structName : string) (r : TypeResolver) :
  Forall (λ f, declarationIn f structName = None) before →
  parseFiles resolve (before ++ rest) structName r = parseFiles resolve rest structName r.
Proof.
  induction 1 as [| file before Hfile _ IH]; [done |].
  cbn [app parseFiles]. unfold parseFileForType. unfold declarationIn in Hfile.
  destruct (fileAst file) as [node|]; [rewrite Hfile |]; exact IH.
Qed.

(** [parseField] by the JSON name of the field: a field without one is
    skipped; the schema of another one is set as the property of that name,
    with the description its comments give, if any. *)
Lemma parseField_unfold
    (resolve : string → TypeResolver → option (SchemaSpec * TypeResolver))
    (field : Field) (schema : SchemaSpec) (r : TypeResolver) :
  ∃ (required : bool) (describe : SchemaSpec → SchemaSpec),
    (∀ s, describe s = s ∨ ∃ text, describe s = withDescription s text) ∧
    parseField resolve field schema r =
      if decide (jsonNameOf field = "" ∨ jsonNameOf field = "-") then Some (schema, r)
      else
        '(fieldSchema, r) ← parseFieldType resolve (fieldType field) r;
        Some (mkSchemaSpec (Type_ schema) (Format schema) (Description schema) (Ref schema)
                (assocSet (jsonNameOf field) (describe fieldSchema) (Properties schema))
                (if required then Required schema ++ [jsonNameOf field]
                 else Required schema)
                (Items schema) (Enum schema) (AdditionalProperties schema), r).
Proof.
  destruct field as [names ty tagLit doc].
  assert (∃ describe : SchemaSpec → SchemaSpec,
            (∀ s, describe s = s ∨ ∃ text, describe s = withDescription s text) ∧
            describe = λ s, match doc with
                            | None => s
                            | Some comments =>
                                match extractComments comments with
                                | [] => s
                                | texts => withDescription s (Join texts " ")
                                end
                            end) as (describe & Hdescribe & ->).
  { eexists. split; [| reflexivity]. intros s. cbv beta.
    destruct doc as [comments|]; [| by left].
    destruct (extractComments comments); [by left | right; by eexists]. }
  unfold parseField, jsonNameOf, fieldType.
  destruct tagLit as [tagValue|].
  - destruct (decide (GoReflect.Get (Trim tagValue "`") "json" = "")) as [E | E].
    + exists true. eexists. split; [exact Hdescribe |]. by rewrite !decide_True by by left.
    + eexists _. eexists. split; [exact Hdescribe |]. reflexivity.
  - exists true. eexists. split; [exact Hdescribe |]. by rewrite !decide_True by by left.
Qed.

Lemma assocSet_in {A} (k : string) (v : A) (m : list (string * A)) :
  (k, v) ∈ assocSet k v m.
Proof.
  induction m as [| [k' v'] m IH]; simpl; [by left |].
  case_decide; [by left | by right].
Qed.

Lemma assocSet_other {A} (k k' : string) (v v' : A) (m : list (string * A)) :
  k' ≠ k → (k', v') ∈ m → (k', v') ∈ assocSet k v m.
Proof.
  intros Hne. induction m as [| [k1 v1] m IH]; simpl; [by intros ?%elem_of_nil |].
  intros [[= -> ->] | Hin]%elem_of_cons.
  - rewrite decide_False by done. by left.
  - case_decide; right; [done | by apply IH].
Qed.

(** The fields that follow a field in the struct keep the property of its
    name, unless one of them has the same JSON name. *)
Lemma parseFields_keeps
    (resolve : string → TypeResolver → option (SchemaSpec * TypeResolver))
    (name : string) (property : SchemaSpec) (fields : list Field) :
  Forall (λ field, jsonNameOf field ≠ name) fields →
  ∀ schema r schema' r',
    parseFields resolve fields schema r = Some (schema', r') →
    (name, property) ∈ Properties schema →
    (name, property) ∈ Properties schema'.
Proof.
  induction 1 as [| field rest Hfield _ IH]; intros schema r schema' r'; simpl.
  - by intros [= <- <-].
  - destruct (parseField_unfold resolve field schema r)
      as (required & describe & _ & ->).
    case_decide.
    + simpl. apply IH.
    + destruct (parseFieldType resolve (fieldType field) r) as [[s r1]|]; [| done].
      simpl. intros Hrest Hin. eapply IH; [exact Hrest |]. simpl.
      by apply assocSet_other.
Qed.

Lemma parseFields_Type
    (resolve : string → TypeResolver → option (SchemaSpec * TypeResolver))
    (fields : list Field) :
  ∀ schema r schema' r',
    parseFields resolve fields schema r = Some (schema', r') → Type_ schema' = Type_ schema.
Proof.
  induction fields as [| field rest IH]; intros schema r schema' r'; simpl.
  - by intros [= <- <-].
  - destruct (parseField_unfold resolve field schema r)
      as (required & describe & _ & ->).
    case_decide.
    + simpl. apply IH.
    + destruct (parseFieldType resolve (fieldType field) r) as [[s r1]|]; [| done].
      simpl. intros Hrest. by rewrite (IH _ _ _ _ Hrest).
Qed.

Lemma parseFields_app
    (resolve : string → TypeResolver → option (SchemaSpec * TypeResolver))
    (fields1 fields2 : list Field) :
  ∀ schema r,
    parseFields resolve (fields1 ++ fields2) schema r =
      '(schema, r) ← parseFields resolve fields1 schema r;
      parseFields resolve fields2 schema r.
Proof.
  induction fields1 as [| field rest IH]; intros schema r; simpl; [done |].
  destruct (parseField resolve field schema r) as [[s r1]|]; [| done].
  simpl. apply IH.
Qed.

(** The resolution of a struct that refers to itself.  The first file of
    the models directory that declares [typeName] declares a struct, one
    field of which has the type [typeName] itself, behind pointers and
    slices, and a JSON name that no later field has: the call returns the
    reference to the schema of the type, the schema is stored, and its
    property of that name is the reference to the schema itself. *)
Lemma self_reference_resolves (fs : list GoFile) (typeName : string) (r : TypeResolver)
    (fuel : nat) (before after : list GoFile) (file : GoFile)
    (earlier later : list Field) (names : list string) (ty : Node) (tag : option string)
    (comments doc : option (list string)) (self : SchemaSpec) :
  Type_ (resolveBuiltInType typeName) = "" → isProcessed r typeName = false →
  Contains typeName "." = false →
  findGoFiles fs "" = before ++ file :: after →
  Forall (λ f, declarationIn f typeName = None) before →
  declarationIn file typeName
    = Some (StructType (earlier ++ mkField names ty tag comments :: later), doc) →
  selfSchema typeName ty = Some self →
  jsonNameOf (mkField names ty tag comments) ≠ "" →
  jsonNameOf (mkField names ty tag comments) ≠ "-" →
  Forall (λ field, jsonNameOf field ≠ jsonNameOf (mkField names ty tag comments)) later →
  size (unprocessed (universe fs) r) ≤ fuel →
  ∃ schema r',
    ResolveType fs (S (S fuel)) typeName r = Some (refTo (cleanTypeName typeName), r') ∧
    isProcessed r' typeName = true ∧
    schemas r' !! cleanTypeName typeName = Some schema ∧
    Type_ schema = "object" ∧
    ∃ property,
      (jsonNameOf (mkField names ty tag comments), property) ∈ Properties schema ∧
      (property = self ∨ ∃ text, property = withDescription self text).
Proof.
  intros Hbuiltin Hmark Hdot Hfiles Hbefore Hdecl Hself Hname1 Hname2 Hlater Hsize.
  set (field := mkField names ty tag comments) in *.
  set (r0 := markProcessed r typeName).
  set (resolve := ResolveType fs (S fuel)).
  assert (∀ name r1, name ∈ universe fs → grows r0 r1 → returns (resolve name r1) r1)
    as Hresolve.
  { intros name r1 Hname Hr1. apply ResolveType_returns_inner; [done |].
    pose proof (subseteq_size _ _ (unprocessed_mono (universe fs) _ _ Hr1)).
    pose proof (subseteq_size _ _ (unprocessed_mono (universe fs) _ _
                                     (grows_mark r typeName))).
    fold r0 in H0. lia. }
  assert (isProcessed r0 typeName = true) as Hmark0.
  { unfold r0. rewrite isProcessed_mark. by rewrite decide_True. }
  (* the declaration is part of the models directory *)
  unfold declarationIn in Hdecl.
  destruct (fileAst file) as [node|] eqn:Hast; [| done].
  assert (file ∈ fs) as Hfile.
  { apply (findGoFiles_subset fs ""). rewrite Hfiles. apply elem_of_app. right. by left. }
  assert (Forall (λ f, namesIn (fieldType f) ⊆ universe fs) (earlier ++ field :: later))
    as Hnames.
  { assert (namesIn (StructType (earlier ++ field :: later)) ⊆ universe fs) as Hty.
    { eapply (findDecl_names typeName (universe fs) node); [| | exact Hdecl].
      - by eapply universe_file.
      - by intros ? ? ?. }
    apply Forall_forall. intros f Hf. etrans; [| exact Hty].
    apply namesIn_child. simpl. by apply list_elem_of_fmap_2. }
  apply Forall_app in Hnames as [Hearlier Hrest].
  apply Forall_cons in Hrest as [_ Hlater'].
  (* the call, down to the fields of the struct *)
  rewrite ResolveType_S, decide_False by (by rewrite Hbuiltin; intros []).
  rewrite Hmark. fold r0 resolve.
  unfold findAndParseType. rewrite Hdot.
  rewrite decide_False by (by intros Hne; apply Hne).
  rewrite Hfiles, parseFiles_undeclared by done.
  cbn [parseFiles]. unfold parseFileForType. rewrite Hast, Hdecl.
  unfold parseStruct.
  set (schema0 := match doc with Some _ => _ | None => _ end).
  assert (Type_ schema0 = "object") as Hschema0.
  { unfold schema0. by repeat case_match. }
  rewrite parseFields_app.
  destruct (parseFields_returns fs resolve r0 Hresolve earlier Hearlier schema0 r0)
    as (schema1 & r1 & Hearlier1 & Hr1); [apply grows_refl |].
  rewrite Hearlier1. cbn [mbind option_bind parseFields].
  destruct (parseField_unfold resolve field schema1 r1)
    as (required & describe & Hdescribe & ->).
  rewrite decide_False by tauto.
  change (fieldType field) with ty.
  change (parseFieldType resolve ty r1)
    with (parseFieldType (ResolveType fs (S fuel)) ty r1).
  rewrite (parseFieldType_self fs fuel typeName ty self r1 Hbuiltin (Hr1 _ Hmark0) Hself).
  cbn [mbind option_bind].
  set (schema2 := mkSchemaSpec _ _ _ _ _ _ _ _ _).
  destruct (parseFields_returns fs resolve r0 Hresolve later Hlater' schema2 r1)
    as (schema3 & r3 & Hlater3 & Hr3); [done |].
  fold resolve. rewrite Hlater3. cbn [mbind option_bind].
  exists schema3, (storeSchema r3 (cleanTypeName typeName) schema3).
  split; [done |]. split; [apply (Hr3 _ (Hr1 _ Hmark0)) |].
  split; [simpl; apply lookup_insert_eq |]. split.
  - rewrite (parseFields_Type _ _ _ _ _ _ Hlater3). simpl.
    by rewrite (parseFields_Type _ _ _ _ _ _ Hearlier1).
  - exists (describe self). split; [| apply Hdescribe].
    eapply parseFields_keeps; [exact Hlater | exact Hlater3 |].
    simpl. apply assocSet_in.
Qed.

(** C8 (cycle safety): [ResolveType] returns on every type name, from every
    resolver and whatever the files of the models directory declare: with a
    fuel that exceeds by two the number of type names in those files, and
    with every larger fuel, it returns one and the same result (so the calls
    of [ResolveType] from within itself end).  While a type is marked, a
    field of that type, directly or behind pointers and slices, resolves to
    the reference to the type's own schema (inside [array] schemas for
    slices), the resolver unchanged.  And so a struct that refers to itself
    resolves to a schema that refers to itself: when the first file of the
    models directory that declares [typeName] declares a struct with a field
    of the type [typeName] itself, directly or behind pointers and slices,
    under a JSON name that no later field has, the first resolution of
    [typeName] returns the reference to the schema of [typeName], with the
    name marked and the schema of the struct stored under the cleaned name,
    and the property of that JSON name in the stored schema is the reference
    to the schema of [typeName] itself (with the description that the
    comments of the field give, if any). *)
Theorem cycle_safety (fs : list GoFile) (typeName : string) (r : TypeResolver) :
  (∃ schema r', ∀ extra,
     ResolveType fs (extra + length (universe fs) + 2) typeName r = Some (schema, r')) ∧
  (Type_ (resolveBuiltInType typeName) = "" → isProcessed r typeName = true →
   ∀ fuel fieldType schema,
     selfSchema typeName fieldType = Some schema →
     parseFieldType (ResolveType fs (S fuel)) fieldType r = Some (schema, r)) ∧
  (Type_ (resolveBuiltInType typeName) = "" → isProcessed r typeName = false →
   Contains typeName "." = false →
   ∀ before file after earlier names ty tag comments later doc self,
     findGoFiles fs "" = before ++ file :: after →
     Forall (λ f, declarationIn f typeName = None) before →
     declarationIn file typeName
       = Some (StructType (earlier ++ mkField names ty tag comments :: later), doc) →
     selfSchema typeName ty = Some self →
     jsonNameOf (mkField names ty tag comments) ≠ "" →
     jsonNameOf (mkField names ty tag comments) ≠ "-" →
     Forall (λ field, jsonNameOf field ≠ jsonNameOf (mkField names ty tag comments)) later →
     ∃ schema r',
       (∀ extra,
          ResolveType fs (extra + length (universe fs) + 2) typeName r
            = Some (refTo (cleanTypeName typeName), r')) ∧
       isProcessed r' typeName = true ∧
       schemas r' !! cleanTypeName typeName = Some schema ∧
       Type_ schema = "object" ∧
       ∃ property,
         (jsonNameOf (mkField names ty tag comments), property) ∈ Properties schema ∧
         (property = self ∨ ∃ text, property = withDescription self text)).
Proof.
  split; [| split].
  - destruct (ResolveType_returns fs typeName r (length (universe fs)))
      as (schema & r' & H & _); [apply unprocessed_size |].
    exists schema, r'. intros extra.
    apply (ResolveType_fuel_le fs (S (S (length (universe fs))))); [lia | done].
  - intros Hbuiltin Hmark fuel fieldType schema Hself.
    by apply (parseFieldType_self fs fuel typeName).
  - intros Hbuiltin Hmark Hdot before file after earlier names ty tag comments later doc self
           Hfiles Hbefore Hdecl Hself Hname1 Hname2 Hlater.
    destruct (self_reference_resolves fs typeName r (length (universe fs)) before after file
                earlier later names ty tag comments doc self)
      as (schema & r' & Hcall & Hrest); try done; [apply unprocessed_size |].
    exists schema, r'. split; [| exact Hrest]. intros extra.
    apply (ResolveType_fuel_le fs (S (S (length (universe fs))))); [lia | done].
Qed.

Lemma cycle_safety_witness :
  (∃ schema r', ∀ extra,
     ResolveType [feedFile] (extra + length (universe [feedFile]) + 2) "Feed" NewTypeResolver
       = Some (schema, r')) ∧
  parseFieldType (ResolveType [feedFile] 1) (ArrayType None (StarExpr (Ident "Feed")))
                 (markProcessed NewTypeResolver "Feed")
    = Some (arrayOf (refTo "Feed"), markProcessed NewTypeResolver "Feed") ∧
  (∃ schema r',
     (∀ extra,
        ResolveType [feedFile] (extra + length (universe [feedFile]) + 2) "Feed" NewTypeResolver
          = Some (refTo "Feed", r')) ∧
     isProcessed r' "Feed" = true ∧
     schemas r' !! "Feed" = Some schema ∧
     Type_ schema = "object" ∧
     ∃ property,
       ("kids", property) ∈ Properties schema ∧
       (property = arrayOf (refTo "Feed")
        ∨ ∃ text, property = withDescription (arrayOf (refTo "Feed")) text)).
Proof.
  split; [| split].
  - exact (proj1 (cycle_safety [feedFile] "Feed" NewTypeResolver)).
  - exact (proj1 (proj2 (cycle_safety [feedFile] "Feed"
                           (markProcessed NewTypeResolver "Feed")))
             eq_refl eq_refl 0 (ArrayType None (StarExpr (Ident "Feed")))
             (arrayOf (refTo "Feed")) eq_refl).
  - apply (proj2 (proj2 (cycle_safety [feedFile] "Feed" NewTypeResolver))
             eq_refl eq_refl eq_refl [] feedFile []
             [ mkField ["ID"] (Ident "string") (jsonTag "id") None;
               mkField ["Parent"] (StarExpr (Ident "Feed")) (jsonTag "parent,omitempty") None ]
             ["Kids"] (ArrayType None (Ident "Feed")) (jsonTag "kids") None [] None
             (arrayOf (refTo "Feed"))).
    + reflexivity.
    + constructor.
    + reflexivity.
    + reflexivity.
    + vm_compute. discriminate.
    + vm_compute. discriminate.
    + constructor.
Defined.

(** The self-referential [Feed] of the source's own comment: its schema
    refers to itself under [parent] and under the items of [kids]. *)
Example feed_resolves :
  (ResolveType [feedFile] 2 "Feed" NewTypeResolver ≫=
     λ '(schema, r), Properties <$> schemas r !! "Feed") =
  Some [ ("id", typed "string"); ("parent", refTo "Feed");
         ("kids", arrayOf (refTo "Feed")) ].
Proof. vm_compute. reflexivity. Qed.

End Termination.

(** *** Resolving a type twice *)

Section Twice.
Import Resolver Analyzer Assembler.

(** A second call of [ResolveType] on the same name leaves the resolver,
    and with it the schema table, as the first call left it; it returns what
    the first call returned, except after a first call that found no
    declaration: that one returned the generic object, the second one
    returns a reference. *)
Lemma ResolveType_second_call (fs : list GoFile) (typeName : string)
    (r : TypeResolver) (fuel : nat) :
  size (unprocessed (universe fs) r) ≤ fuel →
  ∃ schema r',
    ResolveType fs (S (S fuel)) typeName r = Some (schema, r') ∧
    ∀ fuel', ∃ schema',
      ResolveType fs (S fuel') typeName r' = Some (schema', r') ∧
      (schema' = schema
       ∨ (schema = typed "object" ∧ schema' = refTo (cleanTypeName typeName))).
Proof.
  intros Hsize. rewrite ResolveType_S.
  case_decide as Hbuiltin.
  { eexists _, r. split; [done |]. intros fuel'. eexists. split; [| by left].
    rewrite ResolveType_S. by rewrite decide_True. }
  destruct (isProcessed r typeName) eqn:Hmark.
  { eexists _, r. split; [done |]. intros fuel'. eexists. split; [| by left].
    rewrite ResolveType_S, decide_False by (by intros Hne; apply Hne). by rewrite Hmark. }
  destruct (findAndParseType_returns fs (ResolveType fs (S fuel))
              (markProcessed r typeName)) with (typeName := typeName)
              (r := markProcessed r typeName) as (found & r1 & -> & Hr1).
  { intros name r2 Hname Hr2. apply ResolveType_returns_inner; [done |].
    pose proof (subseteq_size _ _ (unprocessed_mono (universe fs) _ _ Hr2)).
    pose proof (subseteq_size _ _ (unprocessed_mono (universe fs) _ _
                                     (grows_mark r typeName))). lia. }
  { apply grows_refl. }
  assert (isProcessed r1 typeName = true) as Hmark1.
  { apply Hr1. rewrite isProcessed_mark. by rewrite decide_True. }
  destruct found as [schema|]; cbn -[ResolveType]; eexists _, _; (split; [done |]);
    intros fuel'; eexists; (split; [rewrite ResolveType_S, decide_False by (by intros Hne; apply Hne) |]).
  - unfold isProcessed, storeSchema in *. simpl. by rewrite Hmark1.
  - by left.
  - by rewrite Hmark1.
  - by right.
Qed.

(** C7 on the code: [OrderResponse] is declared in no file of the models
    directory; the first call returns the generic object schema, the second
    call a reference to a schema that the table does not hold. *)
Theorem unresolved_type_resolved_twice :
  let r1 := markProcessed NewTypeResolver "OrderResponse" in
  ResolveType [feedFile] 3 "OrderResponse" NewTypeResolver = Some (typed "object", r1) ∧
  ResolveType [feedFile] 3 "OrderResponse" r1 = Some (refTo "OrderResponse", r1) ∧
  schemas r1 !! "OrderResponse" = None.
Proof. vm_compute. done. Qed.

(** C1 on the code: the response of that handler refers to the schema
    [OrderResponse], which no file of the models directory declares; in the
    assembled document the reference is still under [paths], and
    [components.schemas] has no entry at all. *)
Theorem unresolved_reference_dangles :
  let ac := mkAnalyzerContext "ms_orders" {[ "GetOrder" := getOrderHandler ]} ∅ None ∅ in
  let endpoint :=
    enhanceEndpoint ac (RouteGraph.mkEndpointInfo "/orders/:id" "Get" "GetOrder"
                                                  "ms_orders" []) in
  respSchema <$> Responses endpoint !! "200" = Some (refTo "OrderResponse") ∧
  (assemble [feedFile] 3 [endpoint] "Orders" "1.0.0" "" [] "" "" ≫=
     λ doc, Some (elements (collectTypeReferences doc),
                  elements (dom (Schemas doc)),
                  elements (danglingReferences doc)))
  = Some (["OrderResponse"], [], ["OrderResponse"]).
Proof. vm_compute. done. Qed.

End Twice.

(** *** More on strings *)

Lemma memByte_app (c : ascii) (s t : string) :
  memByte c (s +:+ t) = memByte c s || memByte c t.
Proof.
  induction s as [|a s IH]; [done |]. rewrite str_app_cons. simpl.
  by case_decide.
Qed.

Lemma memByte_from (c : ascii) (s : string) (n : nat) :
  memByte c s = false → memByte c (from n s) = false.
Proof.
  revert s. induction n as [|n IH]; intros s; [done |].
  destruct s as [|a s]; [done |]. simpl. case_decide; [done | apply IH].
Qed.

(** No part of a split holds the separator. *)
Lemma SplitByte_parts (c : ascii) (s : string) :
  Forall (without c) (SplitByte c s).
Proof.
  induction s as [|a s IH]; simpl; [by repeat constructor |].
  case_decide; [by constructor |].
  assert (∀ h, without c h → without c (String a h)) as Hcons.
  { intros h Hh. unfold without in *. simpl. by rewrite decide_False by done. }
  destruct (SplitByte c s) as [|h t]; [by repeat constructor; apply Hcons |].
  inversion IH; subst. constructor; [by apply Hcons | done].
Qed.

(** Joining the parts of a split gives the string back. *)
Lemma Join_SplitByte (c : ascii) (s : string) :
  Join (SplitByte c s) (String c "") = s.
Proof.
  induction s as [|a s IH]; [done |]. simpl. case_decide.
  - subst a. pose proof (SplitByte_nonempty c s).
    destruct (SplitByte c s) as [|h t] eqn:E; [done |].
    change (Join ("" :: h :: t) (String c "")) with ("" +:+ String c "" +:+ Join (h :: t) (String c "")).
    by rewrite IH.
  - pose proof (SplitByte_nonempty c s).
    destruct (SplitByte c s) as [|h t] eqn:E; [done |].
    destruct t as [|h' t].
    + simpl in *. by rewrite IH.
    + change (Join (String a h :: h' :: t) (String c ""))
        with (String a h +:+ String c "" +:+ Join (h' :: t) (String c "")).
      change (Join (h :: h' :: t) (String c ""))
        with (h +:+ String c "" +:+ Join (h' :: t) (String c "")) in IH.
      by rewrite str_app_cons, IH.
Qed.

Lemma SplitByte_single (c : ascii) (s : string) :
  without c s → SplitByte c s = [s].
Proof.
  unfold without. induction s as [|a s IH]; [done |]. simpl.
  case_decide; [done |]. intros Hs. rewrite IH by done. by rewrite decide_False by done.
Qed.

(** Splitting the join of parts without the separator gives the parts
    back. *)
Lemma SplitByte_Join (c : ascii) (parts : list string) :
  parts ≠ [] → Forall (without c) parts →
  SplitByte c (Join parts (String c "")) = parts.
Proof.
  intros Hne Hparts. induction Hparts as [| p rest Hp Hrest IH]; [done |].
  destruct rest as [| p' rest].
  - simpl. by apply SplitByte_single.
  - change (Join (p :: p' :: rest) (String c ""))
      with (p +:+ String c (Join (p' :: rest) (String c ""))).
    rewrite SplitByte_app, IH by done. by rewrite SplitByte_single.
Qed.

Lemma last_or_app (l1 l2 : list string) (d : string) :
  l2 ≠ [] → last_or (l1 ++ l2) d = last_or l2 d.
Proof.
  intros H. unfold last_or. induction l1 as [|x l1 IH]; [done |].
  simpl. rewrite IH. destruct (l1 ++ l2) eqn:E; [| done].
  by destruct l1, l2.
Qed.

Lemma HasPrefix_app (p t : string) : HasPrefix (p +:+ t) p = true.
Proof.
  induction p as [|a p IH]; [by destruct t |]. rewrite str_app_cons. simpl.
  by rewrite decide_True.
Qed.

Lemma HasPrefix_inv (s p : string) : HasPrefix s p = true → s = p +:+ from (String.length p) s.
Proof.
  revert s. induction p as [|a p IH]; intros s; [by destruct s |].
  destruct s as [|b s]; [done |]. simpl. case_decide; [subst | done].
  intros H. rewrite str_app_cons. f_equal. by apply IH.
Qed.

Lemma upto_app (p t : string) : upto (String.length p) (p +:+ t) = p.
Proof.
  induction p as [|a p IH]; [by destruct t |]. rewrite str_app_cons. simpl. by rewrite IH.
Qed.

Lemma from_app (p t : string) : from (String.length p) (p +:+ t) = t.
Proof. rewrite <- (Nat.add_0_r (String.length p)). apply str_from_app. Qed.

Lemma HasPrefix_upto (s p : string) :
  HasPrefix s p = bool_decide (upto (String.length p) s = p).
Proof.
  revert s. induction p as [|a p IH]; intros s; [by destruct s |].
  destruct s as [|b s]; [done |]. simpl. rewrite IH.
  case_decide; [subst |].
  - apply bool_decide_ext. split; [by intros -> | by intros [= ?]].
  - symmetry. apply bool_decide_eq_false. by intros [= ?].
Qed.

Lemma HasPrefix_length (s p : string) :
  HasPrefix s p = true → String.length p ≤ String.length s.
Proof.
  intros H. rewrite (HasPrefix_inv s p H), str_length_app. lia.
Qed.

Lemma HasPrefix_refl (s : string) : HasPrefix s s = true.
Proof. induction s as [|a s IH]; [done |]. simpl. by rewrite decide_True. Qed.

Lemma Index_length (s p : string) :
  is_Some (Index s p) → String.length p ≤ String.length s.
Proof.
  induction s as [|a s IH]; cbn [Index].
  - destruct p; [done |]. simpl. by intros [? ?].
  - destruct (HasPrefix (String a s) p) eqn:E.
    + intros _. by apply HasPrefix_length in E.
    + rewrite fmap_is_Some. intros H. apply IH in H. simpl. lia.
Qed.

Lemma HasPrefix_empty (s : string) : HasPrefix s "" = true.
Proof. by destruct s. Qed.

Lemma HasPrefix_byte (c a : ascii) (s : string) :
  HasPrefix (String a s) (String c "") = bool_decide (c = a).
Proof.
  cbn [HasPrefix]. rewrite HasPrefix_empty.
  destruct (decide (c = a)); [by rewrite bool_decide_eq_true_2 | by rewrite bool_decide_eq_false_2].
Qed.

Lemma Contains_byte (s : string) (c : ascii) :
  Contains s (String c "") = memByte c s.
Proof.
  unfold Contains. induction s as [|a s IH]; [done |].
  cbn [Index memByte]. rewrite HasPrefix_byte.
  destruct (decide (c = a)) as [-> | Hne].
  - rewrite (bool_decide_eq_true_2 (a = a)) by done. apply bool_decide_eq_true. by eexists.
  - rewrite (bool_decide_eq_false_2 (c = a)) by done. rewrite <- IH.
    apply bool_decide_ext. by rewrite fmap_is_Some.
Qed.

Section HelpersOfTheCommand.
Import SpecCommand.

(** X1: the hand-written [contains] of the microservice filter is
    [strings.Contains]: it holds exactly when [substr] occurs in [s], byte
    for byte (so the filter tells upper case from lower case). *)
Theorem contains_is_Contains (s substr : string) :
  contains s substr = Contains s substr.
Proof.
  unfold Contains. induction s as [|a s IH].
  - by destruct substr.
  - cbn [contains Index].
    destruct (HasPrefix (String a s) substr) eqn:E.
    + rewrite (bool_decide_eq_true_2 (is_Some (Some 0))) by by eexists.
      rewrite bool_decide_eq_true_2 by by apply HasPrefix_length.
      rewrite HasPrefix_upto in E. rewrite E. by rewrite orb_true_r.
    + assert (String a s ≠ substr) as Hne.
      { intros <-. by rewrite HasPrefix_refl in E. }
      assert (String.length substr ≠ 0) as Hlen.
      { intros H. destruct substr; done. }
      rewrite (bool_decide_eq_false_2 (String a s = substr)) by done.
      rewrite (bool_decide_eq_false_2 (String.length substr = 0)) by done.
      rewrite <- HasPrefix_upto, E, IH. cbn [orb].
      destruct (bool_decide (is_Some (Index s substr))) eqn:Hs.
      * apply bool_decide_eq_true in Hs.
        rewrite (bool_decide_eq_true_2 (is_Some (S <$> Index s substr)))
          by by rewrite fmap_is_Some.
        apply Index_length in Hs.
        rewrite bool_decide_eq_true_2; [done | simpl; lia].
      * apply bool_decide_eq_false in Hs.
        rewrite (bool_decide_eq_false_2 (is_Some (S <$> Index s substr)))
          by by rewrite fmap_is_Some.
        by rewrite andb_false_r.
Qed.

Lemma joinFrom_Join (result : string) (parts : list string) (sep : string) :
  joinFrom result parts sep =
    match parts with
    | [] => result
    | _ => result +:+ sep +:+ Join parts sep
    end.
Proof.
  revert result. induction parts as [| part rest IH]; intros result; [done |].
  simpl. rewrite IH. destruct rest as [| part' rest]; [done |].
  by rewrite !str_app_assoc.
Qed.

(** X2: the hand-written [joinParts] is [strings.Join]. *)
Theorem joinParts_is_Join (parts : list string) (sep : string) :
  joinParts parts sep = Join parts sep.
Proof.
  destruct parts as [| first rest]; [done |]. simpl.
  rewrite joinFrom_Join. by destruct rest.
Qed.

End HelpersOfTheCommand.

Lemma HasSuffix_app (d t : string) : HasSuffix (d +:+ t) t = true.
Proof.
  unfold HasSuffix. rewrite str_length_app.
  replace (String.length d + String.length t - String.length t) with (String.length d) by lia.
  rewrite from_app. rewrite !bool_decide_eq_true_2; [done | done | lia].
Qed.

Lemma TrimSuffix_app (d t : string) : TrimSuffix (d +:+ t) t = d.
Proof.
  unfold TrimSuffix. rewrite HasSuffix_app, str_length_app.
  replace (String.length d + String.length t - String.length t) with (String.length d) by lia.
  apply upto_app.
Qed.

Lemma upto_from (n : nat) (s : string) : upto n s +:+ from n s = s.
Proof.
  revert s. induction n as [|n IH]; intros s; [done |].
  destruct s as [|a s]; [done |]. simpl. by rewrite str_app_cons, IH.
Qed.

Lemma HasSuffix_inv (s t : string) :
  HasSuffix s t = true → s = upto (String.length s - String.length t) s +:+ t.
Proof.
  unfold HasSuffix. intros [_ H%bool_decide_eq_true]%andb_true_iff.
  etrans; [symmetry; apply (upto_from (String.length s - String.length t)) |].
  by rewrite H.
Qed.

Lemma length_upto (n : nat) (s : string) : String.length (upto n s) ≤ n.
Proof.
  revert s. induction n as [|n IH]; intros s; [done |].
  destruct s as [|a s]; simpl; [lia |]. specialize (IH s). lia.
Qed.

Lemma length_from (n : nat) (s : string) : String.length (from n s) ≤ String.length s - n.
Proof.
  revert s. induction n as [|n IH]; intros s; [simpl; lia |].
  destruct s as [|a s]; simpl; [lia |]. apply IH.
Qed.

Lemma length_TrimPrefix (s p : string) : String.length (TrimPrefix s p) ≤ String.length s.
Proof.
  unfold TrimPrefix. destruct (HasPrefix s p); [| done].
  pose proof (length_from (String.length p) s). lia.
Qed.

Lemma Index_byte_app (c : ascii) (s t : string) :
  without c s → Index (s +:+ String c t) (String c "") = Some (String.length s).
Proof.
  unfold without. induction s as [|a s IH]; intros Hs.
  - rewrite str_app_empty_l. cbn [Index]. rewrite HasPrefix_byte.
    by rewrite bool_decide_eq_true_2.
  - rewrite str_app_cons. cbn [Index]. rewrite HasPrefix_byte.
    simpl in Hs. destruct (decide (c = a)); [done |].
    rewrite bool_decide_eq_false_2 by done. by rewrite IH.
Qed.

Lemma LastIndex_none (c : ascii) (s : string) :
  without c s → LastIndex s (String c "") = None.
Proof.
  unfold without. induction s as [|a s IH]; intros Hs; [done |].
  cbn [LastIndex]. simpl in Hs. destruct (decide (c = a)); [done |].
  rewrite IH by done. rewrite HasPrefix_byte. by rewrite bool_decide_eq_false_2.
Qed.

Lemma LastIndex_byte_app (c : ascii) (s t : string) :
  without c t → LastIndex (s +:+ String c t) (String c "") = Some (String.length s).
Proof.
  intros Ht. induction s as [|a s IH].
  - rewrite str_app_empty_l. cbn [LastIndex]. rewrite LastIndex_none by done.
    rewrite HasPrefix_byte. by rewrite bool_decide_eq_true_2.
  - rewrite str_app_cons. cbn [LastIndex]. by rewrite IH.
Qed.

Lemma LastIndex_le (s p : string) (i : nat) :
  LastIndex s p = Some i → i ≤ String.length s.
Proof.
  revert i. induction s as [|a s IH]; intros i; cbn [LastIndex].
  - destruct (HasPrefix "" p); [| done]. intros [= <-]. done.
  - destruct (LastIndex s p) as [j|].
    + intros [= <-]. specialize (IH j eq_refl). simpl. lia.
    + destruct (HasPrefix (String a s) p); [| done]. intros [= <-]. lia.
Qed.

(** *** Paths of the document *)

Section DocumentPaths.
Import Analyzer Assembler.

Lemma braces_without (part : string) : without "/" part → without "/" (braces part).
Proof.
  unfold without, braces, TrimPrefix. intros H.
  destruct (HasPrefix part ":"); [| done].
  rewrite !memByte_app, (memByte_from _ _ _ H). done.
Qed.

Lemma braces_braces (part : string) : braces (braces part) = braces part.
Proof.
  unfold braces. destruct (HasPrefix part ":") eqn:E; [| by rewrite E].
  change ("{" +:+ ?s) with (String "{" s). by rewrite HasPrefix_byte.
Qed.

(** The segments of a document path are the segments of the route path,
    each through [braces]. *)
Lemma Split_normalizePath (path : string) :
  Split (normalizePath path) "/" = braces <$> Split path "/".
Proof.
  unfold normalizePath, Split. apply SplitByte_Join.
  - pose proof (SplitByte_nonempty "/" path). by destruct (SplitByte "/" path).
  - apply Forall_fmap. eapply Forall_impl; [apply SplitByte_parts |].
    intros part. apply braces_without.
Qed.

(** X3: [normalizePath] of the assembler is idempotent: a path that is
    in the [{param}] form already is left as it is. *)
Theorem document_path_idempotent (path : string) :
  normalizePath (normalizePath path) = normalizePath path.
Proof.
  unfold normalizePath at 1. rewrite Split_normalizePath.
  unfold normalizePath. f_equal. rewrite <- list_fmap_compose.
  apply list_fmap_ext. intros _ part _. apply braces_braces.
Qed.

Lemma pathParametersOf_names (parts : list string) (name : string) :
  name ∈ paramName <$> pathParametersOf parts →
  ∃ part, part ∈ parts ∧ HasPrefix part ":" = true ∧ name = TrimPrefix part ":".
Proof.
  induction parts as [| part rest IH]; simpl; [by intros ?%elem_of_nil |].
  destruct (HasPrefix part ":") eqn:E.
  - cbn [fmap list_fmap]. intros [-> | H]%elem_of_cons.
    + exists part. split; [by left | done].
    + destruct (IH H) as (part' & ? & ? & ?). exists part'. split; [by right | done].
  - intros H. destruct (IH H) as (part' & ? & ? & ?). exists part'. split; [by right | done].
Qed.

(** X4: every path parameter that [extractPathParameters] reads off a
    route path has its placeholder in the document path: [{name}] is a
    segment of [normalizePath path]. *)
Theorem path_parameter_has_placeholder (path name : string) :
  name ∈ paramName <$> extractPathParameters path →
  ("{" +:+ name +:+ "}") ∈ Split (normalizePath path) "/".
Proof.
  intros (part & Hpart & Hprefix & ->)%pathParametersOf_names.
  rewrite Split_normalizePath.
  replace ("{" +:+ TrimPrefix part ":" +:+ "}") with (braces part)
    by (unfold braces; by rewrite Hprefix).
  by apply list_elem_of_fmap_2.
Qed.

Lemma path_parameter_has_placeholder_witness :
  "{id}" ∈ Split (normalizePath "/orders/:id/items") "/".
Proof.
  apply (path_parameter_has_placeholder "/orders/:id/items" "id").
  vm_compute. constructor.
Defined.

End DocumentPaths.

(** *** Type names *)

Section TypeNames.
Import Resolver.

Lemma mapPackageNameToDir_models (d : string) :
  mapPackageNameToDir (d +:+ "_models") = d.
Proof.
  unfold mapPackageNameToDir, Split.
  change (d +:+ "_models") with (d +:+ String "_" "models").
  rewrite SplitByte_app. change (SplitByte "_" "models") with ["models"].
  rewrite last_or_app by done. rewrite length_app. simpl.
  pose proof (SplitByte_nonempty "_" d).
  rewrite decide_True.
  - replace (length (SplitByte "_" d) + 1 - 1) with (length (SplitByte "_" d)) by lia.
    rewrite take_app_length. apply Join_SplitByte.
  - split; [| done]. destruct (SplitByte "_" d); [done | simpl; lia].
Qed.

(** X5: [mapPackageNameToDir] drops a final [_models] of the package
    name, and nothing else: a name that does not end in [_models] is its
    own directory. *)
Theorem mapPackageNameToDir_TrimSuffix (pkgName : string) :
  mapPackageNameToDir pkgName = TrimSuffix pkgName "_models".
Proof.
  destruct (HasSuffix pkgName "_models") eqn:E.
  - rewrite (HasSuffix_inv _ _ E). by rewrite mapPackageNameToDir_models, TrimSuffix_app.
  - unfold TrimSuffix. rewrite E. unfold mapPackageNameToDir, Split.
    case_decide as H; [| done]. destruct H as [Hlen Hlast].
    exfalso.
    assert (SplitByte "_" pkgName ≠ []) as Hne by apply SplitByte_nonempty.
    destruct (exists_last Hne) as (init & final & Hparts).
    unfold last_or in Hlast. rewrite Hparts, last_last in Hlast. subst final.
    assert (init ≠ []) as Hinit.
    { intros ->. rewrite Hparts in Hlen. simpl in Hlen. lia. }
    pose proof (Join_SplitByte "_" pkgName) as Hjoin.
    rewrite Hparts, Join_app in Hjoin by done.
    rewrite <- Hjoin in E.
    change (Join init "_" +:+ "_" +:+ Join ["models"] "_")
      with (Join init "_" +:+ "_models") in E.
    by rewrite HasSuffix_app in E.
Qed.

Lemma plain_without (typeName : string) :
  without "." (if decide (1 < length (Split typeName "."))
               then last_or (Split typeName ".") "" else typeName).
Proof.
  unfold Split. pose proof (SplitByte_parts "." typeName) as Hparts.
  pose proof (SplitByte_nonempty "." typeName) as Hne.
  pose proof (Join_SplitByte "." typeName) as Hjoin.
  destruct (exists_last Hne) as (init & final & E). rewrite E in *.
  apply Forall_app in Hparts as [_ Hfinal%Forall_inv].
  case_decide as Hlen.
  - unfold last_or. by rewrite last_last.
  - destruct init; [simpl in Hjoin; by rewrite <- Hjoin |].
    rewrite length_app in Hlen. simpl in Hlen. lia.
Qed.

Lemma cleanTypeNameFrom_without (fuel : nat) (typeName : string) :
  without "." (cleanTypeNameFrom fuel typeName).
Proof.
  revert typeName. induction fuel as [| fuel IH]; intros typeName; cbn [cleanTypeNameFrom];
    (destruct (Contains typeName "["); [| apply plain_without]);
    (destruct (Index typeName "[") as [start|]; [| apply plain_without]);
    (destruct (LastIndex typeName "]") as [end_|]; [| apply plain_without]);
    (destruct (decide (start < end_)); [| apply plain_without]).
  - apply plain_without.
  - apply IH.
Qed.

(** X6: a cleaned type name has no package qualifier: no [.] occurs in
    [cleanTypeName typeName], whatever the type name. *)
Theorem cleanTypeName_unqualified (typeName : string) :
  Contains (cleanTypeName typeName) "." = false.
Proof. rewrite Contains_byte. apply cleanTypeNameFrom_without. Qed.

(** The recursion of [cleanTypeName] is on a shorter string, so that the
    length of the type name is enough fuel. *)
Lemma cleanTypeNameFrom_fuel (fuel1 : nat) :
  ∀ fuel2 typeName,
    String.length typeName ≤ fuel1 → String.length typeName ≤ fuel2 →
    cleanTypeNameFrom fuel1 typeName = cleanTypeNameFrom fuel2 typeName.
Proof.
  induction fuel1 as [| fuel1 IH]; intros fuel2 typeName H1 H2.
  - destruct typeName; [| simpl in H1; lia]. by destruct fuel2.
  - destruct fuel2 as [| fuel2].
    { destruct typeName; [done | simpl in H2; lia]. }
    cbn [cleanTypeNameFrom].
    destruct (Contains typeName "["); [| done].
    destruct (Index typeName "[") as [start|]; [| done].
    destruct (LastIndex typeName "]") as [end_|] eqn:Hend; [| done].
    case_decide as Hlt; [| done].
    apply LastIndex_le in Hend.
    assert (String.length (TrimPrefix (slice (start + 1) end_ typeName) "[]")
            < String.length typeName) as Hshort.
    { eapply Nat.le_lt_trans; [apply length_TrimPrefix |].
      unfold slice. eapply Nat.le_lt_trans; [apply length_upto |]. lia. }
    apply IH; lia.
Qed.

(** X7: of a type name with a bracketed part, [cleanTypeName] keeps the
    bracketed part only, between the first [[] and the last []], without a
    leading [[]]: the type argument of a generic type, but also the key type
    of a map type, and nothing at all of a slice type. *)
Theorem cleanTypeName_brackets (outer inner rest : string) :
  without "[" outer → without "]" rest →
  cleanTypeName (outer +:+ "[" +:+ inner +:+ "]" +:+ rest) =
    cleanTypeName (TrimPrefix inner "[]").
Proof.
  intros Houter Hrest.
  set (typeName := outer +:+ "[" +:+ inner +:+ "]" +:+ rest).
  assert (String.length typeName
          = String.length outer + S (String.length inner + S (String.length rest))) as Hlen.
  { unfold typeName. by rewrite !str_length_app. }
  unfold cleanTypeName at 1. rewrite Hlen, Nat.add_succ_r. cbn [cleanTypeNameFrom].
  assert (Contains typeName "[" = true) as ->.
  { rewrite Contains_byte. unfold typeName. rewrite memByte_app.
    change ("[" +:+ ?s) with (String "[" s). simpl. by rewrite orb_true_r. }
  assert (Index typeName "[" = Some (String.length outer)) as ->.
  { unfold typeName. change ("[" +:+ ?s) with (String "[" s). by apply Index_byte_app. }
  assert (LastIndex typeName "]" = Some (String.length outer + S (String.length inner))) as ->.
  { unfold typeName.
    replace (outer +:+ "[" +:+ inner +:+ "]" +:+ rest)
      with ((outer +:+ "[" +:+ inner) +:+ String "]" rest)
      by (by rewrite !str_app_assoc).
    rewrite LastIndex_byte_app by done. by rewrite !str_length_app. }
  rewrite decide_True by lia.
  assert (slice (String.length outer + 1) (String.length outer + S (String.length inner)) typeName
          = inner) as ->.
  { unfold slice, typeName.
    replace (String.length outer + S (String.length inner) - (String.length outer + 1))
      with (String.length inner) by lia.
    change ("[" +:+ ?s) with (String "[" s).
    replace (String.length outer + 1) with (String.length outer + 1) by done.
    rewrite str_from_app. cbn [from]. apply upto_app. }
  apply cleanTypeNameFrom_fuel; [| done].
  pose proof (length_TrimPrefix inner "[]"). lia.
Qed.

Lemma cleanTypeName_brackets_witness :
  cleanTypeName ("operators.PaginatedResult" +:+ "[" +:+ "[]deals_models.DealPartnerList"
                   +:+ "]" +:+ "")
    = cleanTypeName (TrimPrefix "[]deals_models.DealPartnerList" "[]")
  ∧ cleanTypeName ("" +:+ "[" +:+ "" +:+ "]" +:+ "deals_models.Deal")
    = cleanTypeName (TrimPrefix "" "[]").
Proof.
  split.
  - apply (cleanTypeName_brackets "operators.PaginatedResult"
             "[]deals_models.DealPartnerList" ""); reflexivity.
  - apply (cleanTypeName_brackets "" "" "deals_models.Deal"); reflexivity.
Defined.

End TypeNames.

Example cleanTypeName_of_composite_types :
  cleanTypeName "operators.PaginatedResult[[]deals_models.DealPartnerList]" = "DealPartnerList"
  ∧ cleanTypeName "[]deals_models.Deal" = ""
  ∧ cleanTypeName "map[string]deals_models.Deal" = "string".
Proof. vm_compute. done. Qed.

(** *** Occurrences of a string in another *)

Lemma from_from (n m : nat) (s : string) : from m (from n s) = from (n + m) s.
Proof.
  revert s. induction n as [|n IH]; intros s; [done |].
  destruct s as [|a s]; [by destruct m | apply IH].
Qed.

Lemma Index_HasPrefix (s t : string) (n : nat) :
  Index s t = Some n → HasPrefix (from n s) t = true.
Proof.
  revert n. induction s as [|a s IH]; intros n; cbn [Index].
  - destruct (HasPrefix "" t) eqn:E; [| done]. by intros [= <-].
  - destruct (HasPrefix (String a s) t) eqn:E; [by intros [= <-] |].
    destruct (Index s t) as [i|]; [| done]. intros [= <-]. by apply IH.
Qed.

Lemma HasPrefix_Contains (s t : string) (n : nat) :
  HasPrefix (from n s) t = true → Contains s t = true.
Proof.
  unfold Contains. revert s. induction n as [|n IH]; intros s H.
  - apply bool_decide_eq_true. cbn [from] in H. destruct s; cbn [Index]; rewrite H; by eexists.
  - destruct s as [|a s].
    + apply bool_decide_eq_true. cbn [Index]. cbn [from] in H. rewrite H. by eexists.
    + specialize (IH s H). apply bool_decide_eq_true in IH.
      apply bool_decide_eq_true. cbn [Index].
      destruct (HasPrefix (String a s) t); [by eexists | by rewrite fmap_is_Some].
Qed.

Lemma HasPrefix_drop (s p q : string) :
  HasPrefix s (p +:+ q) = true → HasPrefix (from (String.length p) s) q = true.
Proof.
  revert s. induction p as [|a p IH]; intros s; [done |].
  rewrite str_app_cons. destruct s as [|b s]; [done |]. simpl.
  case_decide; [apply IH | done].
Qed.

(** A string that holds [p ++ q] holds [q]. *)
Lemma Contains_end (s p q : string) :
  Contains s (p +:+ q) = true → Contains s q = true.
Proof.
  intros [n Hn]%bool_decide_eq_true.
  apply Index_HasPrefix, HasPrefix_drop in Hn. rewrite from_from in Hn.
  by eapply HasPrefix_Contains.
Qed.

(** *** More on the security derivation *)

Section SecurityShape.
Import Analyzer.

Lemma cleanedParts_nonempty (parts : list string) :
  Forall (λ scope, scope ≠ "") (cleanedParts parts).
Proof.
  induction parts as [| part rest IH]; simpl; [done |].
  case_decide; [done | by constructor].
Qed.

Lemma extractPermissions_nonempty (mw : string) :
  Forall (λ scope, scope ≠ "") (extractPermissionsFromMiddleware mw).
Proof.
  unfold extractPermissionsFromMiddleware.
  apply Forall_forall. intros scope (l & Hscope & Hl)%elem_of_concat.
  apply list_elem_of_fmap in Hl as ([prefix multi] & -> & _).
  revert scope Hscope. apply Forall_forall.
  unfold permissionsOfPattern.
  destruct (Index mw prefix); [| done]. case_decide; [| done].
  destruct multi; apply cleanedParts_nonempty.
Qed.

Lemma scanMiddleware_scopes (middleware : list string) :
  ∀ scopes0 hasAuth0 scopes hasAuth,
    Forall (λ scope, scope ≠ "") scopes0 →
    scanMiddleware middleware scopes0 hasAuth0 = Some (scopes, hasAuth) →
    Forall (λ scope, scope ≠ "") scopes.
Proof.
  induction middleware as [| mw rest IH]; intros scopes0 hasAuth0 scopes hasAuth H0; simpl.
  - by intros [= <- <-].
  - destruct (Contains mw "NotAuthenticated"); [done |].
    apply IH. apply Forall_app. split; [done | apply extractPermissions_nonempty].
Qed.

(** X8: the security list of an endpoint is empty, or the one
    requirement [bearerAuth] without scopes, or the one requirement
    [permissions] with at least one scope, none of them the empty string. *)
Theorem extractSecurity_shape (middleware : list string) :
  extractSecurity middleware = []
  ∨ extractSecurity middleware = [mkSecurityRequirement "bearerAuth" []]
  ∨ ∃ scopes, scopes ≠ [] ∧ Forall (λ scope, scope ≠ "") scopes ∧
              extractSecurity middleware = [mkSecurityRequirement "permissions" scopes].
Proof.
  unfold extractSecurity.
  destruct (scanMiddleware middleware [] false) as [[scopes hasAuth]|] eqn:E; [| by left].
  destruct hasAuth; [| by left]. case_decide as Hlen; [| right; by left].
  right. right. exists scopes.
  split; [intros ->; simpl in Hlen; lia |]. split; [| done].
  by eapply scanMiddleware_scopes.
Qed.

Lemma scanMiddleware_no_marker (middleware : list string) :
  Forall (λ mw, Contains mw "Authenticated" = false) middleware →
  ∀ scopes, ∃ scopes', scanMiddleware middleware scopes false = Some (scopes', false).
Proof.
  induction 1 as [| mw rest Hmw _ IH]; intros scopes; simpl; [by eexists |].
  assert (Contains mw "NotAuthenticated" = false) as ->.
  { destruct (Contains mw "NotAuthenticated") eqn:E; [| done].
    apply (Contains_end mw "Not" "Authenticated") in E. congruence. }
  assert (Contains mw "IsAuthenticated" = false) as ->.
  { destruct (Contains mw "IsAuthenticated") eqn:E; [| done].
    apply (Contains_end mw "Is" "Authenticated") in E. congruence. }
  rewrite Hmw. simpl. apply IH.
Qed.

(** X9: permission calls alone give no security requirement: for a
    middleware chain in which no entry holds [Authenticated], the security
    list is empty, whatever scopes the chain names. *)
Theorem no_authentication_no_security (middleware : list string) :
  Forall (λ mw, Contains mw "Authenticated" = false) middleware →
  extractSecurity middleware = [].
Proof.
  intros H. unfold extractSecurity.
  by destruct (scanMiddleware_no_marker middleware H []) as (scopes & ->).
Qed.

Lemma no_authentication_no_security_witness :
  extractPermissionsFromMiddleware "hasPermission(orders:write)" = ["orders:write"]
  ∧ extractSecurity ["tracing"; "hasPermission(orders:write)"] = [].
Proof.
  split; [reflexivity |].
  apply (no_authentication_no_security ["tracing"; "hasPermission(orders:write)"]).
  repeat constructor.
Defined.

End SecurityShape.

(** *** More on the enhancer *)

Section Enhancer.
Import Analyzer.

(** What the analysis of a call leaves as it is. *)
Lemma analyzeCallExpr_keeps (ac : analyzerContext) (Fun : Node)
    (args : list Node) (spec : EndpointSpec) (varTypes : gmap string string)
    (receiverType : string) :
  let spec' := analyzeCallExpr ac Fun args spec varTypes receiverType in
  (Path spec', Handler spec', MSName spec', Tags spec', Security spec') =
    (Path spec, Handler spec, MSName spec, Tags spec, Security spec).
Proof. unfold analyzeCallExpr. repeat case_match; done. Qed.

Lemma analyzeFunctionBody_keeps (ac : analyzerContext) (body : Node)
    (spec : EndpointSpec) (receiverType : string) :
  let spec' := analyzeFunctionBody ac body spec receiverType in
  (Path spec', Handler spec', MSName spec', Tags spec', Security spec') =
    (Path spec, Handler spec, MSName spec, Tags spec, Security spec).
Proof.
  unfold analyzeFunctionBody.
  apply (Inspect_preserves _
           (λ s, (Path s, Handler s, MSName s, Tags s, Security s) =
                 (Path spec, Handler spec, MSName spec, Tags spec, Security spec)));
    [| done].
  intros n s Hs. destruct n as [| | |Fun Args| | | | | | | | | | | | | |]; try done.
  simpl. etrans; [apply analyzeCallExpr_keeps | done].
Qed.

(** [enhanceEndpoint] after the handler is found: the analysis of the body
    gives a spec to which the missing path parameters and, when there is no
    response, the default response are added. *)
Lemma enhanceEndpoint_found (ac : analyzerContext) (basic : RouteGraph.EndpointInfo)
    (handlerFunc : Node) :
  functions ac !! RouteGraph.Handler basic = Some handlerFunc →
  ∃ analyzed,
    (Path analyzed, Handler analyzed, MSName analyzed, Tags analyzed, Security analyzed) =
      (RouteGraph.Path basic, RouteGraph.Handler basic, RouteGraph.MSName basic,
       assignTags ac (RouteGraph.Path basic),
       extractSecurity (RouteGraph.Middleware basic)) ∧
    enhanceEndpoint ac basic =
      let spec :=
        withParameters analyzed
          (Parameters analyzed ++
             missingParameters (Parameters analyzed)
                               (extractPathParameters (Path analyzed))) in
      if decide (size (Responses spec) = 0)
      then withResponses spec (<["200" := defaultResponse]> (Responses spec))
      else spec.
Proof.
  intros Hfound. unfold enhanceEndpoint. rewrite Hfound. cbv zeta.
  destruct (match handlerFunc with
            | FuncDecl doc _ _ _ body => (doc, body)
            | _ => (None, None)
            end) as [doc body].
  set (spec1 := match extractComments <$> doc with
                | Some (first :: more) => _
                | _ => _
                end).
  set (spec2 := match body with Some body0 => _ | None => spec1 end).
  exists spec2. split; [| done].
  assert ((Path spec1, Handler spec1, MSName spec1, Tags spec1, Security spec1) =
          (RouteGraph.Path basic, RouteGraph.Handler basic, RouteGraph.MSName basic,
           assignTags ac (RouteGraph.Path basic),
           extractSecurity (RouteGraph.Middleware basic))) as H1.
  { unfold spec1. by repeat case_match. }
  unfold spec2. destruct body as [body|]; [| done].
  etrans; [apply analyzeFunctionBody_keeps | done].
Qed.

(** X10: the enhancer takes the handler, the microservice, the tags and
    the security of an endpoint from the route alone: whatever the handler's
    body holds, and whether the handler is found or not, the tags are those
    of the path and the security is that of the middleware chain. *)
Theorem enhanceEndpoint_keeps (ac : analyzerContext) (basic : RouteGraph.EndpointInfo) :
  let spec := enhanceEndpoint ac basic in
  Handler spec = RouteGraph.Handler basic ∧
  MSName spec = RouteGraph.MSName basic ∧
  Tags spec = assignTags ac (RouteGraph.Path basic) ∧
  Security spec = extractSecurity (RouteGraph.Middleware basic).
Proof.
  intros spec. unfold spec.
  destruct (functions ac !! RouteGraph.Handler basic) as [handlerFunc|] eqn:Hfound.
  - destruct (enhanceEndpoint_found ac basic handlerFunc Hfound) as (analyzed & Hkeep & ->).
    injection Hkeep as Hp Hh Hm Ht Hs. cbv zeta. by case_decide.
  - unfold enhanceEndpoint. by rewrite Hfound.
Qed.

Lemma pathParametersOf_complete (parts : list string) (part : string) :
  part ∈ parts → HasPrefix part ":" = true →
  TrimPrefix part ":" ∈ paramName <$> pathParametersOf parts.
Proof.
  intros Hin Hprefix. induction Hin as [part rest | part part' rest _ IH]; simpl.
  - rewrite Hprefix, fmap_cons. by left.
  - specialize (IH Hprefix).
    destruct (HasPrefix part' ":"); [rewrite fmap_cons; by right | done].
Qed.

Lemma missingParameters_covers (existing pathParams : list ParameterSpec) (name : string) :
  name ∈ paramName <$> pathParams →
  name ∈ paramName <$> (existing ++ missingParameters existing pathParams).
Proof.
  rewrite fmap_app, elem_of_app.
  induction pathParams as [| p rest IH]; simpl; [by intros ?%elem_of_nil |].
  intros [-> | Hrest]%elem_of_cons.
  - case_bool_decide; [by left | right; by left].
  - destruct (IH Hrest) as [? | ?]; [by left |].
    right. case_bool_decide; [done | by right].
Qed.

(** X11: when the handler of an endpoint is found, every [:name] segment
    of its path has a parameter of that name in the enhanced spec, whether
    the handler's body reads the parameter or not. *)
Theorem enhanceEndpoint_path_parameters (ac : analyzerContext)
    (basic : RouteGraph.EndpointInfo) (part : string) :
  is_Some (functions ac !! RouteGraph.Handler basic) →
  part ∈ Split (RouteGraph.Path basic) "/" → HasPrefix part ":" = true →
  TrimPrefix part ":" ∈ paramName <$> Parameters (enhanceEndpoint ac basic).
Proof.
  intros [handlerFunc Hfound] Hpart Hprefix.
  destruct (enhanceEndpoint_found ac basic handlerFunc Hfound) as (analyzed & Hkeep & ->).
  injection Hkeep as Hp _ _ _ _. cbv zeta.
  assert (TrimPrefix part ":" ∈ paramName <$>
            (Parameters analyzed ++
               missingParameters (Parameters analyzed)
                                 (extractPathParameters (Path analyzed)))) as H.
  { apply missingParameters_covers. rewrite Hp. by apply pathParametersOf_complete. }
  by case_decide.
Qed.

Lemma enhanceEndpoint_path_parameters_witness :
  "id" ∈ paramName <$>
    Parameters (enhanceEndpoint
                  (mkAnalyzerContext "ms_orders" {[ "GetOrder" := getOrderHandler ]} ∅ None ∅)
                  (RouteGraph.mkEndpointInfo "/orders/:id" "Get" "GetOrder" "ms_orders" [])).
Proof.
  apply (enhanceEndpoint_path_parameters
           (mkAnalyzerContext "ms_orders" {[ "GetOrder" := getOrderHandler ]} ∅ None ∅)
           (RouteGraph.mkEndpointInfo "/orders/:id" "Get" "GetOrder" "ms_orders" [])
           ":id").
  - by eexists.
  - vm_compute. repeat constructor.
  - reflexivity.
Defined.

(** X12: when the handler of an endpoint is found, the enhanced spec has
    at least one response: those the analysis of its body records or, when
    it records none, the default response under [200]. *)
Theorem enhanceEndpoint_has_response (ac : analyzerContext)
    (basic : RouteGraph.EndpointInfo) :
  is_Some (functions ac !! RouteGraph.Handler basic) →
  ∃ code response, Responses (enhanceEndpoint ac basic) !! code = Some response.
Proof.
  intros [handlerFunc Hfound].
  destruct (enhanceEndpoint_found ac basic handlerFunc Hfound) as (analyzed & _ & ->).
  cbv zeta. case_decide as Hsize.
  - exists "200", defaultResponse. apply lookup_insert_eq.
  - cbn [Responses withParameters] in *.
    destruct (map_choose (Responses analyzed)) as (code & response & H).
    + intros Hempty. by rewrite Hempty in Hsize.
    + by exists code, response.
Qed.

Lemma enhanceEndpoint_has_response_witness :
  ∃ code response,
    Responses (enhanceEndpoint
                 (mkAnalyzerContext "ms_orders" {[ "GetOrder" := getOrderHandler ]} ∅ None ∅)
                 (RouteGraph.mkEndpointInfo "/orders/:id" "Get" "GetOrder" "ms_orders" []))
      !! code = Some response.
Proof.
  apply (enhanceEndpoint_has_response
           (mkAnalyzerContext "ms_orders" {[ "GetOrder" := getOrderHandler ]} ∅ None ∅)
           (RouteGraph.mkEndpointInfo "/orders/:id" "Get" "GetOrder" "ms_orders" [])).
  by eexists.
Defined.

(** X13: an endpoint whose path is empty or [/], or has a parameter or
    nothing as its first segment, is tagged with the name of its
    microservice. *)
Theorem assignTags_fallback (ac : analyzerContext) (path : string) :
  TrimPrefix path "/" = "" ∨ HasPrefix (TrimPrefix path "/") ":" = true
    ∨ HasPrefix (TrimPrefix path "/") "/" = true →
  assignTags ac path = [msName ac].
Proof.
  intros H. unfold assignTags.
  assert (extractPathPrefix path = "") as ->; [| done].
  unfold extractPathPrefix. case_decide as Hempty; [done |].
  destruct (TrimPrefix path "/") as [|c rest] eqn:Htrim; [done |].
  destruct H as [H | [H | H]]; [done | |].
  - rewrite HasPrefix_byte in H. apply bool_decide_eq_true in H. subst c.
    cbn [Index]. rewrite HasPrefix_byte. rewrite bool_decide_eq_false_2 by done.
    destruct (Index rest "/") as [i|]; simpl; by rewrite ?HasPrefix_empty.
  - cbn [Index]. by rewrite H.
Qed.

Lemma assignTags_fallback_witness :
  assignTags (mkAnalyzerContext "ms_orders" ∅ ∅ None ∅) "/:id/items" = ["ms_orders"].
Proof.
  apply (assignTags_fallback (mkAnalyzerContext "ms_orders" ∅ ∅ None ∅) "/:id/items").
  right. left. reflexivity.
Defined.

End Enhancer.

(** *** The business-layer registry and the fields of controllers *)

Section FieldTypes.
Import BusinessLayer Analyzer ControllerFields.

Lemma firstNonError_no_error (returnTypes : list string) :
  firstNonError returnTypes ≠ "error" ∧
  HasSuffix (firstNonError returnTypes) ".error" = false.
Proof.
  induction returnTypes as [| rt rest IH]; simpl; [done |].
  destruct (bool_decide (rt ≠ "error") && negb (HasSuffix rt ".error")) eqn:E; [| done].
  apply andb_true_iff in E as [Hne%bool_decide_eq_true Hsuffix%negb_true_iff]. done.
Qed.

Lemma GetMethodReturnType_no_error (r : BusinessLayerRegistry)
    (packageName typeName methodName : string) :
  GetMethodReturnType r packageName typeName methodName ≠ "error" ∧
  HasSuffix (GetMethodReturnType r packageName typeName methodName) ".error" = false.
Proof.
  unfold GetMethodReturnType.
  destruct (match r !! _ with Some info => Some info | None => _ end) as [info|]; [| done].
  destruct (Methods info !! methodName); [apply firstNonError_no_error | done].
Qed.

(** X14: the registry never answers with an error type: what
    [LookupMethodByFieldType] returns is neither [error] nor a name that ends
    in [.error], whatever the registry holds (it is the empty string when
    a method returns errors only). *)
Theorem LookupMethodByFieldType_no_error (r : BusinessLayerRegistry)
    (fieldType methodName : string) :
  LookupMethodByFieldType r fieldType methodName ≠ "error" ∧
  HasSuffix (LookupMethodByFieldType r fieldType methodName) ".error" = false.
Proof.
  unfold LookupMethodByFieldType.
  destruct (Split (TrimPrefix fieldType "*") ".") as [| p [| t [| ? ?]]]; try done.
  apply GetMethodReturnType_no_error.
Qed.

Lemma str_app_nonempty (s t : string) : t ≠ "" → s +:+ t ≠ "".
Proof.
  intros Ht H. apply (f_equal String.length) in H. rewrite str_length_app in H.
  destruct t; [done | simpl in H; lia].
Qed.

Lemma str_app_inv_head (s t u : string) : s +:+ t = s +:+ u → t = u.
Proof.
  induction s as [|a s IH]; [done |]. rewrite !str_app_cons. intros [= H]. by apply IH.
Qed.

Lemma qualified_Split (pkg sel : string) :
  without "." pkg → without "." sel → Split (pkg +:+ "." +:+ sel) "." = [pkg; sel].
Proof.
  intros Hpkg Hsel. unfold Split.
  change (pkg +:+ "." +:+ sel) with (pkg +:+ String "." sel).
  by rewrite SplitByte_app, !SplitByte_single.
Qed.

Lemma extractFullTypeName_star (ac : analyzerContext) (X : Node) :
  extractFullTypeName ac (StarExpr X) =
    if decide (extractFullTypeName ac X ≠ "") then "*" +:+ extractFullTypeName ac X else "".
Proof. reflexivity. Qed.

Lemma extractFullTypeName_array (ac : analyzerContext) (len : option Node) (Elt : Node) :
  extractFullTypeName ac (ArrayType len Elt) =
    if decide (extractFullTypeName ac Elt ≠ "") then "[]" +:+ extractFullTypeName ac Elt else "".
Proof. reflexivity. Qed.

(** The name [extractFullTypeName] gives the type [pkg.T], or a pointer to
    it, is taken apart again by [LookupMethodByFieldType]. *)
Lemma field_type_lookup (ac : analyzerContext) (registry : BusinessLayerRegistry)
    (pkgName sel methodName : string) (ty : Node) :
  ty = SelectorExpr (Ident pkgName) sel ∨ ty = StarExpr (SelectorExpr (Ident pkgName) sel) →
  without "." (packageOf ac pkgName) → without "." sel →
  HasPrefix (packageOf ac pkgName) "*" = false →
  extractFullTypeName ac ty ≠ "" ∧
  LookupMethodByFieldType registry (extractFullTypeName ac ty) methodName =
    GetMethodReturnType registry (packageOf ac pkgName) sel methodName.
Proof.
  intros Hty Hpkg Hsel Hstar.
  assert (extractFullTypeName ac (SelectorExpr (Ident pkgName) sel)
          = packageOf ac pkgName +:+ "." +:+ sel) as Hname.
  { unfold packageOf. simpl. by destruct (imports ac !! pkgName). }
  assert (packageOf ac pkgName +:+ "." +:+ sel ≠ "") as Hne.
  { apply str_app_nonempty. done. }
  assert (HasPrefix (packageOf ac pkgName +:+ "." +:+ sel) "*" = false) as Hstar'.
  { destruct (packageOf ac pkgName) as [|c pkg]; [done |].
    rewrite str_app_cons. by rewrite !HasPrefix_byte in *. }
  unfold LookupMethodByFieldType. destruct Hty as [-> | ->].
  - rewrite Hname. split; [done |]. unfold TrimPrefix. rewrite Hstar'.
    by rewrite qualified_Split.
  - rewrite extractFullTypeName_star, Hname, decide_True by done.
    split; [by apply str_app_nonempty |].
    change ("*" +:+ ?s) with (String "*" s). unfold TrimPrefix.
    rewrite HasPrefix_byte, bool_decide_eq_true_2 by done.
    cbn [String.length from]. by rewrite qualified_Split.
Qed.

Lemma extractFullTypeName_imports (ac ac' : analyzerContext) (expr : Node) :
  imports ac' = imports ac →
  extractFullTypeName ac' expr = extractFullTypeName ac expr.
Proof.
  intros Himports. induction expr as [t IH] using Node_children_ind.
  rewrite Forall_forall in IH.
  destruct t as [| |X sel| | | | |X|Len Elt| | | | | | | | |]; try done.
  - destruct X; try done. simpl. by rewrite Himports.
  - rewrite !extractFullTypeName_star, (IH X); [done | simpl; by left].
  - rewrite !extractFullTypeName_array, (IH Elt); [done |].
    simpl. apply elem_of_app. right. by left.
Qed.

Lemma recordField_imports (C : string) (ty : Node) (ac : analyzerContext) (name : string) :
  imports (recordField C ty ac name) = imports ac.
Proof. unfold recordField. by case_decide. Qed.

Lemma recordNames_imports (C : string) (ty : Node) (names : list string) :
  ∀ ac, imports (foldl (recordField C ty) ac names) = imports ac.
Proof.
  induction names as [| name rest IH]; intros ac; simpl; [done |].
  by rewrite IH, recordField_imports.
Qed.

Lemma extractControllerFields_imports (C : string) (fields : list Field) :
  ∀ ac, imports (extractControllerFields ac C fields) = imports ac.
Proof.
  unfold extractControllerFields.
  induction fields as [| [names ty tag doc] rest IH]; intros ac; simpl; [done |].
  by rewrite IH, recordNames_imports.
Qed.

Lemma extractControllerFields_registry (C : string) (fields : list Field) :
  ∀ ac, businessLayerRegistry (extractControllerFields ac C fields) = businessLayerRegistry ac.
Proof.
  unfold extractControllerFields.
  induction fields as [| [names ty tag doc] rest IH]; intros ac; simpl; [done |].
  rewrite IH. clear IH. revert ac.
  induction names as [| name names IH]; intros ac; simpl; [done |].
  rewrite IH. unfold recordField. by case_decide.
Qed.

Lemma recordNames_other (C f : string) (ty : Node) (names : list string) :
  f ∉ names →
  ∀ ac, controllerFields (foldl (recordField C ty) ac names) !! (C +:+ "." +:+ f)
        = controllerFields ac !! (C +:+ "." +:+ f).
Proof.
  induction names as [| name rest IH]; intros Hf ac; simpl; [done |].
  apply not_elem_of_cons in Hf as [Hne Hrest]. rewrite IH by done.
  unfold recordField. case_decide; [| done]. simpl.
  apply lookup_insert_ne. by intros ?%str_app_inv_head%str_app_inv_head.
Qed.

Lemma recordNames_in (C f : string) (ty : Node) (names : list string) :
  f ∈ names →
  ∀ ac, extractFullTypeName ac ty ≠ "" →
        controllerFields (foldl (recordField C ty) ac names) !! (C +:+ "." +:+ f)
        = Some (extractFullTypeName ac ty).
Proof.
  induction names as [| name rest IH]; intros Hf ac Hty; [by apply elem_of_nil in Hf |].
  cbn [foldl].
  assert (extractFullTypeName (recordField C ty ac name) ty = extractFullTypeName ac ty) as He.
  { apply extractFullTypeName_imports, recordField_imports. }
  destruct (decide (f ∈ rest)) as [Hin | Hout].
  - rewrite IH; [by rewrite He | done | by rewrite He].
  - apply elem_of_cons in Hf as [-> | ?]; [| done].
    rewrite recordNames_other by done.
    unfold recordField. rewrite decide_True by done. simpl. apply lookup_insert_eq.
Qed.

Lemma extractControllerFields_other (C f : string) (fields : list Field) :
  Forall (λ field, f ∉ fieldNames field) fields →
  ∀ ac, controllerFields (extractControllerFields ac C fields) !! (C +:+ "." +:+ f)
        = controllerFields ac !! (C +:+ "." +:+ f).
Proof.
  unfold extractControllerFields.
  induction 1 as [| [names ty tag doc] rest Hf _ IH]; intros ac; simpl; [done |].
  rewrite IH. by apply recordNames_other.
Qed.

(** X15: the declared type of a controller's field is what types a call
    through that field.  For a struct [C] with a field [f] of type [pkg.T]
    or [*pkg.T] (the last field named [f]), where neither [T] nor the name
    of the package that [pkg] stands for holds a dot, and that name does not
    start with a star, [extractControllerFields] records the type of [f].
    When the registry then has a layer under the name of that package and
    [T], with a method [method] one of whose return types is no error, a call
    [recv.f.method(...)] in a method of [C] has the first such return type,
    both for [inferResponseTypeFromCall] and for [inferTypeFromExprWithVars]:
    the name of the method plays no part. *)
Theorem controller_field_return_type (ac : analyzerContext)
    (registry : BusinessLayerRegistry) (C f pkgName sel methodName : string)
    (before after : list Field) (names : list string) (ty : Node)
    (tag : option string) (doc : option (list string)) (recv : Node)
    (info : BusinessLayerInfo) (returnTypes : list string) :
  businessLayerRegistry ac = Some registry →
  f ∈ names → Forall (λ field, f ∉ fieldNames field) after →
  ty = SelectorExpr (Ident pkgName) sel ∨ ty = StarExpr (SelectorExpr (Ident pkgName) sel) →
  without "." (packageOf ac pkgName) → without "." sel →
  HasPrefix (packageOf ac pkgName) "*" = false →
  registry !! (packageOf ac pkgName +:+ "." +:+ sel) = Some info →
  Methods info !! methodName = Some returnTypes →
  firstNonError returnTypes ≠ "" →
  let ac' := extractControllerFields ac C (before ++ mkField names ty tag doc :: after) in
  let call := SelectorExpr (SelectorExpr recv f) methodName in
  getControllerFieldType ac' C f = Some (extractFullTypeName ac ty) ∧
  inferResponseTypeFromCall ac' call C = firstNonError returnTypes ∧
  ∀ args varTypes,
    inferTypeFromExprWithVars ac' (CallExpr call args) varTypes C = firstNonError returnTypes.
Proof.
  intros Hregistry Hf Hafter Hty Hpkg Hsel Hstar Hinfo Hmethod Hanswer ac' call.
  destruct (field_type_lookup ac registry pkgName sel methodName ty Hty Hpkg Hsel Hstar)
    as [Hne Hlookup].
  assert (getControllerFieldType ac' C f = Some (extractFullTypeName ac ty)) as Hfield.
  { unfold getControllerFieldType, ac', extractControllerFields.
    rewrite foldl_app. cbn [foldl].
    set (ac1 := foldl _ ac before).
    assert (imports ac1 = imports ac) as Himports.
    { apply (extractControllerFields_imports C before ac). }
    pose proof (extractControllerFields_other C f after Hafter) as Hother.
    unfold extractControllerFields in Hother. rewrite Hother.
    rewrite recordNames_in; [| done |].
    - by rewrite (extractFullTypeName_imports ac ac1).
    - by rewrite (extractFullTypeName_imports ac ac1). }
  assert (businessLayerReturnType ac' (SelectorExpr recv f) methodName C =
            firstNonError returnTypes) as Hreturn.
  { unfold businessLayerReturnType. rewrite Hfield.
    unfold ac'. rewrite extractControllerFields_registry, Hregistry, Hlookup.
    unfold GetMethodReturnType. by rewrite Hinfo, Hmethod. }
  split; [done |]. split.
  - unfold call, inferResponseTypeFromCall. rewrite Hreturn. by rewrite decide_True.
  - intros args varTypes. unfold call. cbn [inferTypeFromExprWithVars].
    rewrite Hreturn. by rewrite decide_True.
Qed.

Lemma controller_field_return_type_witness :
  let registry : BusinessLayerRegistry :=
    {[ "deals_business_layer.DealBusinessLayer" :=
         mkBusinessLayerInfo "deals_business_layer" "DealBusinessLayer"
           {[ "GetAllDeals" := ["error"; "[]deals_models.Deal"; "error"] ]} ]} in
  let ac := mkAnalyzerContext "ms_deals" ∅ ∅ (Some registry) ∅ in
  let ac' :=
    extractControllerFields ac "dealsBOController"
      ([] ++ mkField ["businessLayer"]
               (StarExpr (SelectorExpr (Ident "deals_business_layer") "DealBusinessLayer"))
               None None :: []) in
  let call := SelectorExpr (SelectorExpr (Ident "s") "businessLayer") "GetAllDeals" in
  getControllerFieldType ac' "dealsBOController" "businessLayer"
    = Some "*deals_business_layer.DealBusinessLayer" ∧
  inferResponseTypeFromCall ac' call "dealsBOController" = "[]deals_models.Deal" ∧
  ∀ args varTypes,
    inferTypeFromExprWithVars ac' (CallExpr call args) varTypes "dealsBOController"
      = "[]deals_models.Deal".
Proof.
  intros registry ac ac'.
  apply (controller_field_return_type ac registry "dealsBOController" "businessLayer"
           "deals_business_layer" "DealBusinessLayer" "GetAllDeals" [] []
           ["businessLayer"]
           (StarExpr (SelectorExpr (Ident "deals_business_layer") "DealBusinessLayer"))
           None None (Ident "s")
           (mkBusinessLayerInfo "deals_business_layer" "DealBusinessLayer"
              {[ "GetAllDeals" := ["error"; "[]deals_models.Deal"; "error"] ]})
           ["error"; "[]deals_models.Deal"; "error"]).
  - reflexivity.
  - repeat constructor.
  - constructor.
  - by right.
  - reflexivity.
  - reflexivity.
  - reflexivity.
  - reflexivity.
  - reflexivity.
  - vm_compute. discriminate.
Defined.

End FieldTypes.

(** *** The endpoints of a controller file *)

Section Routes.
Import RouteGraph.

Lemma normalizePath_nonempty (groupPath endpointPath : string) :
  normalizePath groupPath endpointPath ≠ "".
Proof.
  unfold normalizePath.
  case_decide as H1; [done |]. case_decide as H2.
  { intros ->. by apply H1. }
  case_decide as H3; [done |].
  assert ((if negb (HasPrefix endpointPath "/") then "/" +:+ endpointPath else endpointPath)
          ≠ "") as He.
  { by destruct (negb (HasPrefix endpointPath "/")). }
  case_decide; [done |]. by apply str_app_nonempty.
Qed.

Lemma findHandler_named (args : list Node) :
  ∀ i index handler, findHandler i args = Some (index, handler) → handler ≠ "".
Proof.
  induction args as [| arg rest IH]; intros i index handler; simpl; [done |].
  destruct (findHandler (S i) rest) as [[index' handler']|] eqn:E.
  - intros [= <- <-]. by eapply IH.
  - case_decide; [done |]. by intros [= <- <-].
Qed.

Lemma parseHTTPMethodCall_endpoint (ctx : parseContext) (Fun : Node) (Args : list Node)
    (endpoint : EndpointInfo) :
  parseHTTPMethodCall ctx Fun Args = Some endpoint →
  MSName endpoint = msName ctx ∧ isHTTPMethod (Method endpoint) = true ∧
  Handler endpoint ≠ "" ∧ Path endpoint ≠ "".
Proof.
  unfold parseHTTPMethodCall. destruct Fun as [| |X method| | | | | | | | | | | | | | |]; try done.
  destruct (isHTTPMethod method) eqn:Hm; [| done]. cbn [negb].
  destruct Args as [| pathArg [| arg rest]]; [done | done |].
  destruct (match X with Ident name => _ | _ => _ end) as [groupPath groupMW].
  destruct (findHandler 1 (arg :: rest)) as [[index handler]|] eqn:Hh; [| done].
  intros [= <-]. simpl. repeat split; [done | | apply normalizePath_nonempty].
  by eapply findHandler_named.
Qed.

Lemma handleAssignment_msName (ctx : parseContext) (Lhs Rhs : list Node) :
  msName (handleAssignment ctx Lhs Rhs) = msName ctx.
Proof.
  unfold handleAssignment, trackGroup, setVariable.
  repeat case_match; simpl; try done.
Qed.

(** X16: every endpoint that the walk of a controller file records
    carries the name of the microservice, a method that is one of the seven
    HTTP verbs of [isHTTPMethod], a handler name and a path, none of them
    empty, whatever the file holds. *)
Theorem parseControllerFile_endpoints (node : Node) (ms : string) :
  Forall (λ endpoint,
            MSName endpoint = ms ∧ isHTTPMethod (Method endpoint) = true ∧
            Handler endpoint ≠ "" ∧ Path endpoint ≠ "")
         (parseControllerFile node ms).
Proof.
  unfold parseControllerFile.
  set (P := λ endpoint, MSName endpoint = ms ∧ isHTTPMethod (Method endpoint) = true ∧
                        Handler endpoint ≠ "" ∧ Path endpoint ≠ "").
  apply (Inspect_preserves visit (λ st, msName st.1 = ms ∧ Forall P st.2)); [| done].
  intros n [ctx endpoints] [Hms Hall]. simpl in *.
  destruct n as [| | |Fun Args| | | | | | | |Lhs tok Rhs| | | | | |]; try done.
  - simpl. destruct (parseHTTPMethodCall ctx Fun Args) as [endpoint|] eqn:E; [| done].
    simpl. split; [done |]. apply Forall_app. split; [done |]. constructor; [| done].
    destruct (parseHTTPMethodCall_endpoint ctx Fun Args endpoint E) as (? & ? & ? & ?).
    unfold P. by rewrite <- Hms.
  - simpl. by rewrite handleAssignment_msName.
Qed.

End Routes.

(** *** The schema of a struct *)

Section Structs.
Import Resolver.

Lemma assocSet_keys {A} (k : string) (v : A) (m : list (string * A)) :
  (∀ x, x ∈ (assocSet k v m).*1 ↔ x = k ∨ x ∈ m.*1) ∧
  (NoDup m.*1 → NoDup (assocSet k v m).*1).
Proof.
  induction m as [| [k' v'] m [IHin IHdup]]; simpl.
  - split.
    + intros x. rewrite list_elem_of_singleton, elem_of_nil. tauto.
    + intros _. apply NoDup_singleton.
  - case_decide as Hk; [subst k' |]; cbn [fmap list_fmap fst].
    + split; [| done]. intros x. rewrite !elem_of_cons. tauto.
    + split.
      * intros x. rewrite !elem_of_cons, IHin. tauto.
      * rewrite !NoDup_cons. intros [Hnotin Hdup]. split; [| by apply IHdup].
        rewrite IHin. intros [? | ?]; [by apply Hk | done].
Qed.

Section WithResolve.
Context (resolve : string → TypeResolver → option (SchemaSpec * TypeResolver)).

(** The names of the properties after the fields are parsed: those at
    hand and the JSON names of the fields; and every name that is added to
    the required ones is the name of a property. *)
Lemma parseFields_names (fields : list Field) :
  ∀ schema schema' r r',
    parseFields resolve fields schema r = Some (schema', r') →
    (∀ name, name ∈ (Properties schema').*1 ↔
             name ∈ (Properties schema).*1 ∨
             (name ≠ "" ∧ name ≠ "-" ∧ ∃ field, field ∈ fields ∧ jsonNameOf field = name)) ∧
    (∀ name, name ∈ Required schema' →
             name ∈ Required schema ∨ name ∈ (Properties schema').*1).
Proof.
  induction fields as [| field rest IH]; intros schema schema' r r'; simpl.
  - intros [= <- <-]. split; [| by left]. intros name. split; [by left |].
    by intros [? | (_ & _ & ? & ?%elem_of_nil & _)].
  - destruct (parseField_unfold resolve field schema r)
      as (required & describe & _ & ->).
    case_decide as Hskip.
    + simpl. intros Hrest. destruct (IH _ _ _ _ Hrest) as [Hnames Hrequired].
      split; [| done]. intros name. rewrite Hnames. split.
      * intros [? | (? & ? & f & ? & ?)]; [by left | right].
        repeat split; try done. exists f. split; [by right | done].
      * intros [? | (H1 & H2 & f & [-> | ?]%elem_of_cons & Hf)]; [by left | | right].
        { subst name. tauto. }
        repeat split; try done. by exists f.
    + destruct (parseFieldType resolve (fieldType field) r) as [[fieldSchema r1]|]; [| done].
      simpl. intros Hrest. destruct (IH _ _ _ _ Hrest) as [Hnames Hrequired].
      cbn [Properties Required] in Hnames, Hrequired.
      pose proof (proj1 (assocSet_keys (jsonNameOf field) (describe fieldSchema)
                           (Properties schema))) as Hset.
      split.
      * intros name. rewrite Hnames, Hset. split.
        -- intros [[-> | ?] | (? & ? & f & ? & ?)]; [right | by left | right].
           ++ split; [tauto |]. split; [tauto |]. exists field. split; [by left | done].
           ++ repeat split; try done. exists f. split; [by right | done].
        -- intros [? | (H1 & H2 & f & [-> | ?]%elem_of_cons & Hf)];
             [left; by right | left; by left | right].
           repeat split; try done. by exists f.
      * intros name Hname. destruct (Hrequired name Hname) as [Hin | ?]; [| by right].
        destruct required; [| by left].
        apply elem_of_app in Hin as [? | ->%list_elem_of_singleton]; [by left | right].
        apply Hnames. left. apply Hset. by left.
Qed.

(** X17: the schema that [parseStruct] gives a struct is an [object]
    schema whose properties are the JSON names of the fields: a name has a
    property exactly when it is the JSON name of a field and is neither empty
    nor [-]; and every name it lists as required is the name of one of its
    properties, whatever the fields and their tags are. *)
Theorem parseStruct_declares (fields : list Field) (doc : option (list string))
    (r r' : TypeResolver) (schema : SchemaSpec) :
  parseStruct resolve fields doc r = Some (schema, r') →
  Type_ schema = "object" ∧
  (∀ name, name ∈ (Properties schema).*1 ↔
           name ≠ "" ∧ name ≠ "-" ∧ ∃ field, field ∈ fields ∧ jsonNameOf field = name) ∧
  (∀ name, name ∈ Required schema → name ∈ (Properties schema).*1).
Proof.
  unfold parseStruct. intros H.
  destruct (parseFields_names _ _ _ _ _ H) as [Hnames Hrequired].
  split; [| split].
  - rewrite (parseFields_Type _ _ _ _ _ _ H). by repeat case_match.
  - intros name. rewrite Hnames. split; [| by right].
    intros [Hin | ?]; [| done]. exfalso. revert Hin.
    repeat case_match; simpl; by intros ?%elem_of_nil.
  - intros name Hname. destruct (Hrequired name Hname) as [Hin | ?]; [| done].
    exfalso. revert Hin. repeat case_match; simpl; by intros ?%elem_of_nil.
Qed.

End WithResolve.

Lemma parseStruct_declares_witness :
  let schema :=
    mkSchemaSpec "object" "" "" ""
      [ ("id", typed "string"); ("parent", refTo "Feed"); ("kids", arrayOf (refTo "Feed")) ]
      ["id"; "kids"] None [] None in
  Type_ schema = "object" ∧
  (∀ name, name ∈ (Properties schema).*1 ↔
           name ≠ "" ∧ name ≠ "-" ∧ ∃ field, field ∈ feedFields ∧ jsonNameOf field = name) ∧
  (∀ name, name ∈ Required schema → name ∈ (Properties schema).*1).
Proof.
  intros schema.
  apply (parseStruct_declares (ResolveType [feedFile] 1) feedFields None
           (markProcessed NewTypeResolver "Feed") (markProcessed NewTypeResolver "Feed")).
  vm_compute. reflexivity.
Defined.

End Structs.

(** *** The document *)

Section Document.
Import Analyzer Assembler.

Lemma served_lookup (endpoint : EndpointSpec) (code : string) :
  map_imap (λ code response, Some (responseRef code response)) (Responses endpoint) !! code
  = responseRef code <$> Responses endpoint !! code.
Proof. rewrite map_lookup_imap. by destruct (Responses endpoint !! code). Qed.

(** X18: every operation has a response under [400]: the status codes of
    an operation are those of its endpoint and [400], and an endpoint
    without a [400] response of its own is given the [Bad Request] one. *)
Theorem createOperation_codes (endpoint : EndpointSpec) :
  dom (opResponses (createOperation endpoint)) = dom (Responses endpoint) ∪ {["400"]} ∧
  opResponses (createOperation endpoint) !! "400" =
    Some (match Responses endpoint !! "400" with
          | Some response => responseRef "400" response
          | None => badRequest
          end).
Proof.
  unfold createOperation. cbn [opResponses].
  set (served := map_imap _ (Responses endpoint)).
  assert (dom served = dom (Responses endpoint)) as Hdom.
  { apply set_eq. intros code. rewrite !elem_of_dom. unfold served.
    rewrite served_lookup. by rewrite fmap_is_Some. }
  pose proof (served_lookup endpoint "400") as H400. fold served in H400.
  destruct (served !! "400") as [response'|] eqn:E.
  - destruct (Responses endpoint !! "400") as [response|] eqn:E'; [| done].
    split; [| by rewrite E, H400].
    rewrite Hdom. apply set_eq. intros code. rewrite elem_of_union, elem_of_singleton.
    split; [by left |]. intros [? | ->]; [done |]. apply elem_of_dom. by eexists.
  - destruct (Responses endpoint !! "400") as [response|] eqn:E'; [done |].
    split; [| apply lookup_insert_eq].
    rewrite dom_insert_L, Hdom. apply set_eq. intros code.
    rewrite !elem_of_union, elem_of_singleton. tauto.
Qed.

Lemma operationOf_empty (verb : string) : operationOf verb emptyPathItem = None.
Proof. unfold operationOf. by repeat case_decide. Qed.

Lemma operationOf_setOperation_ne (verb method : string) (item : PathItemSpec)
    (operation : OperationSpec) :
  verb ≠ method → operationOf verb (setOperation item method operation) = operationOf verb item.
Proof.
  intros Hne. destruct item. unfold operationOf, setOperation.
  repeat case_decide; simplify_eq; done.
Qed.

Lemma operationOf_setOperation (method : string) (item : PathItemSpec)
    (operation : OperationSpec) :
  method ∈ ["get"; "post"; "put"; "delete"; "patch"; "options"; "head"] →
  operationOf method (setOperation item method operation) = Some operation.
Proof.
  intros Hin. destruct item. unfold operationOf, setOperation.
  repeat (apply elem_of_cons in Hin as [-> | Hin]; [done |]).
  by apply elem_of_nil in Hin.
Qed.

(** X19: adding an endpoint sets one operation of the document and
    leaves every other one as it is: the operation of its verb under its
    path is the one created from it, and the operation of any other path or
    verb is the one the document had. *)
Theorem AddEndpoint_one_operation (s : OpenAPISpec) (endpoint : EndpointSpec) :
  (ToLower (Method endpoint) ∈ ["get"; "post"; "put"; "delete"; "patch"; "options"; "head"] →
   operationAt (AddEndpoint s endpoint) (normalizePath (Path endpoint))
               (ToLower (Method endpoint))
     = Some (createOperation endpoint)) ∧
  (∀ path verb,
     (path, verb) ≠ (normalizePath (Path endpoint), ToLower (Method endpoint)) →
     operationAt (AddEndpoint s endpoint) path verb = operationAt s path verb).
Proof.
  unfold operationAt, AddEndpoint. cbn [Paths]. split.
  - intros Hverb. rewrite lookup_insert_eq. simpl. by apply operationOf_setOperation.
  - intros path verb Hne.
    destruct (decide (path = normalizePath (Path endpoint))) as [-> | Hpath].
    + rewrite lookup_insert_eq. simpl.
      rewrite operationOf_setOperation_ne by congruence.
      destruct (Paths s !! normalizePath (Path endpoint)); [done | apply operationOf_empty].
    + by rewrite lookup_insert_ne.
Qed.

Lemma AddEndpoint_one_operation_witness :
  let post :=
    mkEndpointSpec "/orders" "POST" "CreateOrder" "ms_orders" [] "" "" ["Orders"] [] None ∅
                   [] None in
  let get :=
    mkEndpointSpec "/orders" "GET" "ListOrders" "ms_orders" [] "" "" ["Orders"] [] None ∅
                   [] None in
  let doc := AddEndpoint (NewOpenAPISpec "Orders" "1.0.0" "" []) post in
  operationAt (AddEndpoint doc get) "/orders" "get" = Some (createOperation get) ∧
  operationAt (AddEndpoint doc get) "/orders" "post" = operationAt doc "/orders" "post".
Proof.
  intros post get doc. split.
  - apply (proj1 (AddEndpoint_one_operation doc get)). vm_compute. constructor.
  - apply (proj2 (AddEndpoint_one_operation doc get) "/orders" "post"). discriminate.
Defined.

Lemma addTag_names (tags : list string) :
  ∀ existing,
    (NoDup (tagName <$> existing) → NoDup (tagName <$> addTag existing tags)) ∧
    ∀ tag, tag ∈ tagName <$> addTag existing tags ↔
           tag ∈ tagName <$> existing ∨ tag ∈ tags.
Proof.
  induction tags as [| newTag rest IH]; intros existing; simpl.
  - split; [done |]. intros tag. rewrite elem_of_nil. tauto.
  - case_bool_decide as Hin.
    + destruct (IH existing) as [Hdup Hnames]. split; [done |].
      intros tag. rewrite Hnames, elem_of_cons. split; [tauto |].
      intros [? | [-> | ?]]; tauto.
    + destruct (IH (existing ++ [mkTagSpec newTag (generateTagDescription newTag)]))
        as [Hdup Hnames].
      rewrite fmap_app in Hdup, Hnames. simpl in Hdup, Hnames. split.
      * intros Hexisting. apply Hdup. apply NoDup_app. split; [done |].
        split; [| apply NoDup_singleton].
        intros tag Htag ->%list_elem_of_singleton. done.
      * intros tag. rewrite Hnames, elem_of_app, list_elem_of_singleton, elem_of_cons.
        tauto.
Qed.

Lemma foldl_AddEndpoint_tags (endpoints : list EndpointSpec) :
  ∀ s,
    (NoDup (tagName <$> DocTags s) →
     NoDup (tagName <$> DocTags (foldl AddEndpoint s endpoints))) ∧
    ∀ tag, tag ∈ tagName <$> DocTags (foldl AddEndpoint s endpoints) ↔
           tag ∈ tagName <$> DocTags s ∨ ∃ endpoint, endpoint ∈ endpoints ∧ tag ∈ Tags endpoint.
Proof.
  induction endpoints as [| endpoint rest IH]; intros s; simpl.
  - split; [done |]. intros tag. split; [by left |].
    intros [? | (? & ?%elem_of_nil & _)]; done.
  - destruct (IH (AddEndpoint s endpoint)) as [Hdup Hnames].
    destruct (addTag_names (Tags endpoint) (DocTags s)) as [Hdup1 Hnames1].
    split; [by auto |].
    intros tag. rewrite Hnames. cbn [AddEndpoint DocTags]. rewrite Hnames1. split.
    + intros [[? | ?] | (e & ? & ?)]; [by left | |].
      * right. exists endpoint. split; [by left | done].
      * right. exists e. split; [by right | done].
    + intros [? | (e & [-> | ?]%elem_of_cons & ?)]; [tauto | tauto |].
      right. by exists e.
Qed.

(** X20: the tags of the document are those of its endpoints, each one
    once: after any run of [AddEndpoint] on a new document no tag is listed
    twice, and a tag is listed exactly when an endpoint carries it. *)
Theorem document_tags (endpoints : list EndpointSpec) (title version description : string)
    (servers : list string) :
  let doc := foldl AddEndpoint (NewOpenAPISpec title version description servers) endpoints in
  NoDup (tagName <$> DocTags doc) ∧
  ∀ tag, tag ∈ tagName <$> DocTags doc ↔
         ∃ endpoint, endpoint ∈ endpoints ∧ tag ∈ Tags endpoint.
Proof.
  intros doc.
  destruct (foldl_AddEndpoint_tags endpoints
              (NewOpenAPISpec title version description servers)) as [Hdup Hnames].
  split; [apply Hdup, NoDup_nil_2 |].
  intros tag. unfold doc. rewrite Hnames. split; [| by right].
  intros [?%elem_of_nil | ?]; done.
Qed.

Lemma foldl_AddEndpoint_scopes (endpoints : list EndpointSpec) :
  ∀ s, collectedScopes (foldl AddEndpoint s endpoints)
       = collectedScopes s ∪ list_to_set (concat (requiredScopes <$> endpoints)).
Proof.
  induction endpoints as [| endpoint rest IH]; intros s; simpl.
  - symmetry. apply (right_id_L ∅ (∪)).
  - rewrite IH. cbn [AddEndpoint collectedScopes]. unfold requiredScopes at 2.
    rewrite list_to_set_app_L. by rewrite (assoc_L (∪)).
Qed.

Lemma foldl_AddEndpoint_schemes (endpoints : list EndpointSpec) :
  ∀ s, SecuritySchemes (foldl AddEndpoint s endpoints) = SecuritySchemes s.
Proof. induction endpoints as [| endpoint rest IH]; intros s; simpl; [done | by rewrite IH]. Qed.

Lemma declaredScopes_Finalize (s : OpenAPISpec) (oauthAuthorize oauthToken : string) :
  size (collectedScopes s) ≠ 0 →
  declaredScopes (FinalizeSecuritySchemes s oauthAuthorize oauthToken) = collectedScopes s.
Proof.
  intros Hsize. unfold declaredScopes, FinalizeSecuritySchemes.
  rewrite decide_False by done. cbn [SecuritySchemes]. rewrite lookup_insert_eq.
  cbn [Flows Scopes]. apply set_eq. intros scope. rewrite elem_of_dom. unfold is_Some.
  split.
  - intros (text & (scope' & Hin & [= <- _])%lookup_set_to_map); [done |].
    by intros ? ? _ _ [= ?].
  - intros Hin. exists ("Permission: " +:+ scope). apply lookup_set_to_map.
    + by intros ? ? _ _ [= ?].
    + by exists scope.
Qed.

(** The loop of [resolveAllSchemas] returns, with a fuel that exceeds the
    number of type names in the model files by two. *)
Lemma resolveEach_returns (fs : list Resolver.GoFile) (fuel : nat) (typeNames : list string) :
  length (universe fs) + 2 ≤ fuel →
  ∀ r, ∃ r', resolveEach fs fuel typeNames r = Some r' ∧ grows r r'.
Proof.
  intros Hfuel. induction typeNames as [| typeName rest IH]; intros r; simpl.
  - exists r. split; [done | apply grows_refl].
  - destruct (ResolveType_returns fs typeName r (fuel - 2)) as (schema & r1 & H1 & Hg1).
    { pose proof (unprocessed_size (universe fs) r). lia. }
    replace (S (S (fuel - 2))) with fuel in H1 by lia. rewrite H1. simpl.
    destruct (IH r1) as (r' & -> & Hg'). exists r'. split; [done |].
    by eapply grows_trans.
Qed.

Lemma resolveAllSchemas_returns_aux (fs : list Resolver.GoFile) (fuel : nat)
    (s : OpenAPISpec) (r : Resolver.TypeResolver) :
  length (universe fs) + 2 ≤ fuel →
  ∃ s' r',
    resolveAllSchemas fs fuel s r = Some (s', r') ∧
    (Paths s', DocTags s', SecuritySchemes s', collectedScopes s') =
      (Paths s, DocTags s, SecuritySchemes s, collectedScopes s) ∧
    (∀ name schema, Resolver.schemas r' !! name = Some schema →
                    Schemas s' !! name = Some schema) ∧
    dom (Schemas s) ⊆ dom (Schemas s').
Proof.
  intros Hfuel. unfold resolveAllSchemas, resolveAllSchemasIn.
  destruct (resolveEach_returns fs fuel (elements (collectTypeReferences s)) Hfuel r)
    as (r' & -> & _).
  simpl. eexists _, r'. split; [done |]. split; [done |]. split.
  - intros name schema H. cbn [Schemas]. unfold Resolver.GetSchemas.
    by apply lookup_union_Some_l.
  - cbn [Schemas]. rewrite dom_union_L. apply union_subseteq_r.
Qed.

(** X21: [resolveAllSchemas] returns for every document and resolver
    (with a fuel that exceeds the number of type names in the model files by
    two), and all it changes in the document is [components.schemas]: there
    every schema of the resolver's table is entered under its name, and every
    name that had a schema before still has one. *)
Theorem resolveAllSchemas_returns (fs : list Resolver.GoFile) (fuel : nat)
    (s : OpenAPISpec) (r : Resolver.TypeResolver) :
  length (universe fs) + 2 ≤ fuel →
  ∃ s' r',
    resolveAllSchemas fs fuel s r = Some (s', r') ∧
    (Paths s', DocTags s', SecuritySchemes s', collectedScopes s') =
      (Paths s, DocTags s, SecuritySchemes s, collectedScopes s) ∧
    (∀ name schema, Resolver.schemas r' !! name = Some schema →
                    Schemas s' !! name = Some schema) ∧
    dom (Schemas s) ⊆ dom (Schemas s').
Proof. apply resolveAllSchemas_returns_aux. Qed.

Lemma resolveAllSchemas_returns_witness :
  ∃ s' r',
    resolveAllSchemas [feedFile] 5 (NewOpenAPISpec "Orders" "1.0.0" "" [])
                      Resolver.NewTypeResolver = Some (s', r') ∧
    (Paths s', DocTags s', SecuritySchemes s', collectedScopes s') =
      (Paths (NewOpenAPISpec "Orders" "1.0.0" "" []),
       DocTags (NewOpenAPISpec "Orders" "1.0.0" "" []),
       SecuritySchemes (NewOpenAPISpec "Orders" "1.0.0" "" []),
       collectedScopes (NewOpenAPISpec "Orders" "1.0.0" "" [])) ∧
    (∀ name schema, Resolver.schemas r' !! name = Some schema →
                    Schemas s' !! name = Some schema) ∧
    dom (Schemas (NewOpenAPISpec "Orders" "1.0.0" "" [])) ⊆ dom (Schemas s').
Proof.
  apply (resolveAllSchemas_returns [feedFile] 5 (NewOpenAPISpec "Orders" "1.0.0" "" [])
           Resolver.NewTypeResolver).
  vm_compute. lia.
Defined.

Lemma extractSecurity_cases (middleware : list string) :
  extractSecurity middleware = []
  ∨ extractSecurity middleware = [mkSecurityRequirement "bearerAuth" []]
  ∨ ∃ scopes, scopes ≠ [] ∧ extractSecurity middleware = [mkSecurityRequirement "permissions" scopes].
Proof.
  unfold extractSecurity.
  destruct (scanMiddleware middleware [] false) as [[scopes hasAuth]|]; [| by left].
  destruct hasAuth; [| by left]. case_decide as Hlen; [| right; by left].
  right. right. exists scopes. split; [intros ->; simpl in Hlen; lia | done].
Qed.

(** X22: the assembly returns a document (with a fuel that exceeds the
    number of type names in the model files by two) whose [permissions]
    scheme declares exactly the scopes that the endpoints require; and when
    the security of every endpoint is what [extractSecurity] derives from
    a middleware chain, every security requirement of every endpoint names
    a scheme that the document has, and only scopes that the document
    declares. *)
Theorem assemble_declares_security (fs : list Resolver.GoFile) (fuel : nat)
    (endpoints : list EndpointSpec) (title version description : string)
    (servers : list string) (oauthAuthorize oauthToken : string) :
  length (universe fs) + 2 ≤ fuel →
  ∃ doc,
    assemble fs fuel endpoints title version description servers oauthAuthorize oauthToken
      = Some doc ∧
    declaredScopes doc = list_to_set (concat (requiredScopes <$> endpoints)) ∧
    (Forall (λ endpoint, ∃ middleware, Security endpoint = extractSecurity middleware)
            endpoints →
     ∀ endpoint sec,
       endpoint ∈ endpoints → sec ∈ Security endpoint →
       is_Some (SecuritySchemes doc !! secName sec) ∧
       ∀ scope, scope ∈ secScopes sec → scope ∈ declaredScopes doc).
Proof.
  intros Hfuel. unfold assemble.
  set (new := NewOpenAPISpec title version description servers).
  set (pre := foldl AddEndpoint new endpoints).
  destruct (resolveAllSchemas_returns_aux fs fuel pre Resolver.NewTypeResolver Hfuel)
    as (s' & r' & -> & Hkeep & _ & _).
  injection Hkeep as _ _ Hschemes Hscopes. simpl.
  assert (collectedScopes s' = list_to_set (concat (requiredScopes <$> endpoints))) as Hcollected.
  { rewrite Hscopes. unfold pre. rewrite foldl_AddEndpoint_scopes.
    apply (left_id_L ∅ (∪)). }
  assert (SecuritySchemes s' = SecuritySchemes new) as Hnew.
  { rewrite Hschemes. apply foldl_AddEndpoint_schemes. }
  assert (declaredScopes (FinalizeSecuritySchemes s' oauthAuthorize oauthToken)
          = list_to_set (concat (requiredScopes <$> endpoints))) as Hdeclared.
  { destruct (decide (size (collectedScopes s') = 0)) as [Hzero | Hpos].
    - unfold FinalizeSecuritySchemes. rewrite decide_True by done.
      apply size_empty_inv in Hzero. apply leibniz_equiv in Hzero.
      rewrite <- Hcollected, Hzero. unfold declaredScopes. by rewrite Hnew.
    - by rewrite declaredScopes_Finalize. }
  eexists. split; [done |]. split; [done |].
  intros Hsecurity endpoint sec Hendpoint Hsec.
  assert (∀ scope, scope ∈ secScopes sec →
                   scope ∈ declaredScopes (FinalizeSecuritySchemes s' oauthAuthorize oauthToken))
    as Hin.
  { intros scope Hscope. rewrite Hdeclared. apply elem_of_list_to_set, elem_of_concat.
    exists (requiredScopes endpoint). split; [| by apply list_elem_of_fmap_2].
    unfold requiredScopes. apply elem_of_concat. exists (secScopes sec).
    split; [done | by apply list_elem_of_fmap_2]. }
  split; [| done].
  rewrite Forall_forall in Hsecurity.
  destruct (Hsecurity endpoint Hendpoint) as [middleware Hmw]. rewrite Hmw in Hsec.
  assert (SecuritySchemes (FinalizeSecuritySchemes s' oauthAuthorize oauthToken)
            !! "bearerAuth" = SecuritySchemes new !! "bearerAuth") as Hbearer.
  { unfold FinalizeSecuritySchemes. case_decide; [by rewrite Hnew |].
    cbn [SecuritySchemes]. by rewrite lookup_insert_ne, Hnew. }
  destruct (extractSecurity_cases middleware) as [H | [H | (scopes & Hne & H)]];
    rewrite H in Hsec.
  - by apply elem_of_nil in Hsec.
  - apply list_elem_of_singleton in Hsec as ->. cbn [secName]. rewrite Hbearer. by eexists.
  - apply list_elem_of_singleton in Hsec as ->. cbn [secName] in *.
    destruct scopes as [| scope scopes]; [done |].
    specialize (Hin scope ltac:(by left)).
    unfold declaredScopes in Hin.
    destruct (SecuritySchemes (FinalizeSecuritySchemes s' oauthAuthorize oauthToken)
                !! "permissions"); [by eexists | by apply elem_of_empty in Hin].
Qed.

Lemma assemble_declares_security_witness :
  let endpoint :=
    mkEndpointSpec "/orders" "POST" "CreateOrder" "ms_orders" [] "" "" ["Orders"] [] None ∅
      (extractSecurity ["c.gates.IsAuthenticated.Authenticated()";
                        "hasPermission(orders:write)"]) None in
  ∃ doc,
    assemble [feedFile] 5 [endpoint] "Orders" "1.0.0" "" [] "" "" = Some doc ∧
    declaredScopes doc = {["orders:write"]} ∧
    is_Some (SecuritySchemes doc !! "permissions").
Proof.
  intros endpoint.
  destruct (assemble_declares_security [feedFile] 5 [endpoint] "Orders" "1.0.0" "" [] "" "")
    as (doc & Hdoc & Hscopes & Hschemes).
  { vm_compute. lia. }
  exists doc. split; [done |]. split.
  - rewrite Hscopes. vm_compute. reflexivity.
  - apply (Hschemes ltac:(repeat constructor; by eexists) endpoint
             (mkSecurityRequirement "permissions" ["orders:write"])).
    + by left.
    + vm_compute. constructor.
Defined.

End Document.

(** *** What a resolution leaves in the resolver *)

Section Invariants.
Import Resolver.

(** A property of the resolver that marking a name and storing a schema
    under a cleaned name preserve is preserved by every function of the
    resolver. *)
Section Preserved.

Context (fs : list GoFile).
Context (resolve : string → TypeResolver → option (SchemaSpec * TypeResolver)).
Context (I : TypeResolver → Prop).
Hypothesis resolve_preserves :
  ∀ name r result r', I r → resolve name r = Some (result, r') → I r'.

Lemma parseFieldType_preserves (fieldType : Node) :
  ∀ r schema r', I r → parseFieldType resolve fieldType r = Some (schema, r') → I r'.
Proof.
  induction fieldType as [t IH] using Node_children_ind. intros r schema r' Hr.
  rewrite Forall_forall in IH.
  destruct t as [name| |X sel| | | | |X|Len Elt|K V| | | | | | | |]; cbn [parseFieldType];
    try (by intros [= <- <-]).
  - case_decide; [by intros [= <- <-] | by apply resolve_preserves].
  - destruct X; try (by intros [= <- <-]).
    case_decide; [by intros [= <- <-] | by apply resolve_preserves].
  - apply IH; [simpl; by left | done].
  - destruct (parseFieldType resolve Elt r) as [[item r1]|] eqn:E; [| done].
    simpl. intros [= <- <-]. eapply (IH Elt); [| done | exact E].
    simpl. apply elem_of_app. right. by left.
  - destruct (parseFieldType resolve V r) as [[value r1]|] eqn:E; [| done].
    simpl. intros [= <- <-]. eapply (IH V); [| done | exact E].
    simpl. right. by left.
Qed.

Lemma parseField_preserves (field : Field) (schema : SchemaSpec) :
  ∀ r schema' r', I r → parseField resolve field schema r = Some (schema', r') → I r'.
Proof.
  intros r schema' r' Hr. destruct field as [names ty tagLit doc]. unfold parseField.
  destruct (match tagLit with None => _ | Some _ => _ end) as [[jsonName omitempty] required].
  case_decide; [by intros [= <- <-] |].
  destruct (parseFieldType resolve ty r) as [[s r1]|] eqn:E; [| done].
  simpl. intros [= <- <-]. by eapply parseFieldType_preserves.
Qed.

Lemma parseFields_preserves (fields : list Field) :
  ∀ schema r schema' r', I r → parseFields resolve fields schema r = Some (schema', r') → I r'.
Proof.
  induction fields as [| field rest IH]; intros schema r schema' r' Hr; simpl.
  - by intros [= <- <-].
  - destruct (parseField resolve field schema r) as [[s r1]|] eqn:E; [| done].
    simpl. apply IH. by eapply parseField_preserves.
Qed.

Lemma parseFileForType_preserves (file : GoFile) (typeName : string) :
  ∀ r result r', I r → parseFileForType resolve file typeName r = Some (result, r') → I r'.
Proof.
  intros r result r' Hr. unfold parseFileForType, parseStruct.
  destruct (fileAst file) as [node|]; [| by intros [= <- <-]].
  destruct (Inspect (findDecl typeName) node None) as [[ty doc]|]; [| by intros [= <- <-]].
  destruct ty as [| |X sel| | | | | | | |fields| | | | | | |]; try (by intros [= <- <-]).
  - destruct (HasSuffix typeName "Enum"); by intros [= <- <-].
  - destruct X; try (by intros [= <- <-]).
    destruct (HasSuffix typeName "Enum"); by intros [= <- <-].
  - match goal with
    | |- context [parseFields resolve fields ?s r] =>
        destruct (parseFields resolve fields s r) as [[s' r1]|] eqn:E; [| done]
    end.
    simpl. intros [= <- <-]. by eapply parseFields_preserves.
Qed.

Lemma parseFiles_preserves (files : list GoFile) (structName : string) :
  ∀ r found r', I r → parseFiles resolve files structName r = Some (found, r') → I r'.
Proof.
  induction files as [| file rest IH]; intros r found r' Hr; simpl.
  - by intros [= <- <-].
  - destruct (parseFileForType resolve file structName r) as [[res r1]|] eqn:E; [| done].
    simpl. pose proof (parseFileForType_preserves _ _ _ _ _ Hr E) as H1.
    destruct res; [by intros [= <- <-] | by apply IH | by apply IH].
Qed.

Lemma findAndParseType_preserves (typeName : string) :
  ∀ r found r', I r → findAndParseType fs resolve typeName r = Some (found, r') → I r'.
Proof.
  intros r found r' Hr. unfold findAndParseType.
  destruct (if Contains typeName "." then _ else _) as [pkgName structName].
  by apply parseFiles_preserves.
Qed.

End Preserved.

Lemma ResolveType_preserves (fs : list GoFile) (I : TypeResolver → Prop) :
  (∀ r name, I r → I (markProcessed r name)) →
  (∀ r name schema, I r → I (storeSchema r (cleanTypeName name) schema)) →
  ∀ fuel typeName r schema r',
    I r → ResolveType fs fuel typeName r = Some (schema, r') → I r'.
Proof.
  intros Hmark Hstore. induction fuel as [| fuel IH]; intros typeName r schema r' Hr; [done |].
  rewrite ResolveType_S.
  case_decide; [by intros [= <- <-] |].
  destruct (isProcessed r typeName); [by intros [= <- <-] |].
  destruct (findAndParseType fs (ResolveType fs fuel) typeName (markProcessed r typeName))
    as [[found r1]|] eqn:E; [| done].
  assert (I r1) as H1.
  { eapply (findAndParseType_preserves fs (ResolveType fs fuel) I); [| | exact E].
    - intros name r2 result r2' H2. by apply IH.
    - by apply Hmark. }
  simpl. destruct found; intros [= <- <-]; [by apply Hstore | done].
Qed.

Lemma ResolveType_keeps (fs : list GoFile) (fuel : nat) (typeName : string)
    (r r' : TypeResolver) (schema : SchemaSpec) :
  ResolveType fs fuel typeName r = Some (schema, r') →
  dom (schemas r) ⊆ dom (schemas r') ∧ grows r r'.
Proof.
  apply (ResolveType_preserves fs (λ r', dom (schemas r) ⊆ dom (schemas r') ∧ grows r r')).
  - intros r1 name [Hdom Hgrows]. split; [done |].
    eapply grows_trans; [done | apply grows_mark].
  - intros r1 name s [Hdom Hgrows]. split.
    + simpl. rewrite dom_insert_L. etrans; [done | apply union_subseteq_r].
    + eapply grows_trans; [done | apply grows_store].
  - split; [done | apply grows_refl].
Qed.

(** X23: a resolution forgets nothing: when [ResolveType] returns, every
    name that had a schema in the table still has one, and every name that
    was marked is still marked. *)
Theorem ResolveType_forgets_nothing (fs : list GoFile) (fuel : nat) (typeName : string)
    (r r' : TypeResolver) (schema : SchemaSpec) :
  ResolveType fs fuel typeName r = Some (schema, r') →
  (∀ name, is_Some (schemas r !! name) → is_Some (schemas r' !! name)) ∧
  (∀ name, isProcessed r name = true → isProcessed r' name = true).
Proof.
  intros [Hdom Hgrows]%ResolveType_keeps. split; [| done].
  intros name. rewrite <- !elem_of_dom. apply Hdom.
Qed.

Lemma ResolveType_forgets_nothing_witness :
  ∃ schema r',
    ResolveType [feedFile] 2 "Feed" (markProcessed NewTypeResolver "Order") = Some (schema, r') ∧
    (∀ name, is_Some (schemas (markProcessed NewTypeResolver "Order") !! name) →
             is_Some (schemas r' !! name)) ∧
    (∀ name, isProcessed (markProcessed NewTypeResolver "Order") name = true →
             isProcessed r' name = true).
Proof.
  eexists _, _. split; [vm_compute; reflexivity |].
  eapply (ResolveType_forgets_nothing [feedFile] 2 "Feed"). vm_compute. reflexivity.
Defined.

(** X24: the names of the schema table are cleaned names: when no name
    of the table holds a [.] before a resolution, none does after it (so that
    the types [T] of two packages have one entry). *)
Theorem ResolveType_unqualified_names (fs : list GoFile) (fuel : nat) (typeName : string)
    (r r' : TypeResolver) (schema : SchemaSpec) :
  (∀ name, is_Some (schemas r !! name) → Contains name "." = false) →
  ResolveType fs fuel typeName r = Some (schema, r') →
  ∀ name, is_Some (schemas r' !! name) → Contains name "." = false.
Proof.
  intros Hr Hcall.
  eapply (ResolveType_preserves fs
            (λ r, ∀ name, is_Some (schemas r !! name) → Contains name "." = false));
    [| | exact Hr | exact Hcall].
  - by intros r1 name.
  - intros r1 name s H1 name'. simpl.
    destruct (decide (cleanTypeName name = name')) as [<- | Hne].
    + intros _. rewrite Contains_byte. apply cleanTypeNameFrom_without.
    + rewrite lookup_insert_ne by done. apply H1.
Qed.

Lemma ResolveType_unqualified_names_witness :
  ∃ schema r',
    ResolveType [feedFile] 3 "feeds_models.Feed" NewTypeResolver = Some (schema, r') ∧
    is_Some (schemas r' !! "Feed") ∧
    ∀ name, is_Some (schemas r' !! name) → Contains name "." = false.
Proof.
  eexists _, _. split; [vm_compute; reflexivity |]. split; [vm_compute; by eexists |].
  eapply (ResolveType_unqualified_names [feedFile] 3 "feeds_models.Feed" NewTypeResolver).
  - intros name [s Hs]. vm_compute in Hs. discriminate.
  - vm_compute. reflexivity.
Defined.

(** What a first resolution returns, when it returns. *)
Lemma first_resolution_result (fs : list GoFile) (fuel : nat) (typeName : string)
    (r r' : TypeResolver) (schema : SchemaSpec) :
  Type_ (resolveBuiltInType typeName) = "" → isProcessed r typeName = false →
  ResolveType fs fuel typeName r = Some (schema, r') →
  isProcessed r' typeName = true ∧
  (schema = refTo (cleanTypeName typeName) ∧ is_Some (schemas r' !! cleanTypeName typeName)
   ∨ schema = typed "object").
Proof.
  intros Hbuiltin Hmark. destruct fuel as [| fuel]; [done |].
  rewrite ResolveType_S, decide_False by (by rewrite Hbuiltin; intros []).
  rewrite Hmark.
  destruct (findAndParseType fs (ResolveType fs fuel) typeName (markProcessed r typeName))
    as [[found r1]|] eqn:E; [| done].
  assert (isProcessed r1 typeName = true) as H1.
  { assert (grows (markProcessed r typeName) r1) as Hgrows.
    { eapply (findAndParseType_preserves fs (ResolveType fs fuel)
                (λ r1, grows (markProcessed r typeName) r1)); [| apply grows_refl | exact E].
      intros name r2 result r2' H2 Hcall. eapply grows_trans; [exact H2 |].
      by eapply ResolveType_keeps. }
    apply Hgrows. rewrite isProcessed_mark. by rewrite decide_True. }
  simpl. destruct found as [s|]; intros [= <- <-].
  - split; [done |]. left. split; [done |]. simpl. rewrite lookup_insert_eq. by eexists.
  - split; [done | by right].
Qed.

(** X25: the first resolution of a type name.  For a name that is no
    built-in type and is not marked, [ResolveType] returns (with a fuel that
    exceeds the number of type names in the model files by two, and the same
    with every larger fuel), the name is marked when it has returned, and its
    result is either the reference to the cleaned name, which then has a
    schema in the table, or the generic object. *)
Theorem first_resolution (fs : list GoFile) (typeName : string) (r : TypeResolver) :
  Type_ (resolveBuiltInType typeName) = "" → isProcessed r typeName = false →
  ∃ schema r',
    (∀ extra,
       ResolveType fs (extra + length (universe fs) + 2) typeName r = Some (schema, r')) ∧
    isProcessed r' typeName = true ∧
    (schema = refTo (cleanTypeName typeName) ∧ is_Some (schemas r' !! cleanTypeName typeName)
     ∨ schema = typed "object").
Proof.
  intros Hbuiltin Hmark.
  destruct (ResolveType_returns fs typeName r (length (universe fs)))
    as (schema & r' & Hcall & _); [apply unprocessed_size |].
  exists schema, r'. split.
  - intros extra.
    apply (ResolveType_fuel_le fs (S (S (length (universe fs))))); [lia | done].
  - by eapply first_resolution_result.
Qed.

Lemma first_resolution_witness :
  ∃ schema r',
    (∀ extra,
       ResolveType [feedFile] (extra + length (universe [feedFile]) + 2) "Feed" NewTypeResolver
         = Some (schema, r')) ∧
    isProcessed r' "Feed" = true ∧
    (schema = refTo (cleanTypeName "Feed") ∧ is_Some (schemas r' !! cleanTypeName "Feed")
     ∨ schema = typed "object").
Proof.
  apply (first_resolution [feedFile] "Feed" NewTypeResolver); reflexivity.
Defined.

(** X26: a second resolution of a type name changes nothing: after
    [ResolveType] has returned for a name (which it does with a fuel that
    exceeds the number of type names in the model files by two), another
    call on that name leaves the resolver and its schema table as they are,
    and returns what the first call returned, except that it returns the
    reference to the cleaned name where the first call returned the generic
    object. *)
Theorem second_resolution (fs : list GoFile) (typeName : string) (r : TypeResolver) :
  ∃ schema r',
    ResolveType fs (length (universe fs) + 2) typeName r = Some (schema, r') ∧
    ∀ fuel, ∃ schema',
      ResolveType fs (S fuel) typeName r' = Some (schema', r') ∧
      (schema' = schema
       ∨ (schema = typed "object" ∧ schema' = refTo (cleanTypeName typeName))).
Proof.
  destruct (ResolveType_second_call fs typeName r (length (universe fs)))
    as (schema & r' & H1 & H2); [apply unprocessed_size |].
  exists schema, r'. split; [| done].
  by replace (length (universe fs) + 2) with (S (S (length (universe fs)))) by lia.
Qed.

End Invariants.

(** *** The references that are collected *)

Section References.
Import Analyzer Assembler.

Lemma collect_unfold (schema : SchemaSpec) (typeRefs : gset string) :
  collectTypeRefFromSingleSchema schema typeRefs =
    let typeRefs :=
      if decide (Ref schema ≠ "") then {[ last_or (Split (Ref schema) "/") "" ]} ∪ typeRefs
      else typeRefs in
    let typeRefs :=
      foldl (λ typeRefs property, collectTypeRefFromSingleSchema property.2 typeRefs)
            typeRefs (Properties schema) in
    match Items schema with
    | Some item => collectTypeRefFromSingleSchema item typeRefs
    | None => typeRefs
    end.
Proof.
  assert (∀ l acc,
            (fix props (l : list (string * SchemaSpec)) (typeRefs : gset string) :=
               match l with
               | [] => typeRefs
               | (_, propSchema) :: l' =>
                   props l' (collectTypeRefFromSingleSchema propSchema typeRefs)
               end) l acc
            = foldl (λ typeRefs property, collectTypeRefFromSingleSchema property.2 typeRefs)
                    acc l) as Hprops.
  { induction l as [| [k p] l IH]; intros acc; [done |]. cbn [foldl snd]. apply IH. }
  destruct schema as [ty fmt descr ref properties required items enum additional].
  cbn [collectTypeRefFromSingleSchema Ref Properties Items].
  destruct items as [item|]; [f_equal |]; apply Hprops.
Qed.

(** Collecting adds the references of the schema to those at hand. *)
Lemma collect_union (schema : SchemaSpec) :
  ∀ typeRefs,
    collectTypeRefFromSingleSchema schema typeRefs =
      collectTypeRefFromSingleSchema schema ∅ ∪ typeRefs.
Proof.
  induction schema as [ty fmt descr ref properties IHprops required items IHitems
                       enum additional _] using SchemaSpec_ind.
  intros typeRefs.
  rewrite (collect_unfold (mkSchemaSpec _ _ _ _ _ _ _ _ _) typeRefs).
  rewrite (collect_unfold (mkSchemaSpec _ _ _ _ _ _ _ _ _) ∅).
  cbn [Ref Properties Items]. cbv zeta.
  set (f := λ (typeRefs : gset string) (property : string * SchemaSpec),
              collectTypeRefFromSingleSchema property.2 typeRefs).
  assert (∀ acc, foldl f acc properties = foldl f ∅ properties ∪ acc) as Hfold.
  { clear -IHprops. induction IHprops as [| property Hp l _ IH]; intros acc.
    - simpl. symmetry. apply (left_id_L ∅ (∪)).
    - destruct Hp as [k _ p Hp].
      cbn [foldl]. rewrite IH. rewrite (IH (f ∅ (k, p))).
      unfold f. cbn [snd]. rewrite (Hp acc).
      by rewrite (assoc_L (∪)). }
  set (first := λ acc : gset string,
                  if decide (ref ≠ "") then {[ last_or (Split ref "/") "" ]} ∪ acc else acc).
  assert (first typeRefs = first ∅ ∪ typeRefs) as Hfirst.
  { unfold first. case_decide.
    - by rewrite (right_id_L ∅ (∪)).
    - symmetry. apply (left_id_L ∅ (∪)). }
  fold (first typeRefs) (first ∅).
  rewrite (Hfold (first typeRefs)), (Hfold (first ∅)), Hfirst.
  destruct IHitems as [item Hitem|].
  - rewrite (Hitem (foldl f ∅ properties ∪ (first ∅ ∪ typeRefs))).
    rewrite (Hitem (foldl f ∅ properties ∪ first ∅)).
    by rewrite !(assoc_L (∪)).
  - by rewrite !(assoc_L (∪)).
Qed.

(** A fold over a map with a function that only adds to what is at hand
    holds what is at hand and what every entry adds. *)
Lemma map_fold_adds {A} (g : A → gset string → gset string) (adds : A → gset string)
    (m : gmap string A) (typeRefs : gset string) :
  (∀ x acc, g x acc = adds x ∪ acc) →
  typeRefs ⊆ map_fold (λ _ x acc, g x acc) typeRefs m ∧
  ∀ i x, m !! i = Some x → adds x ⊆ map_fold (λ _ x acc, g x acc) typeRefs m.
Proof.
  intros Hg.
  apply (map_fold_weak_ind
           (λ r m, typeRefs ⊆ r ∧ ∀ i x, m !! i = Some x → adds x ⊆ r)).
  - split; [done |]. intros i x. by rewrite lookup_empty.
  - intros i x m' r Hnone [Hacc Hm']. rewrite Hg. split.
    + etrans; [exact Hacc | apply union_subseteq_r].
    + intros j y. destruct (decide (i = j)) as [<- | Hne].
      * rewrite lookup_insert_eq. intros [= <-]. apply union_subseteq_l.
      * rewrite lookup_insert_ne by done. intros Hj.
        etrans; [by eapply Hm' | apply union_subseteq_r].
Qed.

Lemma foldl_adds {A} (g : gset string → A → gset string) (adds : A → gset string)
    (l : list A) :
  (∀ x acc, g acc x = adds x ∪ acc) →
  ∀ typeRefs,
    typeRefs ⊆ foldl g typeRefs l ∧ ∀ x, x ∈ l → adds x ⊆ foldl g typeRefs l.
Proof.
  intros Hg. induction l as [| y l IH]; intros typeRefs; simpl.
  - split; [done |]. by intros x ?%elem_of_nil.
  - destruct (IH (g typeRefs y)) as [Hacc Hl]. split.
    + etrans; [| exact Hacc]. rewrite Hg. apply union_subseteq_r.
    + intros x [-> | Hx]%elem_of_cons; [| by apply Hl].
      etrans; [| exact Hacc]. rewrite Hg. apply union_subseteq_l.
Qed.

Lemma collectTypeRefsFromSchema_adds (content : gmap string MediaTypeSpec)
    (typeRefs : gset string) :
  collectTypeRefsFromSchema content typeRefs =
    collectTypeRefsFromSchema content ∅ ∪ typeRefs.
Proof.
  unfold collectTypeRefsFromSchema. revert typeRefs.
  apply (map_fold_weak_ind
           (λ r m, ∀ typeRefs,
              map_fold (λ _ mediaType typeRefs,
                          match mediaSchema mediaType with
                          | Some schema => collectTypeRefFromSingleSchema schema typeRefs
                          | None => typeRefs
                          end) typeRefs m = r ∪ typeRefs)).
  - intros typeRefs. rewrite map_fold_empty. symmetry. apply (left_id_L ∅ (∪)).
  - intros i x m r Hnone IH typeRefs.
    rewrite map_fold_insert_L; [| | done].
    + rewrite IH. destruct (mediaSchema x) as [schema|]; [| done].
      rewrite (collect_union schema (r ∪ typeRefs)), (collect_union schema r).
      by rewrite (assoc_L (∪)).
    + intros j1 j2 z1 z2 y _ _ _.
      destruct (mediaSchema z1) as [s1|], (mediaSchema z2) as [s2|]; try done.
      rewrite (collect_union s1 (collectTypeRefFromSingleSchema s2 y)), (collect_union s2 y).
      rewrite (collect_union s2 (collectTypeRefFromSingleSchema s1 y)), (collect_union s1 y).
      rewrite !(assoc_L (∪)). f_equal. apply (comm_L (∪)).
Qed.

Lemma collectTypeRefsFromSchema_media (content : gmap string MediaTypeSpec)
    (contentType : string) (mediaType : MediaTypeSpec) :
  content !! contentType = Some mediaType →
  mediaReferences mediaType ⊆ collectTypeRefsFromSchema content ∅.
Proof.
  intros Hmedia. unfold collectTypeRefsFromSchema.
  destruct (map_fold_adds
              (λ mediaType typeRefs,
                 match mediaSchema mediaType with
                 | Some schema => collectTypeRefFromSingleSchema schema typeRefs
                 | None => typeRefs
                 end) mediaReferences content ∅) as [_ H].
  - intros x acc. unfold mediaReferences. destruct (mediaSchema x) as [schema|].
    + apply collect_union.
    + symmetry. apply (left_id_L ∅ (∪)).
  - by eapply H.
Qed.

(** What an operation adds to the references. *)
Lemma collectFromOperation_adds (op : OperationSpec) (typeRefs : gset string) :
  typeRefs ⊆ collectFromOperation (Some op) typeRefs ∧
  (∀ body, opRequestBody op = Some body →
           collectTypeRefsFromSchema (reqContent body) ∅
             ⊆ collectFromOperation (Some op) typeRefs) ∧
  (∀ code response, opResponses op !! code = Some response →
                    collectTypeRefsFromSchema (refContent response) ∅
                      ⊆ collectFromOperation (Some op) typeRefs) ∧
  (∀ param schema, param ∈ opParameters op → prSchema param = Some schema →
                   collectTypeRefFromSingleSchema schema ∅
                     ⊆ collectFromOperation (Some op) typeRefs).
Proof.
  unfold collectFromOperation.
  set (afterBody := match opRequestBody op with
                    | Some body => collectTypeRefsFromSchema (reqContent body) typeRefs
                    | None => typeRefs
                    end).
  set (afterResponses := map_fold _ afterBody (opResponses op)).
  destruct (foldl_adds
              (λ typeRefs param,
                 match prSchema param with
                 | Some schema => collectTypeRefFromSingleSchema schema typeRefs
                 | None => typeRefs
                 end)
              (λ param, match prSchema param with
                        | Some schema => collectTypeRefFromSingleSchema schema ∅
                        | None => ∅
                        end)
              (opParameters op)) with (typeRefs := afterResponses) as [Hacc3 Hparams].
  { intros x acc. destruct (prSchema x) as [schema|]; [apply collect_union |].
    symmetry. apply (left_id_L ∅ (∪)). }
  destruct (map_fold_adds
              (λ response typeRefs, collectTypeRefsFromSchema (refContent response) typeRefs)
              (λ response, collectTypeRefsFromSchema (refContent response) ∅)
              (opResponses op) afterBody) as [Hacc2 Hresponses].
  { intros x acc. apply collectTypeRefsFromSchema_adds. }
  fold afterResponses in Hacc2, Hresponses.
  assert (typeRefs ⊆ afterBody) as Hacc1.
  { unfold afterBody. destruct (opRequestBody op) as [body|]; [| done].
    rewrite collectTypeRefsFromSchema_adds. apply union_subseteq_r. }
  repeat split.
  - etrans; [exact Hacc1 |]. etrans; [exact Hacc2 | exact Hacc3].
  - intros body Hbody. etrans; [| etrans; [exact Hacc2 | exact Hacc3]].
    unfold afterBody. rewrite Hbody, (collectTypeRefsFromSchema_adds _ typeRefs).
    apply union_subseteq_l.
  - intros code response Hresponse. etrans; [by eapply Hresponses | exact Hacc3].
  - intros param schema Hparam Hschema. specialize (Hparams param Hparam).
    by rewrite Hschema in Hparams.
Qed.

Lemma collectFromOperation_grows (op : option OperationSpec) (typeRefs : gset string) :
  typeRefs ⊆ collectFromOperation op typeRefs.
Proof. destruct op as [op|]; [apply collectFromOperation_adds | done]. Qed.

Lemma collectFromOperation_mono (op : OperationSpec) (typeRefs : gset string) :
  collectFromOperation (Some op) ∅ ⊆ collectFromOperation (Some op) typeRefs.
Proof.
  unfold collectFromOperation.
  assert (∀ (l : list ParameterRef) (a b : gset string), a ⊆ b →
            foldl (λ typeRefs param,
                     match prSchema param with
                     | Some schema => collectTypeRefFromSingleSchema schema typeRefs
                     | None => typeRefs
                     end) a l
            ⊆ foldl (λ typeRefs param,
                       match prSchema param with
                       | Some schema => collectTypeRefFromSingleSchema schema typeRefs
                       | None => typeRefs
                       end) b l) as Hparams.
  { induction l as [| p l IH]; intros a b Hab; simpl; [done |]. apply IH.
    destruct (prSchema p) as [schema|]; [| done].
    rewrite (collect_union schema a), (collect_union schema b).
    by apply union_mono_l. }
  apply Hparams.
  assert (∀ a b : gset string, a ⊆ b →
            map_fold (λ _ response, collectTypeRefsFromSchema (refContent response))
                     a (opResponses op)
            ⊆ map_fold (λ _ response, collectTypeRefsFromSchema (refContent response))
                       b (opResponses op)) as Hresponses.
  { intros a b Hab.
    apply (map_fold_weak_ind
             (λ r m, r ⊆ map_fold (λ _ response,
                                     collectTypeRefsFromSchema (refContent response)) b m)).
    - by rewrite map_fold_empty.
    - intros i x m r Hnone IH. rewrite map_fold_insert_L; [| | done].
      + rewrite (collectTypeRefsFromSchema_adds _ r).
        rewrite (collectTypeRefsFromSchema_adds _ (map_fold _ b m)).
        by apply union_mono_l.
      + intros j1 j2 z1 z2 y _ _ _.
        rewrite (collectTypeRefsFromSchema_adds (refContent z1)
                   (collectTypeRefsFromSchema (refContent z2) y)).
        rewrite (collectTypeRefsFromSchema_adds (refContent z2)
                   (collectTypeRefsFromSchema (refContent z1) y)).
        rewrite (collectTypeRefsFromSchema_adds (refContent z2) y).
        rewrite (collectTypeRefsFromSchema_adds (refContent z1) y).
        rewrite !(assoc_L (∪)). f_equal. apply (comm_L (∪)). }
  apply Hresponses.
  destruct (opRequestBody op) as [body|]; [| done].
  rewrite (collectTypeRefsFromSchema_adds _ typeRefs). apply union_subseteq_l.
Qed.

Lemma operationOf_operations (verb : string) (pathItem : PathItemSpec)
    (op : OperationSpec) :
  operationOf verb pathItem = Some op → Some op ∈ operations pathItem.
Proof.
  unfold operationOf, operations.
  repeat case_decide; try done; intros <-; repeat constructor.
Qed.

Lemma operations_grow (l : list (option OperationSpec)) :
  ∀ typeRefs,
    typeRefs ⊆ foldl (λ typeRefs op, collectFromOperation op typeRefs) typeRefs l.
Proof.
  induction l as [| o l IH]; intros a; simpl; [done |].
  etrans; [apply (collectFromOperation_grows o) | apply IH].
Qed.

Lemma operations_collected (l : list (option OperationSpec)) (op : OperationSpec) :
  Some op ∈ l →
  ∀ typeRefs,
    collectFromOperation (Some op) ∅
      ⊆ foldl (λ typeRefs op, collectFromOperation op typeRefs) typeRefs l.
Proof.
  induction l as [| o l IH]; intros Hin typeRefs; [by apply elem_of_nil in Hin |].
  cbn [foldl]. apply elem_of_cons in Hin as [<- | Hin]; [| by apply IH].
  etrans; [apply collectFromOperation_mono | apply operations_grow].
Qed.

(** Every operation of the document is collected from. *)
Lemma collectTypeReferences_operation (s : OpenAPISpec) (path verb : string)
    (op : OperationSpec) :
  operationAt s path verb = Some op →
  collectFromOperation (Some op) ∅ ⊆ collectTypeReferences s.
Proof.
  unfold operationAt, collectTypeReferences.
  destruct (Paths s !! path) as [pathItem|] eqn:Hpath; [simpl | done].
  intros Hop%operationOf_operations.
  revert path pathItem Hpath Hop.
  apply (map_fold_weak_ind
           (λ r m, ∀ path pathItem, m !! path = Some pathItem →
                   Some op ∈ operations pathItem →
                   collectFromOperation (Some op) ∅ ⊆ r)).
  - intros path pathItem. by rewrite lookup_empty.
  - intros i x m r Hnone IH path pathItem.
    destruct (decide (i = path)) as [<- | Hne].
    + rewrite lookup_insert_eq. intros [= <-] Hop.
      by apply (operations_collected (operations x)).
    + rewrite lookup_insert_ne by done. intros Hpath Hop.
      etrans; [by eapply IH |]. apply (operations_grow (operations x)).
Qed.

(** The schemas of an operation are collected from. *)
Lemma schemas_collected (s : OpenAPISpec) (path verb : string) (op : OperationSpec) :
  operationAt s path verb = Some op →
  (∀ code response contentType mediaType schema,
     opResponses op !! code = Some response →
     refContent response !! contentType = Some mediaType →
     mediaSchema mediaType = Some schema →
     collectTypeRefFromSingleSchema schema ∅ ⊆ collectTypeReferences s) ∧
  (∀ body contentType mediaType schema,
     opRequestBody op = Some body →
     reqContent body !! contentType = Some mediaType →
     mediaSchema mediaType = Some schema →
     collectTypeRefFromSingleSchema schema ∅ ⊆ collectTypeReferences s) ∧
  (∀ param schema,
     param ∈ opParameters op → prSchema param = Some schema →
     collectTypeRefFromSingleSchema schema ∅ ⊆ collectTypeReferences s).
Proof.
  intros Hop. pose proof (collectTypeReferences_operation s path verb op Hop) as Hall.
  destruct (collectFromOperation_adds op ∅) as (_ & Hbody & Hresponses & Hparams).
  repeat split.
  - intros code response contentType mediaType schema Hresponse Hmedia Hschema.
    etrans; [| exact Hall]. etrans; [| by eapply Hresponses].
    pose proof (collectTypeRefsFromSchema_media _ _ _ Hmedia) as H.
    unfold mediaReferences in H. by rewrite Hschema in H.
  - intros body contentType mediaType schema Hb Hmedia Hschema.
    etrans; [| exact Hall]. etrans; [| by eapply Hbody].
    pose proof (collectTypeRefsFromSchema_media _ _ _ Hmedia) as H.
    unfold mediaReferences in H. by rewrite Hschema in H.
  - intros param schema Hparam Hschema.
    etrans; [| exact Hall]. by eapply Hparams.
Qed.

(** The name that the collection reads off a reference to a schema. *)
Lemma reference_name (name : string) :
  without "/" name → last_or (Split ("#/components/schemas/" +:+ name) "/") "" = name.
Proof.
  intros Hname. unfold Split.
  change ("#/components/schemas/" +:+ name) with ("#/components/schemas" +:+ String "/" name).
  rewrite SplitByte_app, (SplitByte_single "/" name) by done.
  by rewrite last_or_app.
Qed.

(** What the collection from a schema holds: the name of its own
    reference, and what is collected from its properties and its items. *)
Lemma collect_parts (schema : SchemaSpec) :
  (Ref schema ≠ "" →
   last_or (Split (Ref schema) "/") "" ∈ collectTypeRefFromSingleSchema schema ∅) ∧
  (∀ name property, (name, property) ∈ Properties schema →
     collectTypeRefFromSingleSchema property ∅ ⊆ collectTypeRefFromSingleSchema schema ∅) ∧
  (∀ item, Items schema = Some item →
     collectTypeRefFromSingleSchema item ∅ ⊆ collectTypeRefFromSingleSchema schema ∅).
Proof.
  rewrite (collect_unfold schema ∅). cbv zeta.
  set (first := if decide (Ref schema ≠ "") then _ else _).
  destruct (foldl_adds
              (λ typeRefs (property : string * SchemaSpec),
                 collectTypeRefFromSingleSchema property.2 typeRefs)
              (λ property, collectTypeRefFromSingleSchema property.2 ∅)
              (Properties schema)) with (typeRefs := first) as [Hfirst Hproperties].
  { intros x acc. apply collect_union. }
  set (afterProperties := foldl _ first (Properties schema)) in *.
  assert (afterProperties ⊆ match Items schema with
                            | Some item => collectTypeRefFromSingleSchema item afterProperties
                            | None => afterProperties
                            end) as Hitems.
  { destruct (Items schema) as [item|]; [| done].
    rewrite collect_union. apply union_subseteq_r. }
  split; [| split].
  - intros Href. apply Hitems, Hfirst. unfold first. rewrite decide_True by done.
    apply elem_of_union_l. by apply elem_of_singleton.
  - intros name property Hin. etrans; [| exact Hitems].
    apply (Hproperties (name, property) Hin).
  - intros item Hitem. rewrite Hitem, (collect_union item afterProperties).
    apply union_subseteq_l.
Qed.

(** A reference at any depth of a schema is collected from the schema. *)
Lemma within_collected (part root : SchemaSpec) (name : string) :
  within part root →
  Ref part = "#/components/schemas/" +:+ name → without "/" name →
  name ∈ collectTypeRefFromSingleSchema root ∅.
Proof.
  intros Hwithin Href Hname.
  induction Hwithin as [| schema key property Hin _ IH | schema item Hitem _ IH].
  - destruct (collect_parts part) as (Hown & _ & _).
    rewrite Href, reference_name in Hown by done. apply Hown.
    change ("#/components/schemas/" +:+ name) with (String "#" ("/components/schemas/" +:+ name)).
    done.
  - destruct (collect_parts schema) as (_ & Hproperties & _).
    by eapply Hproperties.
  - destruct (collect_parts schema) as (_ & _ & Hitems).
    by eapply Hitems.
Qed.

(** X27: no reference of the document escapes the collection.  For every
    operation that the document has under a path and a verb, and every
    schema of one of its responses, of its request body or of one of its
    parameters: a schema that lies in it at any depth of properties and
    items and refers to [#/components/schemas/name], for a [name] without a
    slash, has its [name] among the type names that [collectTypeReferences]
    returns (those [resolveAllSchemas] hands to the resolver). *)
Theorem references_collected (s : OpenAPISpec) (path verb : string) (op : OperationSpec)
    (part : SchemaSpec) (name : string) :
  operationAt s path verb = Some op →
  Ref part = "#/components/schemas/" +:+ name → without "/" name →
  (∀ code response contentType mediaType schema,
     opResponses op !! code = Some response →
     refContent response !! contentType = Some mediaType →
     mediaSchema mediaType = Some schema →
     within part schema → name ∈ collectTypeReferences s) ∧
  (∀ body contentType mediaType schema,
     opRequestBody op = Some body →
     reqContent body !! contentType = Some mediaType →
     mediaSchema mediaType = Some schema →
     within part schema → name ∈ collectTypeReferences s) ∧
  (∀ param schema,
     param ∈ opParameters op → prSchema param = Some schema →
     within part schema → name ∈ collectTypeReferences s).
Proof.
  intros Hop Href Hname.
  destruct (schemas_collected s path verb op Hop) as (Hresponses & Hbody & Hparams).
  repeat split.
  - intros code response contentType mediaType schema H1 H2 H3 Hwithin.
    eapply Hresponses; [exact H1 | exact H2 | exact H3 |]. by eapply within_collected.
  - intros body contentType mediaType schema H1 H2 H3 Hwithin.
    eapply Hbody; [exact H1 | exact H2 | exact H3 |]. by eapply within_collected.
  - intros param schema H1 H2 Hwithin.
    eapply Hparams; [exact H1 | exact H2 |]. by eapply within_collected.
Qed.

Lemma references_collected_witness :
  let endpoint :=
    mkEndpointSpec "/orders" "GET" "ListOrders" "ms_orders" [] "" "" ["Orders"] [] None
      {[ "200" := mkResponseSpec "Successful response" "application/json"
                    (arrayOf (refTo "Order")) ]}
      [] None in
  "Order" ∈ collectTypeReferences (AddEndpoint (NewOpenAPISpec "Orders" "1.0.0" "" []) endpoint).
Proof.
  intros endpoint.
  apply (proj1 (references_collected
                  (AddEndpoint (NewOpenAPISpec "Orders" "1.0.0" "" []) endpoint)
                  "/orders" "get" (createOperation endpoint) (refTo "Order") "Order"
                  eq_refl eq_refl eq_refl)
           "200"
           (responseRef "200"
              (mkResponseSpec "Successful response" "application/json"
                 (arrayOf (refTo "Order"))))
           "application/json"
           (mkMediaTypeSpec (Some (objectWith "data" (arrayOf (refTo "Order")))))
           (objectWith "data" (arrayOf (refTo "Order"))) eq_refl eq_refl eq_refl).
  apply (within_property _ _ "data" (arrayOf (refTo "Order"))); [by left |].
  apply (within_items _ _ (refTo "Order")); [reflexivity | apply within_here].
Defined.

End References.

(** *** Types of packages without files *)

Section UnknownPackage.
Import Resolver.

Lemma findGoFiles_none (fs : list GoFile) (targetDir : string) :
  Forall (λ file, isBelow targetDir file = false) fs → findGoFiles fs targetDir = [].
Proof. induction 1 as [| file rest Hfile _ IH]; simpl; [done | by rewrite Hfile]. Qed.

(** X28: a type of a package whose directory holds no file is not
    looked for anywhere else: for a qualified name [pkg.T] that is no
    built-in type and is not marked, when no file of the models directory is
    below the directory [mapPackageNameToDir pkg], [ResolveType] returns the
    generic object, marks the name and stores no schema. *)
Theorem unknown_package (fs : list GoFile) (fuel : nat) (pkg T : string) (r : TypeResolver) :
  pkg ≠ "" → without "." pkg → without "." T →
  Type_ (resolveBuiltInType (pkg +:+ "." +:+ T)) = "" →
  isProcessed r (pkg +:+ "." +:+ T) = false →
  Forall (λ file, isBelow (mapPackageNameToDir pkg) file = false) fs →
  ResolveType fs (S fuel) (pkg +:+ "." +:+ T) r =
    Some (typed "object", markProcessed r (pkg +:+ "." +:+ T)).
Proof.
  intros Hpkg Hp HT Hbuiltin Hmark Hfiles.
  rewrite ResolveType_S, decide_False by (by rewrite Hbuiltin; intros []).
  rewrite Hmark. unfold findAndParseType.
  assert (Contains (pkg +:+ "." +:+ T) "." = true) as ->.
  { rewrite Contains_byte, memByte_app. change ("." +:+ T) with (String "." T).
    simpl. by rewrite orb_true_r. }
  rewrite qualified_Split by done. cbn [lookup list_lookup default].
  rewrite decide_True by done. by rewrite findGoFiles_none.
Qed.

Lemma unknown_package_witness :
  ResolveType [feedFile] 1 ("orders_models" +:+ "." +:+ "Order") NewTypeResolver =
    Some (typed "object",
          markProcessed NewTypeResolver ("orders_models" +:+ "." +:+ "Order")).
Proof.
  apply (unknown_package [feedFile] 0 "orders_models" "Order" NewTypeResolver);
    try reflexivity; [discriminate | repeat constructor].
Defined.

End UnknownPackage.

(** *** The arguments of an endpoint call *)

Section EndpointArguments.
Import RouteGraph.

Lemma findHandler_unnamed (args : list Node) :
  ∀ i, findHandler i args = None → Forall (λ arg, extractHandlerName arg = "") args.
Proof.
  induction args as [| arg rest IH]; intros i; simpl; [done |].
  destruct (findHandler (S i) rest) as [found|] eqn:E; [done |].
  case_decide; [| done]. intros _. constructor; [done | by eapply IH].
Qed.

Lemma findHandler_split (args : list Node) :
  ∀ i index handlerName,
    findHandler i args = Some (index, handlerName) →
    ∃ before handler after,
      args = before ++ handler :: after ∧ index = i + length before ∧
      handlerName = extractHandlerName handler ∧ handlerName ≠ "" ∧
      Forall (λ arg, extractHandlerName arg = "") after.
Proof.
  induction args as [| arg rest IH]; intros i index handlerName; simpl; [done |].
  destruct (findHandler (S i) rest) as [[index' name']|] eqn:E.
  - intros [= <- <-].
    destruct (IH _ _ _ E) as (before & handler & after & -> & -> & -> & Hne & Hafter).
    exists (arg :: before), handler, after. split; [done |]. split; [simpl; lia |]. done.
  - case_decide as Hname; [done |]. intros [= <- <-].
    exists [], arg, rest. split; [done |]. split; [simpl; lia |].
    split; [done |]. split; [done |]. by eapply findHandler_unnamed.
Qed.

(** X29: how the arguments of an endpoint call are told apart.  When a
    call [x.Method(path, args...)] gives an endpoint, its handler is the last
    of the arguments that has a handler name; the middleware of the endpoint
    is that of the group of [x] followed by the names of the arguments before
    the handler; and the arguments after the handler, none of which has a
    name, are dropped. *)
Theorem endpoint_arguments (ctx : parseContext) (X : Node) (method : string)
    (pathArg : Node) (args : list Node) (endpoint : EndpointInfo) :
  parseHTTPMethodCall ctx (SelectorExpr X method) (pathArg :: args) = Some endpoint →
  ∃ before handler after,
    args = before ++ handler :: after ∧
    Forall (λ arg, extractHandlerName arg = "") after ∧
    Handler endpoint = extractHandlerName handler ∧ Handler endpoint ≠ "" ∧
    Middleware endpoint =
      match X with
      | Ident name => default [] (groupMiddleware ctx !! name)
      | _ => []
      end ++ middlewareNames ctx before.
Proof.
  unfold parseHTTPMethodCall. destruct (isHTTPMethod method); [| done]. cbn [negb].
  destruct args as [| arg rest]; [done |].
  destruct (findHandler 1 (arg :: rest)) as [[index handlerName]|] eqn:E.
  - destruct (findHandler_split _ _ _ _ E)
      as (before & handler & after & Hargs & -> & -> & Hne & Hafter).
    rewrite Hargs. replace (1 + length before - 1) with (length before) by lia.
    rewrite take_app_length.
    destruct X; intros [= <-]; by exists before, handler, after.
  - by destruct X.
Qed.

Lemma endpoint_arguments_witness :
  ∃ before handler after,
    [Ident "auth"; Ident "GetOrder"; strLit "unused"] = before ++ handler :: after ∧
    Forall (λ arg, extractHandlerName arg = "") after ∧
    Handler (mkEndpointInfo "/orders" "Get" "GetOrder" "ms_orders" ["auth"])
      = extractHandlerName handler ∧
    Handler (mkEndpointInfo "/orders" "Get" "GetOrder" "ms_orders" ["auth"]) ≠ "" ∧
    Middleware (mkEndpointInfo "/orders" "Get" "GetOrder" "ms_orders" ["auth"]) =
      default [] (groupMiddleware (newContext "ms_orders") !! "app")
        ++ middlewareNames (newContext "ms_orders") before.
Proof.
  apply (endpoint_arguments (newContext "ms_orders") (Ident "app") "Get" (strLit "/orders")
           [Ident "auth"; Ident "GetOrder"; strLit "unused"]).
  vm_compute. reflexivity.
Defined.

(** X30: a group that is given no path is not tracked.  After
    [x := recv.Group(path, mws...)] whose first argument is no string
    literal, or the empty one, and for an [x] that names no group before,
    an endpoint registered on [x] has its own path and its own middleware
    only: none of the middleware [mws] of the group reaches it. *)
Theorem group_without_path (ctx : parseContext) (x method : string) (recv pathArg : Node)
    (groupArgs : list Node) (endpointPath : Node) (mws : list Node) (handler : Node) :
  extractStringLiteral pathArg = "" →
  groupPaths ctx !! x = None → groupMiddleware ctx !! x = None →
  isHTTPMethod method = true → extractHandlerName handler ≠ "" →
  let ctx' :=
    handleAssignment ctx [Ident x] [CallExpr (SelectorExpr recv "Group") (pathArg :: groupArgs)] in
  parseHTTPMethodCall ctx' (SelectorExpr (Ident x) method) (endpointPath :: mws ++ [handler]) =
    Some (mkEndpointInfo
            (normalizePath "" (if decide (extractStringLiteral endpointPath = "") then "/"
                               else extractStringLiteral endpointPath))
            method (extractHandlerName handler) (msName ctx) (middlewareNames ctx' mws)).
Proof.
  intros Hpath Hx Hmw Hmethod Hhandler ctx'.
  rewrite parseHTTPMethodCall_handler_last by done.
  assert (groupPaths ctx' = groupPaths ctx ∧ groupMiddleware ctx' = groupMiddleware ctx
          ∧ msName ctx' = msName ctx) as (-> & -> & ->).
  { unfold ctx', handleAssignment, trackGroup. rewrite decide_True by done.
    by rewrite decide_True by done. }
  by rewrite Hx, Hmw.
Qed.

Lemma group_without_path_witness :
  let ctx' :=
    handleAssignment (newContext "ms_orders") [Ident "admin"]
      [CallExpr (SelectorExpr (Ident "app") "Group") (strLit "" :: [Ident "auth"])] in
  parseHTTPMethodCall ctx' (SelectorExpr (Ident "admin") "Get")
                      (strLit "/orders" :: [] ++ [Ident "ListOrders"]) =
    Some (mkEndpointInfo "/orders" "Get" "ListOrders" "ms_orders" []).
Proof.
  apply (group_without_path (newContext "ms_orders") "admin" "Get" (Ident "app") (strLit "")
           [Ident "auth"] (strLit "/orders") [] (Ident "ListOrders"));
    try reflexivity. discriminate.
Defined.

End EndpointArguments.
